(** * folder_sync: one-way periodic mirroring of a source folder onto a replica

    A shallow embedding of [main.py] (and the constants of [config.py]) and
    the properties of its specification that can be settled on it.

    - [MD5] models [hashlib.md5] (RFC 1321) on byte lists.
    - The filesystem is a finite map from paths to entries; the [os] and file
      primitives the program calls are functions on it that either return or
      raise an [OSError].
    - The program's functions live in a state-and-exception monad [M] that
      threads the filesystem and the log; recursion over the directory tree is
      bounded by an explicit recursion budget. *)

From Stdlib Require Import Strings.Ascii Strings.String Strings.Byte ZArith.
From stdpp Require Import gmap strings list fin_maps.

(** ** hashlib.md5 *)

Module MD5.

#[local] Open Scope Z_scope.

(** 32-bit words are [Z] with the wrap-around written out. *)
Definition mask32 (x : Z) : Z := Z.land x 0xFFFFFFFF.

Definition add32 (x y : Z) : Z := mask32 (x + y).

Definition not32 (x : Z) : Z := Z.lxor (mask32 x) 0xFFFFFFFF.

Definition rotl32 (x c : Z) : Z :=
  mask32 (Z.lor (Z.shiftl x c) (Z.shiftr (mask32 x) (32 - c))).

(** Per-round left-rotation amounts. *)
Definition shift_amounts : list Z :=
  [ 7; 12; 17; 22;  7; 12; 17; 22;  7; 12; 17; 22;  7; 12; 17; 22;
    5;  9; 14; 20;  5;  9; 14; 20;  5;  9; 14; 20;  5;  9; 14; 20;
    4; 11; 16; 23;  4; 11; 16; 23;  4; 11; 16; 23;  4; 11; 16; 23;
    6; 10; 15; 21;  6; 10; 15; 21;  6; 10; 15; 21;  6; 10; 15; 21 ].

(** [floor (2^32 * |sin (i + 1)|)] for [i] in [0..63]. *)
Definition sines : list Z :=
  [ 0xd76aa478; 0xe8c7b756; 0x242070db; 0xc1bdceee;
    0xf57c0faf; 0x4787c62a; 0xa8304613; 0xfd469501;
    0x698098d8; 0x8b44f7af; 0xffff5bb1; 0x895cd7be;
    0x6b901122; 0xfd987193; 0xa679438e; 0x49b40821;
    0xf61e2562; 0xc040b340; 0x265e5a51; 0xe9b6c7aa;
    0xd62f105d; 0x02441453; 0xd8a1e681; 0xe7d3fbc8;
    0x21e1cde6; 0xc33707d6; 0xf4d50d87; 0x455a14ed;
    0xa9e3e905; 0xfcefa3f8; 0x676f02d9; 0x8d2a4c8a;
    0xfffa3942; 0x8771f681; 0x6d9d6122; 0xfde5380c;
    0xa4beea44; 0x4bdecfa9; 0xf6bb4b60; 0xbebfbc70;
    0x289b7ec6; 0xeaa127fa; 0xd4ef3085; 0x04881d05;
    0xd9d4d039; 0xe6db99e5; 0x1fa27cf8; 0xc4ac5665;
    0xf4292244; 0x432aff97; 0xab9423a7; 0xfc93a039;
    0x655b59c3; 0x8f0ccc92; 0xffeff47d; 0x85845dd1;
    0x6fa87e4f; 0xfe2ce6e0; 0xa3014314; 0x4e0811a1;
    0xf7537e82; 0xbd3af235; 0x2ad7d2bb; 0xeb86d391 ].

(** The digest state: the four chaining words A, B, C, D. *)
Record chain := Chain { cA : Z; cB : Z; cC : Z; cD : Z }.

Definition initial : chain :=
  Chain 0x67452301 0xefcdab89 0x98badcfe 0x10325476.

Definition byte_val (b : byte) : Z := Z.of_N (Byte.to_N b).

(** Message padding: a 0x80 byte, zeros up to 56 mod 64, then the bit length
    as a 64-bit little-endian integer. *)
Definition le_bytes (n : nat) (x : Z) : list Z :=
  (λ i, Z.land (Z.shiftr x (8 * Z.of_nat i)) 0xFF) <$> seq 0 n.

Definition pad (msg : list byte) : list Z :=
  let len := Z.of_nat (length msg) in
  let zeros := Z.to_nat ((55 - len) mod 64) in
  (byte_val <$> msg) ++ [0x80] ++ replicate zeros 0
    ++ le_bytes 8 (Z.land (8 * len) 0xFFFFFFFFFFFFFFFF).

(** Little-endian 32-bit words of a byte stream. *)
Fixpoint words (bs : list Z) : list Z :=
  match bs with
  | b0 :: b1 :: b2 :: b3 :: rest =>
      (b0 + Z.shiftl b1 8 + Z.shiftl b2 16 + Z.shiftl b3 24) :: words rest
  | _ => []
  end.

(** One of the 64 operations of the compression function. *)
Definition step (m : list Z) (st : chain) (i : nat) : chain :=
  let '(Chain a b c d) := st in
  let zi := Z.of_nat i in
  let '(f, g) :=
    match (i / 16)%nat with
    | 0%nat => (Z.lor (Z.land b c) (Z.land (not32 b) d), zi)
    | 1%nat => (Z.lor (Z.land d b) (Z.land (not32 d) c), (5 * zi + 1) mod 16)
    | 2%nat => (Z.lxor (Z.lxor b c) d, (3 * zi + 5) mod 16)
    | _ => (Z.lxor c (Z.lor b (not32 d)), (7 * zi) mod 16)
    end in
  let f' := add32 (add32 (add32 f a) (nth i sines 0)) (nth (Z.to_nat g) m 0) in
  Chain d (add32 b (rotl32 f' (nth i shift_amounts 0))) b c.

Definition compress (st : chain) (m : list Z) : chain :=
  let '(Chain a b c d) := foldl (step m) st (seq 0 64) in
  Chain (add32 (cA st) a) (add32 (cB st) b) (add32 (cC st) c) (add32 (cD st) d).

(** The 16-word blocks of the padded message; [n] bounds their number. *)
Fixpoint blocks (n : nat) (ws : list Z) : list (list Z) :=
  match n, ws with
  | S n', _ :: _ => take 16 ws :: blocks n' (drop 16 ws)
  | _, _ => []
  end.

Definition digest_state (msg : list byte) : chain :=
  let ws := words (pad msg) in
  foldl compress initial (blocks (length ws) ws).

Definition digest (msg : list byte) : list Z :=
  let '(Chain a b c d) := digest_state msg in
  le_bytes 4 a ++ le_bytes 4 b ++ le_bytes 4 c ++ le_bytes 4 d.

Definition hex_digit (x : Z) : ascii :=
  nth (Z.to_nat x)
    ["0"; "1"; "2"; "3"; "4"; "5"; "6"; "7";
     "8"; "9"; "a"; "b"; "c"; "d"; "e"; "f"]%char "0"%char.

Fixpoint hex (bs : list Z) : string :=
  match bs with
  | [] => EmptyString
  | b :: rest =>
      String (hex_digit (Z.shiftr b 4)) (String (hex_digit (Z.land b 0xF)) (hex rest))
  end.

(** The hash object of [hashlib.md5()]: the bytes fed so far.  [update]
    appends a chunk, [hexdigest] finalises over everything fed. *)
Definition t := list byte.
Definition new : t := [].
Definition update (h : t) (chunk : list byte) : t := h ++ chunk.
Definition hexdigest (h : t) : string := hex (digest h).

End MD5.

(** ** The filesystem

    A path is the list of its segments from the filesystem root, so
    [os.path.join p item] is [p ++ [item]].  The filesystem maps each
    existing path to its entry. *)

Abbreviation path := (list string).

(** Permission bits.  On a file: may it be opened for reading, for writing.
    On a directory: may it be listed, may entries be created or removed in it. *)
Record mode := Mode { readable : bool; writable : bool }.

Definition rw : mode := Mode true true.

(** A file carries its bytes and, when the device is damaged, the offset of
    the first byte that cannot be read: a read that would deliver that byte
    fails.  Data written anew has no such fault. *)
Inductive entry :=
| File (m : mode) (data : list byte) (fault : option nat)
| Dir (m : mode).

Abbreviation filesystem := (gmap path entry).

#[export] Instance mode_eq_dec : EqDecision mode.
Proof. solve_decision. Defined.

#[export] Instance byte_eq_dec : EqDecision byte.
Proof. intros a b. destruct (Byte.eqb a b) eqn:E.
  - left. by apply Byte.byte_dec_bl.
  - right. intros ->. by rewrite Byte.byte_dec_lb in E.
Defined.

#[export] Instance entry_eq_dec : EqDecision entry.
Proof. solve_decision. Defined.

Definition is_file (o : option entry) : bool :=
  match o with Some (File _ _ _) => true | _ => false end.

Definition is_dir (o : option entry) : bool :=
  match o with Some (Dir _) => true | _ => false end.

(** [os.path.join] *)
Definition os_path_join (p : path) (item : string) : path := p ++ [item].

(** [os.path.dirname]: the path without its last segment. *)
Definition dirname (p : path) : path := take (pred (length p)) p.

(** [strip_prefix p q] is [Some k] exactly when [q = p ++ k]. *)
Fixpoint strip_prefix (p q : path) : option path :=
  match p, q with
  | [], _ => Some q
  | a :: p', b :: q' => if decide (a = b) then strip_prefix p' q' else None
  | _ :: _, [] => None
  end.

Definition child_of (p q : path) : option string :=
  match strip_prefix p q with
  | Some [item] => Some item
  | _ => None
  end.

(** The names of the entries directly under [p]. *)
Definition children (fs : filesystem) (p : path) : list string :=
  omap (child_of p) (map_to_list fs).*1.

(** ** Errors, log records and the state *)

Inductive errno :=
| ENOENT | EEXIST | EACCES | EISDIR | ENOTDIR | ENOTEMPTY | EIO.

Inductive exn :=
| OSError (err : errno)
| KeyError (key : string)
| IndexError
| ValueError.

Inductive level := INFO | ERROR.

(** One constructor per [logger] call of [main.py], with the values its
    message interpolates. *)
Inductive message :=
| Commands_read (argv : list string)
| Invalid_number_of_arguments
| Usage
| Source_same_as_replica
| Invalid_sync_interval
| Invalid_logger_extension
| Failed_to_open_file (filepath : path) (err : errno)
| Failed_to_calculate_file_hash (e : exn)
| Sync_interval_set (value : Z) (unit_name : string)
| Synchronizing_folders (source replica : path)
| Deleting_file (itempath : path)
| Failed_to_delete (itempath : path)
| Deleting_folder (itempath : path)
| Failed_to_delete_folder (itempath : path)
| Source_folder_does_not_exist
| Synchronizing_folder (replica : path)
| Failed_to_create_replica_folder (err : errno)
| Source_is_not_a_folder
| Replica_is_not_a_folder
| Hash_match (item : string)
| Synchronizing_file (replica_item_path : path)
| Failed_to_synchronize (source_item_path replica_item_path : path) (err : errno).

#[export] Instance errno_eq_dec : EqDecision errno.
Proof. solve_decision. Defined.

#[export] Instance exn_eq_dec : EqDecision exn.
Proof. solve_decision. Defined.

#[export] Instance level_eq_dec : EqDecision level.
Proof. solve_decision. Defined.

#[export] Instance message_eq_dec : EqDecision message.
Proof. solve_decision. Defined.

(** The state the program runs in: the filesystem, the log stream, and the
    seconds slept so far. *)
Record state := State {
  files : gmap path entry;
  log : list (level * message);
  clock : Z
}.

Definition with_files (σ : state) (fs : gmap path entry) : state :=
  State fs (log σ) (clock σ).

(** How a computation ends: it returns, it raises, or the recursion budget
    of the model ran out before it did either. *)
Inductive outcome (A : Type) :=
| Returns (a : A) (σ : state)
| Raises (e : exn) (σ : state)
| Exhausted.

Arguments Returns {A} a σ.
Arguments Raises {A} e σ.
Arguments Exhausted {A}.

Definition M (A : Type) : Type := state → outcome A.

Definition ret {A} (a : A) : M A := λ σ, Returns a σ.

Definition bind {A B} (c : M A) (f : A → M B) : M B :=
  λ σ,
    match c σ with
    | Returns a σ' => f a σ'
    | Raises e σ' => Raises e σ'
    | Exhausted => Exhausted
    end.

Declare Scope M_scope.
Delimit Scope M_scope with M.
Bind Scope M_scope with M.

Notation "x ← y ; z" := (bind y (λ x, z))
  (at level 20, y at level 100, z at level 200, only parsing) : M_scope.
Notation "' x ← y ; z" := (bind y (λ x, z))
  (at level 20, x pattern, y at level 100, z at level 200, only parsing) : M_scope.
Notation "x ;; z" := (bind x (λ _, z))
  (at level 100, z at level 200, only parsing, right associativity) : M_scope.

Open Scope M_scope.

Definition raise {A} (e : exn) : M A := λ σ, Raises e σ.

Definition exhausted {A} : M A := λ _, Exhausted.

(** [try: body except ...]: [handler e] is the clause that catches [e], if any. *)
Definition try_except {A} (body : M A) (handler : exn → option (M A)) : M A :=
  λ σ,
    match body σ with
    | Raises e σ' =>
        match handler e with
        | Some h => h σ'
        | None => Raises e σ'
        end
    | o => o
    end.

(** [except OSError as e] *)
Definition except_OSError {A} (h : errno → M A) (e : exn) : option (M A) :=
  match e with
  | OSError err => Some (h err)
  | _ => None
  end.

(** [for x in l: body] *)
Fixpoint for_each {A} (l : list A) (body : A → M unit) : M unit :=
  match l with
  | [] => ret ()
  | x :: l' => body x;; for_each l' body
  end.

Definition logger_info (msg : message) : M unit :=
  λ σ, Returns () (State (files σ) (log σ ++ [(INFO, msg)]) (clock σ)).

Definition logger_error (msg : message) : M unit :=
  λ σ, Returns () (State (files σ) (log σ ++ [(ERROR, msg)]) (clock σ)).

(** ** The os and file primitives *)

Definition os_path_exists (p : path) : M bool :=
  λ σ, Returns (bool_decide (is_Some (files σ !! p))) σ.

Definition os_path_isdir (p : path) : M bool :=
  λ σ, Returns (is_dir (files σ !! p)) σ.

Definition os_path_isfile (p : path) : M bool :=
  λ σ, Returns (is_file (files σ !! p)) σ.

Definition os_listdir (p : path) : M (list string) :=
  λ σ,
    match files σ !! p with
    | Some (Dir m) =>
        if readable m then Returns (children (files σ) p) σ
        else Raises (OSError EACCES) σ
    | Some (File _ _ _) => Raises (OSError ENOTDIR) σ
    | None => Raises (OSError ENOENT) σ
    end.

(** May an entry be created or removed directly under [d]? *)
Definition check_parent (fs : filesystem) (d : path) : option errno :=
  match fs !! d with
  | Some (Dir m) => if writable m then None else Some EACCES
  | Some (File _ _ _) => Some ENOTDIR
  | None => Some ENOENT
  end.

Definition os_mkdir (p : path) : M unit :=
  λ σ,
    match files σ !! p with
    | Some _ => Raises (OSError EEXIST) σ
    | None =>
        match check_parent (files σ) (dirname p) with
        | Some err => Raises (OSError err) σ
        | None => Returns () (with_files σ (<[p := Dir rw]> (files σ)))
        end
    end.

Definition os_remove (p : path) : M unit :=
  λ σ,
    match files σ !! p with
    | None => Raises (OSError ENOENT) σ
    | Some (Dir _) => Raises (OSError EISDIR) σ
    | Some (File _ _ _) =>
        match check_parent (files σ) (dirname p) with
        | Some err => Raises (OSError err) σ
        | None => Returns () (with_files σ (delete p (files σ)))
        end
    end.

Definition os_rmdir (p : path) : M unit :=
  λ σ,
    match files σ !! p with
    | None => Raises (OSError ENOENT) σ
    | Some (File _ _ _) => Raises (OSError ENOTDIR) σ
    | Some (Dir _) =>
        match children (files σ) p with
        | _ :: _ => Raises (OSError ENOTEMPTY) σ
        | [] =>
            match check_parent (files σ) (dirname p) with
            | Some err => Raises (OSError err) σ
            | None => Returns () (with_files σ (delete p (files σ)))
            end
        end
    end.

(** An open file: its path and the read position.  Reads and writes go to
    the filesystem as it is when they happen. *)
Record handle := Handle { hpath : path; hpos : nat }.

(** [open(p, 'rb')] *)
Definition open_rb (p : path) : M handle :=
  λ σ,
    match files σ !! p with
    | None => Raises (OSError ENOENT) σ
    | Some (Dir _) => Raises (OSError EISDIR) σ
    | Some (File m _ _) =>
        if readable m then Returns (Handle p 0) σ
        else Raises (OSError EACCES) σ
    end.

(** [open(p, 'wb')]: truncates an existing file, creates a missing one. *)
Definition open_wb (p : path) : M handle :=
  λ σ,
    match files σ !! p with
    | Some (Dir _) => Raises (OSError EISDIR) σ
    | Some (File m _ _) =>
        if writable m
        then Returns (Handle p 0) (with_files σ (<[p := File m [] None]> (files σ)))
        else Raises (OSError EACCES) σ
    | None =>
        match check_parent (files σ) (dirname p) with
        | Some err => Raises (OSError err) σ
        | None => Returns (Handle p 0) (with_files σ (<[p := File rw [] None]> (files σ)))
        end
    end.

(** Does a read of [len] bytes from position [pos] hit the damaged byte? *)
Definition hits_fault (fault : option nat) (pos len : nat) : bool :=
  match fault with
  | Some k => bool_decide (pos ≤ k < pos + len)
  | None => false
  end.

(** What a read from [pos] delivers: at most [n] bytes, or all that is left. *)
Definition read_from (data : list byte) (pos : nat) (n : option nat) : list byte :=
  match n with
  | Some n => take n (drop pos data)
  | None => drop pos data
  end.

Definition file_read_gen (file : handle) (n : option nat) : M (list byte * handle) :=
  λ σ,
    match files σ !! hpath file with
    | Some (File _ data fault) =>
        let chunk := read_from data (hpos file) n in
        if hits_fault fault (hpos file) (length chunk)
        then Raises (OSError EIO) σ
        else Returns (chunk, Handle (hpath file) (hpos file + length chunk)) σ
    | _ => Raises (OSError EIO) σ
    end.

(** [file.read(n)] *)
Definition file_read (file : handle) (n : nat) : M (list byte * handle) :=
  file_read_gen file (Some n).

(** [file.read()] *)
Definition file_read_all (file : handle) : M (list byte) :=
  '(data, _) ← file_read_gen file None; ret data.

(** [file.write(data)] on a file opened with ['wb']. *)
Definition file_write (file : handle) (data : list byte) : M unit :=
  λ σ,
    match files σ !! hpath file with
    | Some (File m old fault) =>
        Returns () (with_files σ (<[hpath file := File m (old ++ data) fault]> (files σ)))
    | _ => Raises (OSError EIO) σ
    end.

(** The size of an open file ([os.fstat]); the model uses it only to bound
    the read loop of [calculate_file_hash]. *)
Definition file_size (file : handle) : M nat :=
  λ σ,
    match files σ !! hpath file with
    | Some (File _ data _) => Returns (length data) σ
    | _ => Returns 0 σ
    end.

(** ** config.py *)

Definition CHUNK_SIZE : nat := 4096.

(** ** main.py *)

(** *** read_commands *)

Record commands := Commands {
  cmd_source : string;
  cmd_replica : string;
  cmd_sync_interval : string;
  cmd_log_file_path : string
}.

(** [\d] on the characters the model has. *)
Definition is_digit (c : ascii) : bool :=
  let n := nat_of_ascii c in bool_decide (48 ≤ n ≤ 57).

Definition is_unit_letter (c : ascii) : bool :=
  bool_decide (c ∈ list_ascii_of_string "smhdSMHD").

(** [re.match(r'^\d+[smhdSMHD]$', s)]: one or more digits, one unit letter,
    then the end of the string ([$] also matches before a final newline). *)
Fixpoint match_digits_then_unit (s : list ascii) (seen_digit : bool) : bool :=
  match s with
  | [] => false
  | c :: rest =>
      if is_digit c then match_digits_then_unit rest true
      else seen_digit && is_unit_letter c
           && bool_decide (rest = [] ∨ rest = ["010"%char])
  end.

Definition sync_interval_pattern (s : string) : bool :=
  match_digits_then_unit (list_ascii_of_string s) false.

(** [s.endswith(suffix)] *)
Definition endswith (s suffix : string) : bool :=
  bool_decide (list_ascii_of_string suffix `suffix_of` list_ascii_of_string s).

Definition read_commands (argv : list string) : M (option commands) :=
  logger_info (Commands_read argv);;
  match argv with
  | [_; source; replica; sync_interval; log_file_path] =>
      if bool_decide (source = replica) then
        logger_error Source_same_as_replica;; ret None
      else if negb (sync_interval_pattern sync_interval) then
        logger_error Invalid_sync_interval;; ret None
      else if negb (endswith log_file_path ".log") then
        logger_error Invalid_logger_extension;; ret None
      else ret (Some (Commands source replica sync_interval log_file_path))
  | _ =>
      logger_error Invalid_number_of_arguments;;
      logger_info Usage;;
      ret None
  end.

(** *** calculate_file_hash *)

(** [while chunk := file.read(CHUNK_SIZE): file_hash.update(chunk)].
    Every round but the last consumes at least one byte, so [rounds] one
    above the file's size is never used up. *)
Fixpoint read_chunks (rounds : nat) (file : handle) (file_hash : MD5.t) : M MD5.t :=
  match rounds with
  | 0 => exhausted
  | S rounds' =>
      '(chunk, file') ← file_read file CHUNK_SIZE;
      match chunk with
      | [] => ret file_hash
      | _ :: _ => read_chunks rounds' file' (MD5.update file_hash chunk)
      end
  end.

(** Returns [Some] digest, or [None] (Python's [None]: the function ends
    without a [return]) when an exception was caught and logged. *)
Definition calculate_file_hash (filepath : path) : M (option string) :=
  try_except
    (file ← open_rb filepath;
     size ← file_size file;
     file_hash ← read_chunks (S size) file MD5.new;
     ret (Some (MD5.hexdigest file_hash)))
    (λ e, Some
       match e with
       | OSError err => logger_error (Failed_to_open_file filepath err);; ret None
       | _ => logger_error (Failed_to_calculate_file_hash e);; ret None
       end).

(** *** delete_item *)

Fixpoint delete_item (depth : nat) (itempath : path) : M unit :=
  match depth with
  | 0 => exhausted
  | S depth' =>
      isfile ← os_path_isfile itempath;
      if isfile then
        try_except
          (os_remove itempath;; logger_info (Deleting_file itempath))
          (except_OSError (λ _, logger_error (Failed_to_delete itempath)))
      else
        items ← os_listdir itempath;
        for_each items (λ item,
          let new_item_path := os_path_join itempath item in
          delete_item depth' new_item_path);;
        try_except
          (os_rmdir itempath;; logger_info (Deleting_folder itempath))
          (except_OSError (λ _, logger_error (Failed_to_delete_folder itempath)))
  end.

(** *** synchronize_folders *)

(** The two nested [with open(...)] blocks: the source file is opened for
    reading, then the replica file for writing, then the bytes go across. *)
Definition copy_file (source_item_path replica_item_path : path) : M unit :=
  source_file ← open_rb source_item_path;
  replica_file ← open_wb replica_item_path;
  data ← file_read_all source_file;
  file_write replica_file data;;
  logger_info (Synchronizing_file replica_item_path).

(** The body of the first loop, for one entry of the source folder;
    [recurse] is the recursive call of [synchronize_folders]. *)
Definition sync_item (recurse : path → path → M bool)
    (source replica : path) (item : string) : M unit :=
  let source_item_path := os_path_join source item in
  let replica_item_path := os_path_join replica item in
  isdir ← os_path_isdir source_item_path;
  if isdir then
    recurse source_item_path replica_item_path;; ret ()
  else
    try_except
      (replica_exists ← os_path_exists replica_item_path;
       skip ←
         (if replica_exists then
            source_hash ← calculate_file_hash source_item_path;
            replica_hash ← calculate_file_hash replica_item_path;
            if bool_decide (source_hash = replica_hash) then
              logger_info (Hash_match item);; ret true
            else ret false
          else ret false);
       if skip then ret ()
       else copy_file source_item_path replica_item_path)
      (except_OSError (λ err,
         logger_error (Failed_to_synchronize source_item_path replica_item_path err))).

(** The body of the second loop, for one entry of the replica folder. *)
Definition sweep_item (depth : nat) (source replica : path) (item : string) : M unit :=
  let replica_item_path := os_path_join replica item in
  let source_item_path := os_path_join source item in
  source_exists ← os_path_exists source_item_path;
  if negb source_exists then delete_item depth replica_item_path
  else ret ().

Fixpoint synchronize_folders (depth : nat) (source replica : path) : M bool :=
  match depth with
  | 0 => exhausted
  | S depth' =>
      source_exists ← os_path_exists source;
      if negb source_exists then
        logger_error Source_folder_does_not_exist;; ret false
      else
        replica_exists ← os_path_exists replica;
        created ←
          (if negb replica_exists then
             try_except
               (os_mkdir replica;;
                logger_info (Synchronizing_folder replica);;
                ret true)
               (except_OSError (λ err,
                  logger_error (Failed_to_create_replica_folder err);;
                  ret false))
           else ret true);
        if negb created then ret false
        else
          source_isdir ← os_path_isdir source;
          if negb source_isdir then
            logger_error Source_is_not_a_folder;; ret false
          else
            replica_isdir ← os_path_isdir replica;
            if negb replica_isdir then
              logger_error Replica_is_not_a_folder;; ret false
            else
              items ← os_listdir source;
              for_each items (sync_item (synchronize_folders depth') source replica);;
              items ← os_listdir replica;
              for_each items (sweep_item depth' source replica);;
              ret true
  end.

(** *** start_sync *)

(** [int(s)] on a string of decimal digits; anything else is a [ValueError]. *)
Definition int (s : string) : M Z :=
  let cs := list_ascii_of_string s in
  if bool_decide (cs ≠ []) && forallb is_digit cs then
    ret (foldl (λ acc c, 10 * acc + Z.of_nat (nat_of_ascii c - 48))%Z 0%Z cs)
  else raise ValueError.

(** [s[-1]] *)
Definition last_char (s : string) : M string :=
  match last (list_ascii_of_string s) with
  | Some c => ret (String c EmptyString)
  | None => raise IndexError
  end.

(** [s[:-1]] *)
Definition but_last (s : string) : string :=
  let cs := list_ascii_of_string s in
  string_of_list_ascii (take (pred (length cs)) cs).

(** [s.lower()] *)
Definition lower_char (c : ascii) : ascii :=
  let n := nat_of_ascii c in
  if bool_decide (65 ≤ n ≤ 90) then ascii_of_nat (n + 32) else c.

Definition lower (s : string) : string :=
  string_of_list_ascii (lower_char <$> list_ascii_of_string s).

(** [d[key]] *)
Definition getitem {A} (d : gmap string A) (key : string) : M A :=
  match d !! key with
  | Some v => ret v
  | None => raise (KeyError key)
  end.

Definition interval_seconds : gmap string Z :=
  list_to_map [("s", 1); ("m", 60); ("h", 3600); ("d", 86400)]%Z.

Definition conversion : gmap string string :=
  list_to_map [("s", "seconds"); ("m", "minutes"); ("h", "hours"); ("d", "days")].

Section Scheduler.

(** What the rest of the system does to the filesystem while the program
    sleeps: [world t d fs] is the filesystem after [d] seconds, from
    filesystem [fs] at time [t]. *)
Variable world : Z → Z → gmap path entry → gmap path entry.

(** [time.sleep] *)
Definition sleep (seconds : Z) : M unit :=
  λ σ, Returns ()
         (State (world (clock σ) seconds (files σ)) (log σ) (clock σ + seconds)%Z).

(** The [while True] loop; [ticks] bounds the passes the model follows,
    [depth] is the recursion budget of each pass. *)
Fixpoint sync_loop (ticks depth : nat) (seconds : Z) (source replica : path) : M unit :=
  match ticks with
  | 0 => exhausted
  | S ticks' =>
      logger_info (Synchronizing_folders source replica);;
      result ← synchronize_folders depth source replica;
      if bool_decide (result = false) then ret ()
      else
        sleep seconds;;
        sync_loop ticks' depth seconds source replica
  end.

Definition start_sync (ticks depth : nat)
    (sync_interval : string) (source replica : path) : M unit :=
  interval ← last_char sync_interval;
  value ← int (but_last sync_interval);
  interval_to_seconds ← getitem interval_seconds (lower interval);
  unit_name ← getitem conversion interval;
  logger_info (Sync_interval_set value unit_name);;
  sync_loop ticks depth (value * interval_to_seconds)%Z source replica.

End Scheduler.

(** * Specification vocabulary *)

(** Two folders are apart when neither lies inside the other. *)
Definition apart (s r : path) : Prop :=
  ¬ s `prefix_of` r ∧ ¬ r `prefix_of` s.

(** [wp c Q E σ]: run from [σ], the computation [c] either returns a value
    and a state that satisfy [Q] or raises an exception and a state that
    satisfy [E]; it does not run out of budget. *)
Definition wp {A} (c : M A) (Q : A → state → Prop)
    (E : exn → state → Prop) (σ : state) : Prop :=
  match c σ with
  | Returns a σ' => Q a σ'
  | Raises e σ' => E e σ'
  | Exhausted => False
  end.

(** The postcondition of a computation that does not raise. *)
Definition no_exn : exn → state → Prop := λ _ _, False.

(** [grows L σ σ']: the log of [σ'] is the log of [σ] followed by new
    records that all satisfy [L]; the clock is unchanged. *)
Definition grows (L : level * message → Prop) (σ σ' : state) : Prop :=
  clock σ' = clock σ ∧ ∃ new, log σ' = log σ ++ new ∧ Forall L new.

(** What hashing the entry at a path comes to: the digest of its bytes, or
    the error that opening or reading it meets. *)
Definition hash_result (o : option entry) : string + errno :=
  match o with
  | None => inr ENOENT
  | Some (Dir _) => inr EISDIR
  | Some (File m data fault) =>
      if readable m then
        if hits_fault fault 0 (length data) then inr EIO
        else inl (MD5.hexdigest data)
      else inr EACCES
  end.

(** The value [calculate_file_hash] hands back, and the record it logs. *)
Definition hash_value (o : option entry) : option string :=
  match hash_result o with
  | inl h => Some h
  | inr _ => None
  end.

Definition hash_errors (p : path) (o : option entry) : list (level * message) :=
  match hash_result o with
  | inl _ => []
  | inr err => [(ERROR, Failed_to_open_file p err)]
  end.

#[global] Arguments hash_result : simpl never.
#[global] Arguments hash_value : simpl never.
#[global] Arguments hash_errors : simpl never.

(** Under [p], every entry's parent is a directory. *)
Definition wf_under (fs : gmap path entry) (p : path) : Prop :=
  ∀ q item, is_Some (fs !! (p ++ q ++ [item])) → is_dir (fs !! (p ++ q)) = true.

(** Every directory at or under [p] can be listed. *)
Definition dirs_listable (fs : gmap path entry) (p : path) : Prop :=
  ∀ q m, fs !! (p ++ q) = Some (Dir m) → readable m = true.

(** Every directory at or under [p] accepts the creation and removal of entries. *)
Definition dirs_writable (fs : gmap path entry) (p : path) : Prop :=
  ∀ q m, fs !! (p ++ q) = Some (Dir m) → writable m = true.

(** Every entry at or under [p] is less than [depth] levels below [p]. *)
Definition shallower (fs : gmap path entry) (p : path) (depth : nat) : Prop :=
  ∀ q, is_Some (fs !! (p ++ q)) → length q < depth.

(** Nothing stands in the way of removing the whole subtree of [p]. *)
Definition deletable (fs : gmap path entry) (p : path) : Prop :=
  check_parent fs (dirname p) = None ∧ dirs_writable fs p ∧ wf_under fs p.

Definition is_delete_record (rec : level * message) : Prop :=
  match rec.2 with
  | Deleting_file _ | Failed_to_delete _
  | Deleting_folder _ | Failed_to_delete_folder _ => True
  | _ => False
  end.

(** The record [delete_item] logs when it removes the entry at [q]. *)
Definition removal (fs : gmap path entry) (q : path) : level * message :=
  (INFO, if is_file (fs !! q) then Deleting_file q else Deleting_folder q).

Definition is_removal_under (fs : gmap path entry) (p : path)
    (rec : level * message) : Prop :=
  ∃ q, p `prefix_of` q ∧ is_Some (fs !! q) ∧ rec = removal fs q.

(** What [delete_item] on [p] may log; on a deletable subtree, removals only. *)
Definition removal_record (fs : gmap path entry) (p : path)
    (rec : level * message) : Prop :=
  is_delete_record rec ∧ (deletable fs p → is_removal_under fs p rec).

(** The records [new] remove the subtree of [p] from the bottom up: the
    removal of [p] comes last, every entry of the subtree has its removal,
    and the removal of an entry comes after the removal of each entry below
    it. *)
Definition ordered (fs : gmap path entry) (p : path)
    (new : list (level * message)) : Prop :=
  last new = Some (removal fs p) ∧
  (∀ q, p `prefix_of` q → is_Some (fs !! q) → removal fs q ∈ new) ∧
  (∀ q q', p `prefix_of` q → q `prefix_of` q' → q ≠ q' → is_Some (fs !! q') →
           ∃ l1 l2, new = l1 ++ removal fs q' :: l2 ∧ removal fs q ∈ l2).

Definition bottom_up (fs : gmap path entry) (p : path)
    (new : list (level * message)) : Prop :=
  Forall (is_removal_under fs p) new ∧ ordered fs p new.

(** *** Loops over a directory listing

    The body run for entry [item] of the folder [base] works inside the
    subtree of [base ++ [item]]: it may rely on that subtree and on the paths
    of [keep], which no body changes, and it changes nothing else.  [fs] is
    the filesystem when the loop starts. *)

Definition item_pre (base : path) (fs : gmap path entry) (keep : path → Prop)
    (item : string) (σ : state) : Prop :=
  ∀ p, (base ++ [item]) `prefix_of` p ∨ keep p → files σ !! p = fs !! p.

Definition item_post (base : path) (Φ : string → path → option entry → Prop)
    (L : level * message → Prop) (item : string) (σ σ' : state) : Prop :=
  (∀ p, ¬ (base ++ [item]) `prefix_of` p → files σ' !! p = files σ !! p) ∧
  (∀ p, (base ++ [item]) `prefix_of` p → Φ item p (files σ' !! p)) ∧
  grows L σ σ'.

(** In a loop from [σ] to [σ'], the body of [item] ran from a state that
    agreed with the initial filesystem on what it relies on; what it left
    in its subtree is what the loop leaves there, and what it logged is part
    of what the loop logged. *)
Definition item_ran (base : path) (body : string → M unit) (fs : gmap path entry)
    (keep : path → Prop) (item : string) (σ σ' : state) : Prop :=
  ∃ σa σb new,
    item_pre base fs keep item σa ∧
    body item σa = Returns () σb ∧
    (∀ p, (base ++ [item]) `prefix_of` p → files σ' !! p = files σb !! p) ∧
    log σb = log σa ++ new ∧
    ∃ before after, log σ' = log σ ++ before ++ new ++ after.

Definition loop_post (base : path) (body : string → M unit) (fs : gmap path entry)
    (keep : path → Prop) (Φ : string → path → option entry → Prop)
    (L : level * message → Prop) (items : list string) (σ σ' : state) : Prop :=
  (∀ p, (∀ item, item ∈ items → ¬ (base ++ [item]) `prefix_of` p) →
        files σ' !! p = files σ !! p) ∧
  (∀ item p, item ∈ items → (base ++ [item]) `prefix_of` p →
        Φ item p (files σ' !! p)) ∧
  grows L σ σ' ∧
  (∀ item, item ∈ items → item_ran base body fs keep item σ σ').

(** *** Copying one file *)

Definition is_inl {A B} (x : A + B) : bool :=
  match x with inl _ => true | inr _ => false end.

Definition file_data (o : option entry) : list byte :=
  match o with Some (File _ data _) => data | _ => [] end.

(** The mode of the replica file after a copy: the mode it had, or that of
    a new file. *)
Definition target_mode (o : option entry) : mode :=
  match o with Some (File m _ _) => m | _ => rw end.

(** The source entry can be opened and read to the end. *)
Definition source_ok (src : option entry) : bool := is_inl (hash_result src).

(** The replica entry can be opened for writing; [parent] is the verdict of
    [check_parent] on the folder that holds it. *)
Definition target_ok (old : option entry) (parent : option errno) : bool :=
  match old with
  | None => bool_decide (parent = None)
  | Some (File m _ _) => writable m
  | Some (Dir _) => false
  end.

(** The comparison of [synchronize_folders] decides to leave the file as it
    is: the replica entry exists and the two hash values are equal. *)
Definition skips (src old : option entry) : bool :=
  bool_decide (is_Some old) && bool_decide (hash_value src = hash_value old).

(** The pass gets the source file's bytes into the replica entry: the
    source can be read, and either the comparison skips a replica file that
    has the same bytes, or the replica entry can be written. *)
Definition file_ok (src old : option entry) (parent : option errno) : bool :=
  source_ok src &&
  (if skips src old then bool_decide (file_data old = file_data src)
   else target_ok old parent).

(** Handling the file met no I/O error at all. *)
Definition clean (src old : option entry) (parent : option errno) : bool :=
  source_ok src &&
  match old with
  | None => target_ok old parent
  | Some _ => is_inl (hash_result old) && (skips src old || target_ok old parent)
  end.

Definition is_error_about (sp rp : path) (rec : level * message) : Prop :=
  (∃ err, rec = (ERROR, Failed_to_open_file sp err)) ∨
  (∃ err, rec = (ERROR, Failed_to_open_file rp err)) ∨
  (∃ err, rec = (ERROR, Failed_to_synchronize sp rp err)).

(** What the body of the first loop logs for a file neither side of which
    can be opened: the two failures of [calculate_file_hash], then the
    match. *)
Definition match_records (s r : path) (item : string) (e1 e2 : errno)
  : list (level * message) :=
  [ (ERROR, Failed_to_open_file (s ++ [item]) e1);
    (ERROR, Failed_to_open_file (r ++ [item]) e2);
    (INFO, Hash_match item) ].

(** *** A pass *)

(** The four checks at the entry of [synchronize_folders] succeed: the
    source is a directory, and the replica is one or can be created. *)
Definition root_ok (fs : gmap path entry) (s r : path) : bool :=
  is_dir (fs !! s) &&
  (is_dir (fs !! r) ||
   bool_decide (fs !! r = None) &&
   bool_decide (check_parent fs (dirname r) = None)).

(** The state in which the two loops start: the replica folder has been
    created if it was missing. *)
Definition after_checks (r : path) (σ : state) : state :=
  if is_dir (files σ !! r) then σ
  else State (<[r := Dir rw]> (files σ))
             (log σ ++ [(INFO, Synchronizing_folder r)]) (clock σ).

(** The two loops of [synchronize_folders]. *)
Definition sync_loops (depth : nat) (source replica : path) : M bool :=
  items ← os_listdir source;
  for_each items (sync_item (synchronize_folders depth) source replica);;
  items ← os_listdir replica;
  for_each items (sweep_item depth source replica);;
  ret true.

(** What a pass may do to one entry of the replica, whatever fails: an
    entry only appears where the replica or the source had one, and a
    directory is either new or as it was. *)
Definition effect_ok (src old new : option entry) : Prop :=
  (is_Some new → is_Some old ∨ is_Some src) ∧
  (∀ m, new = Some (Dir m) → m = rw ∨ old = Some (Dir m)).

(** The replica entry [new] mirrors the source entry [src]; [old] is the
    replica entry before the pass.  A file is mirrored when [file_ok] holds
    of it: it was skipped as equal, or it was written anew. *)
Definition mirrored (src old new : option entry) : Prop :=
  match src with
  | None => new = None
  | Some (Dir _) => is_dir new = true
  | Some (File _ _ _) =>
      is_dir new = false ∧
      (file_ok src old None = true →
         skips src old = true ∧ new = old ∨
         new = Some (File (target_mode old) (file_data src) None))
  end.

(** No path is a directory on one side and a file on the other. *)
Definition kinds_agree (fs : gmap path entry) (s r : path) : Prop :=
  ∀ q, (is_dir (fs !! (s ++ q)) = true → is_file (fs !! (r ++ q)) = false) ∧
       (is_file (fs !! (s ++ q)) = true → is_dir (fs !! (r ++ q)) = false).

(** The two trees are well formed, their kinds agree, the replica's
    directories accept changes, and the checks at the root succeed. *)
Definition structure_ok (fs : gmap path entry) (s r : path) : Prop :=
  wf_under fs s ∧ wf_under fs r ∧ dirs_writable fs r ∧ kinds_agree fs s r ∧
  root_ok fs s r = true.

(** During the pass from [σ] to [σ'] the first loop handled the entry
    [item] of the source folder: it ran from a state that agreed with the
    initial filesystem on the source tree and on the entry's replica subtree,
    what it left in that subtree is what the pass leaves there, and what it
    logged is part of what the pass logged. *)
Definition top_item_ran (depth : nat) (s r : path) (item : string)
    (σ σ' : state) : Prop :=
  ∃ σa σb new,
    (∀ p, s `prefix_of` p ∨ (r ++ [item]) `prefix_of` p →
          files σa !! p = files σ !! p) ∧
    files σa !! r = files σ' !! r ∧
    sync_item (synchronize_folders (pred depth)) s r item σa = Returns () σb ∧
    (∀ p, (r ++ [item]) `prefix_of` p → files σ' !! p = files σb !! p) ∧
    log σb = log σa ++ new ∧
    ∃ before after, log σ' = log σ ++ before ++ new ++ after.

(** The pass from [σ] to [σ'] removed the subtree of [p], which the
    filesystem [fs] held, from the bottom up: its log has the removals in
    one piece, and for a file that piece is the one record of its removal. *)
Definition orphan_removed (fs : gmap path entry) (p : path) (σ σ' : state) : Prop :=
  ∃ before new after,
    log σ' = log σ ++ before ++ new ++ after ∧
    bottom_up fs p new ∧
    (is_file (fs !! p) = true → new = [(INFO, Deleting_file p)]).

Definition sync_post (depth : nat) (s r : path) (σ : state)
    (b : bool) (σ' : state) : Prop :=
  b = root_ok (files σ) s r ∧
  (∀ p, ¬ r `prefix_of` p → files σ' !! p = files σ !! p) ∧
  (b = true → files σ' !! r = files (after_checks r σ) !! r) ∧
  (∀ q, effect_ok (files σ !! (s ++ q)) (files σ !! (r ++ q))
                  (files σ' !! (r ++ q))) ∧
  grows (λ _, True) σ σ' ∧
  (b = true → ∀ item, is_Some (files σ !! (s ++ [item])) →
                      top_item_ran depth s r item σ σ') ∧
  (structure_ok (files σ) s r →
     ∀ q item, is_dir (files σ !! (s ++ q)) = true →
               files σ !! (s ++ q ++ [item]) = None →
               is_Some (files σ !! (r ++ q ++ [item])) →
               orphan_removed (files σ) (r ++ q ++ [item]) σ σ') ∧
  (structure_ok (files σ) s r →
     ∀ q, mirrored (files σ !! (s ++ q)) (files σ !! (r ++ q))
                   (files σ' !! (r ++ q))).

(** What the first loop leaves at [p], a path under the replica entry
    [item], when the pass started from the filesystem [fs]. *)
Definition forward_post (fs : gmap path entry) (s r : path)
    (item : string) (p : path) (new : option entry) : Prop :=
  ∀ q, p = r ++ item :: q →
    effect_ok (fs !! (s ++ item :: q)) (fs !! (r ++ item :: q)) new ∧
    (structure_ok fs s r →
       mirrored (fs !! (s ++ item :: q)) (fs !! (r ++ item :: q)) new).

(** What the second loop leaves at [p], a path under the replica entry
    [item]; [fs2] is the filesystem between the two loops. *)
Definition sweep_post (fs fs2 : gmap path entry) (s r : path)
    (item : string) (p : path) (new : option entry) : Prop :=
  (new = fs2 !! p ∨ new = None) ∧
  (is_Some (fs !! (s ++ [item])) → new = fs2 !! p) ∧
  (structure_ok fs s r → fs !! (s ++ [item]) = None → new = None).

(** The paths the bodies of the two loops rely on besides their own
    subtree: the source tree and the replica folder itself. *)
Definition pass_keep (s r : path) (p : path) : Prop :=
  s `prefix_of` p ∨ p = r.

(** *** A pass over a replica that is already in sync *)

(** The replica entry [new] is in sync with the source entry [src]: both
    are missing; or both are directories that can be listed; or both are
    files whose hashes can be computed and are equal. *)
Definition in_sync (src new : option entry) : Prop :=
  match src with
  | None => new = None
  | Some (Dir m) =>
      readable m = true ∧ ∃ m', new = Some (Dir m') ∧ readable m' = true
  | Some (File _ _ _) =>
      source_ok src = true ∧ is_file new = true ∧
      hash_result new = hash_result src
  end.

Definition settled (fs : gmap path entry) (s r : path) : Prop :=
  ∀ q, in_sync (fs !! (s ++ q)) (fs !! (r ++ q)).

Definition is_hash_match (rec : level * message) : Prop :=
  ∃ item, rec = (INFO, Hash_match item).

(** What a pass over a settled replica does: nothing to the filesystem, and
    it logs one hash match per file of the source and nothing else. *)
Definition settled_post (s : path) (σ : state) (b : bool) (σ' : state) : Prop :=
  b = true ∧ files σ' = files σ ∧ clock σ' = clock σ ∧
  ∃ new, log σ' = log σ ++ new ∧ Forall is_hash_match new ∧
         ∀ q item, is_file (files σ !! (s ++ q ++ [item])) = true →
                   (INFO, Hash_match item) ∈ new.

(** *** Conditions on a filesystem, and their checks

    The conditions below quantify over every path under a folder; each has
    a boolean check that runs over the entries of the filesystem. *)

(** [P q e] holds of every entry [e] at a path [p ++ q]. *)
Definition under_all (fs : gmap path entry) (p : path)
    (P : path → entry → bool) : bool :=
  forallb (λ ke, match strip_prefix p ke.1 with
                 | Some q => P q ke.2
                 | None => true
                 end) (map_to_list fs).

(** The pass can run to its end: source and replica are apart, every
    directory under them can be listed, and the recursion budget exceeds the
    height of both trees. *)
Definition runnable (fs : gmap path entry) (s r : path) (depth : nat) : Prop :=
  apart s r ∧ 0 < depth ∧
  dirs_listable fs s ∧ dirs_listable fs r ∧
  shallower fs s depth ∧ shallower fs r depth.

Definition listable_entry (e : entry) : bool :=
  match e with Dir m => readable m | File _ _ _ => true end.

Definition writable_dir_entry (e : entry) : bool :=
  match e with Dir m => writable m | File _ _ _ => true end.

Definition readable_file_entry (e : entry) : bool :=
  match e with File m _ _ => readable m | Dir _ => true end.

Definition check_runnable (fs : gmap path entry) (s r : path) (depth : nat) : bool :=
  bool_decide (¬ s `prefix_of` r) && bool_decide (¬ r `prefix_of` s) &&
  bool_decide (0 < depth) &&
  under_all fs s (λ _ e, listable_entry e) &&
  under_all fs r (λ _ e, listable_entry e) &&
  under_all fs s (λ q _, bool_decide (length q < depth)) &&
  under_all fs r (λ q _, bool_decide (length q < depth)).

Definition check_wf_under (fs : gmap path entry) (p : path) : bool :=
  under_all fs p (λ q _, match q with
                         | [] => true
                         | _ :: _ => is_dir (fs !! (p ++ dirname q))
                         end).

Definition check_kinds_agree (fs : gmap path entry) (s r : path) : bool :=
  under_all fs s (λ q e, match e with
                         | Dir _ => negb (is_file (fs !! (r ++ q)))
                         | File _ _ _ => negb (is_dir (fs !! (r ++ q)))
                         end).

Definition check_structure (fs : gmap path entry) (s r : path) : bool :=
  check_wf_under fs s && check_wf_under fs r &&
  under_all fs r (λ _ e, writable_dir_entry e) &&
  check_kinds_agree fs s r && root_ok fs s r.

(** Every file of the source can be mirrored: see [file_ok]. *)
Definition files_ok (fs : gmap path entry) (s r : path) : Prop :=
  ∀ q, is_file (fs !! (s ++ q)) = true →
       file_ok (fs !! (s ++ q)) (fs !! (r ++ q)) None = true.

Definition check_files_ok (fs : gmap path entry) (s r : path) : bool :=
  under_all fs s (λ q e, match e with
                         | File _ _ _ => file_ok (Some e) (fs !! (r ++ q)) None
                         | Dir _ => true
                         end).

(** The replica can be made a mirror of the source. *)
Definition mirrorable (fs : gmap path entry) (s r : path) : Prop :=
  structure_ok fs s r ∧ files_ok fs s r.

Definition check_mirrorable (fs : gmap path entry) (s r : path) : bool :=
  check_structure fs s r && check_files_ok fs s r.

(** Every file under [p] can be opened for reading. *)
Definition files_readable (fs : gmap path entry) (p : path) : Prop :=
  ∀ q m data fault, fs !! (p ++ q) = Some (File m data fault) → readable m = true.

Definition check_files_readable (fs : gmap path entry) (p : path) : bool :=
  under_all fs p (λ _ e, readable_file_entry e).

(** Every entry of the source folder but [bad] is a file that can be
    mirrored; [parent] is the verdict of [check_parent] on the replica
    folder. *)
Definition siblings_ok (fs : gmap path entry) (s r : path) (bad : string)
    (parent : option errno) : Prop :=
  ∀ item, item ≠ bad → is_Some (fs !! (s ++ [item])) →
    is_file (fs !! (s ++ [item])) = true ∧
    file_ok (fs !! (s ++ [item])) (fs !! (r ++ [item])) parent = true.

Definition check_siblings_ok (fs : gmap path entry) (s r : path) (bad : string)
    (parent : option errno) : bool :=
  forallb (λ item,
             bool_decide (item = bad) ||
             is_file (fs !! (s ++ [item])) &&
             file_ok (fs !! (s ++ [item])) (fs !! (r ++ [item])) parent)
          (children fs s).

(** Two entries are the same for a mirror: both missing, both directories,
    or both files with the same bytes. *)
Definition same_entry (src new : option entry) : Prop :=
  match src, new with
  | None, None => True
  | Some (Dir _), Some (Dir _) => True
  | Some (File _ data _), Some (File _ data' _) => data = data'
  | _, _ => False
  end.

(** *** The scheduler *)

(** The state in which a pass starts: the loop has logged the tick. *)
Definition tick_started (s r : path) (σ : state) : state :=
  State (files σ) (log σ ++ [(INFO, Synchronizing_folders s r)]) (clock σ).

(** [passes world depth seconds s r n σ σ']: from [σ] the loop makes [n]
    passes that return true, sleeping after each, and is in [σ'] when the
    next one is due. *)
Inductive passes (world : Z → Z → gmap path entry → gmap path entry)
    (depth : nat) (seconds : Z) (s r : path) : nat → state → state → Prop :=
| passes_O σ : passes world depth seconds s r 0 σ σ
| passes_S n σ σ1 σ2 σ' :
    synchronize_folders depth s r (tick_started s r σ) = Returns true σ1 →
    sleep world seconds σ1 = Returns () σ2 →
    passes world depth seconds s r n σ2 σ' →
    passes world depth seconds s r (S n) σ σ'.

(** The interval string resolves to [value] units of [secs] seconds each. *)
Definition interval_resolves (sync_interval : string) (value secs : Z)
    (name : string) : Prop :=
  ∃ u, (∀ σ, last_char sync_interval σ = Returns u σ) ∧
       (∀ σ, int (but_last sync_interval) σ = Returns value σ) ∧
       interval_seconds !! lower u = Some secs ∧
       conversion !! u = Some name.

(** *** Interval strings *)

Definition upper_units : list ascii := ["S"; "M"; "H"; "D"]%char.

(** An interval string: its digits, then its unit letter. *)
Definition interval_string (digits : list ascii) (u : ascii) : string :=
  string_of_list_ascii (digits ++ [u]).

(** *** Example filesystems *)

Definition bytes_of_string (s : string) : list byte :=
  (λ c, match Byte.of_N (N_of_ascii c) with Some b => b | None => x00 end)
    <$> list_ascii_of_string s.

Definition plain_file (content : string) : entry :=
  File rw (bytes_of_string content) None.

Definition md5 (s : string) : string :=
  MD5.hexdigest (MD5.update MD5.new (bytes_of_string s)).

(** The end-to-end scenario of the specification:
    source [{a.txt: "hi", sub/b.txt: "bye"}],
    replica [{a.txt: "old", c.txt: "stale"}]. *)
Definition scenario_fs : gmap path entry :=
  list_to_map
    [ ([], Dir rw);
      (["src"], Dir rw);
      (["src"; "a.txt"], plain_file "hi");
      (["src"; "sub"], Dir rw);
      (["src"; "sub"; "b.txt"], plain_file "bye");
      (["rep"], Dir rw);
      (["rep"; "a.txt"], plain_file "old");
      (["rep"; "c.txt"], plain_file "stale") ].

(** A file in the source where the replica has a directory. *)
Definition mismatch_fs : gmap path entry :=
  list_to_map
    [ ([], Dir rw);
      (["src"], Dir rw);
      (["src"; "x"], plain_file "hi");
      (["rep"], Dir rw);
      (["rep"; "x"], Dir rw);
      (["rep"; "x"; "y"], plain_file "stale") ].

Definition initial (fs : gmap path entry) : state := State fs [] 0.

(** A source folder that cannot be listed. *)
Definition unlistable_fs : gmap path entry :=
  list_to_map
    [ ([], Dir rw);
      (["src"], Dir (Mode false true));
      (["src"; "a.txt"], plain_file "hi");
      (["rep"], Dir rw) ].

(** The source path is a file and there is no replica. *)
Definition file_source_fs : gmap path entry :=
  list_to_map
    [ ([], Dir rw);
      (["src"], plain_file "hi") ].

(** A pass full of failures below the root: a subfolder whose replica
    counterpart is a file, a file that cannot be read, and a replica file
    that cannot be written. *)
Definition troubled_fs : gmap path entry :=
  list_to_map
    [ ([], Dir rw);
      (["src"], Dir rw);
      (["src"; "sub"], Dir rw);
      (["src"; "sub"; "b.txt"], plain_file "bye");
      (["src"; "secret"], File (Mode false true) (bytes_of_string "s3") None);
      (["src"; "a.txt"], plain_file "hi");
      (["rep"], Dir rw);
      (["rep"; "sub"], plain_file "in the way");
      (["rep"; "a.txt"], File (Mode true false) (bytes_of_string "old") None) ].

(** A file of two chunks whose device fails in the second chunk, and a
    file that cannot be opened. *)
Definition damaged_fs : gmap path entry :=
  list_to_map
    [ ([], Dir rw);
      (["big"], File rw (replicate 4200 "x"%byte) (Some 4100));
      (["locked"], File (Mode false true) (bytes_of_string "hi") None);
      (["ok"], plain_file "hi") ].

(** Three sibling files, of which [b.txt] cannot be read; and a pair of
    files that can be opened on neither side. *)
Definition siblings_fs : gmap path entry :=
  list_to_map
    [ ([], Dir rw);
      (["src"], Dir rw);
      (["src"; "a.txt"], plain_file "hi");
      (["src"; "b.txt"], File (Mode false true) (bytes_of_string "bye") None);
      (["src"; "c.txt"], plain_file "sea");
      (["rep"], Dir rw);
      (["rep"; "a.txt"], plain_file "old") ].

Definition both_locked_fs : gmap path entry :=
  list_to_map
    [ ([], Dir rw);
      (["src"], Dir rw);
      (["src"; "a.txt"], plain_file "hi");
      (["src"; "k"], File (Mode false true) (bytes_of_string "new") None);
      (["rep"], Dir rw);
      (["rep"; "a.txt"], plain_file "hi");
      (["rep"; "k"], File (Mode false true) (bytes_of_string "old") None) ].

(** A replica file that can be written and cannot be read. *)
Definition write_only_fs : gmap path entry :=
  list_to_map
    [ ([], Dir rw);
      (["src"], Dir rw);
      (["src"; "x"], plain_file "hi");
      (["rep"], Dir rw);
      (["rep"; "x"], File (Mode false true) (bytes_of_string "old") None) ].

(** [write_only_fs] after a pass, and what each pass over it logs. *)
Definition write_only_mirror : gmap path entry :=
  <[["rep"; "x"] := File (Mode false true) (bytes_of_string "hi") None]> write_only_fs.

Definition write_only_records : list (level * message) :=
  [ (ERROR, Failed_to_open_file ["rep"; "x"] EACCES);
    (INFO, Synchronizing_file ["rep"; "x"]) ].

(** Orphans in the replica: a folder of two levels, and a file inside a
    folder that the source also has. *)
Definition nested_orphan_fs : gmap path entry :=
  list_to_map
    [ ([], Dir rw);
      (["src"], Dir rw);
      (["src"; "sub"], Dir rw);
      (["rep"], Dir rw);
      (["rep"; "sub"], Dir rw);
      (["rep"; "sub"; "stale"], plain_file "0");
      (["rep"; "old"], Dir rw);
      (["rep"; "old"; "deep"], Dir rw);
      (["rep"; "old"; "deep"; "f"], plain_file "1");
      (["rep"; "old"; "g"], plain_file "2") ].

(** A filesystem of two empty folders, and a world that removes the source
    folder while the program sleeps. *)
Definition empty_pair_fs : gmap path entry :=
  list_to_map [ ([], Dir rw); (["src"], Dir rw); (["rep"], Dir rw) ].

Definition source_vanishes (t d : Z) (fs : gmap path entry) : gmap path entry :=
  delete ["src"] fs.

(** *** Command-line arguments and interval strings *)

Definition newline : ascii := "010"%char.

(** What the pattern of [read_commands] accepts: one or more digits, one
    unit letter of either case, and possibly a final newline. *)
Definition interval_shape (cs : list ascii) : Prop :=
  ∃ digits u,
    digits ≠ [] ∧ forallb is_digit digits = true ∧ is_unit_letter u = true ∧
    (cs = digits ++ [u] ∨ cs = digits ++ [u; newline]).

(** The number a string of decimal digits denotes. *)
Definition digit_value (c : ascii) : Z := Z.of_nat (nat_of_ascii c - 48).

Fixpoint decimal_rev (rev_digits : list ascii) : Z :=
  match rev_digits with
  | [] => 0
  | c :: rest => 10 * decimal_rev rest + digit_value c
  end.

Definition decimal (digits : list ascii) : Z := decimal_rev (rev digits).

Definition lower_units : list ascii := ["s"; "m"; "h"; "d"]%char.

(** The seconds in the unit a lowercase letter names, and the unit's name. *)
Definition unit_seconds (u : ascii) : Z :=
  if Ascii.eqb u "s" then 1
  else if Ascii.eqb u "m" then 60
  else if Ascii.eqb u "h" then 3600
  else 86400.

Definition unit_name (u : ascii) : string :=
  if Ascii.eqb u "s" then "seconds"
  else if Ascii.eqb u "m" then "minutes"
  else if Ascii.eqb u "h" then "hours"
  else "days".

(** The longest string of digits that [int] converts (the limit the
    interpreter sets on integer strings). *)
Definition int_max_str_digits : nat := 4300.

(** *** delete_item when removals fail *)

(** The paths the body of the loop of [delete_item] relies on besides its
    own subtree: the folder being deleted and the folder that holds it. *)
Definition delete_keep (p : path) (q : path) : Prop := q = p ∨ q = dirname p.

(** The file at [q] cannot be removed: the folder that holds it does not
    accept removals. *)
Definition protected (fs : gmap path entry) (q : path) : Prop :=
  is_file (fs !! q) = true ∧ is_Some (check_parent fs (dirname q)).

(** A folder with a file [keep/f] in a subfolder that does not accept
    removals, and a file [g] that can be removed. *)
Definition guarded_fs : gmap path entry :=
  list_to_map
    [ ([], Dir rw);
      (["old"], Dir rw);
      (["old"; "g"], plain_file "2");
      (["old"; "keep"], Dir (Mode true false));
      (["old"; "keep"; "f"], plain_file "1") ].

(** *** More about a pass *)

(** What the body of the first loop logs when the read of the source file
    fails: the failure of [calculate_file_hash], then the failed copy. *)
Definition failed_copy_records (s r : path) (item : string)
  : list (level * message) :=
  [ (ERROR, Failed_to_open_file (s ++ [item]) EIO);
    (ERROR, Failed_to_synchronize (s ++ [item]) (r ++ [item]) EIO) ].

(** The check of [in_sync] and of [settled]. *)
Definition in_sync_b (src new : option entry) : bool :=
  match src with
  | None => bool_decide (new = None)
  | Some (Dir m) =>
      readable m && match new with Some (Dir m') => readable m' | _ => false end
  | Some (File _ _ _) =>
      source_ok src && is_file new && bool_decide (hash_result new = hash_result src)
  end.

Definition check_settled (fs : gmap path entry) (s r : path) : bool :=
  under_all fs s (λ q e, in_sync_b (Some e) (fs !! (r ++ q))) &&
  under_all fs r (λ q _, bool_decide (is_Some (fs !! (s ++ q)))).

(** A replica that mirrors its source. *)
Definition mirror_fs : gmap path entry :=
  list_to_map
    [ ([], Dir rw);
      (["src"], Dir rw);
      (["src"; "a.txt"], plain_file "hi");
      (["src"; "sub"], Dir rw);
      (["src"; "sub"; "b.txt"], plain_file "bye");
      (["rep"], Dir rw);
      (["rep"; "a.txt"], plain_file "hi");
      (["rep"; "sub"], Dir rw);
      (["rep"; "sub"; "b.txt"], plain_file "bye") ].

(** A source file whose device fails at its second byte, and an older copy
    of it in the replica. *)
Definition faulty_source_fs : gmap path entry :=
  list_to_map
    [ ([], Dir rw);
      (["src"], Dir rw);
      (["src"; "data"], File rw (bytes_of_string "new content") (Some 1));
      (["rep"], Dir rw);
      (["rep"; "data"], plain_file "old content") ].

(** A source with an empty folder and a file that cannot be read, and an
    empty replica. *)
Definition empty_folder_fs : gmap path entry :=
  list_to_map
    [ ([], Dir rw);
      (["src"], Dir rw);
      (["src"; "empty"], Dir rw);
      (["src"; "secret"], File (Mode false true) (bytes_of_string "s3") None);
      (["rep"], Dir rw) ].

(** A source whose only entry is a folder that cannot be listed. *)
Definition unlistable_sub_fs : gmap path entry :=
  list_to_map
    [ ([], Dir rw);
      (["src"], Dir rw);
      (["src"; "inner"], Dir (Mode false true));
      (["rep"], Dir rw);
      (["rep"; "inner"], Dir rw) ].

(** * Properties *)

(** ** Paths and directory listings *)

Section Paths.

Implicit Types p q k : path.
Implicit Types fs : gmap path entry.

Lemma dirname_join p item : dirname (os_path_join p item) = p.
Proof.
  unfold dirname, os_path_join. rewrite length_app. simpl.
  replace (pred (length p + 1)) with (length p) by lia.
  by rewrite take_app_length.
Qed.

Lemma dirname_not_under p item : ¬ (p ++ [item]) `prefix_of` dirname p.
Proof.
  intros Hpre%prefix_length. unfold dirname in Hpre.
  rewrite length_take, length_app in Hpre. simpl in Hpre. lia.
Qed.

Lemma strip_prefix_app p k : strip_prefix p (p ++ k) = Some k.
Proof.
  induction p as [|a p IH]; simpl; [done|].
  by rewrite decide_True.
Qed.

Lemma strip_prefix_Some p q k : strip_prefix p q = Some k → q = p ++ k.
Proof.
  revert q. induction p as [|a p IH]; intros [|b q]; simpl; try congruence.
  case_decide; [|done]. intros ?%IH. by subst.
Qed.

Lemma strip_prefix_None p q : strip_prefix p q = None → ¬ p `prefix_of` q.
Proof.
  intros Hnone [k ->]. by rewrite strip_prefix_app in Hnone.
Qed.

Lemma child_of_Some p q item : child_of p q = Some item ↔ q = p ++ [item].
Proof.
  unfold child_of. split.
  - destruct (strip_prefix p q) as [[|x [|??]]|] eqn:E; try done.
    intros [= ->]. by apply strip_prefix_Some.
  - intros ->. by rewrite strip_prefix_app.
Qed.

Lemma elem_of_children fs p item :
  item ∈ children fs p ↔ is_Some (fs !! (p ++ [item])).
Proof.
  unfold children. rewrite list_elem_of_omap. split.
  - intros (q & Hq & Hc). apply child_of_Some in Hc as ->.
    apply list_elem_of_fmap in Hq as ([q e] & -> & He).
    apply elem_of_map_to_list in He. by exists e.
  - intros [e He]. exists (p ++ [item]). split; [|by apply child_of_Some].
    apply list_elem_of_fmap. exists (p ++ [item], e). split; [done|].
    by apply elem_of_map_to_list.
Qed.

Lemma NoDup_omap_inj {A B} (f : A → option B) (l : list A) :
  (∀ x y z, f x = Some z → f y = Some z → x = y) →
  NoDup l → NoDup (omap f l).
Proof.
  intros Hinj. induction 1 as [|x l Hx Hl IH]; simpl; [constructor|].
  destruct (f x) as [z|] eqn:E; [|done].
  constructor; [|done].
  rewrite list_elem_of_omap. intros (y & Hy & Hfy).
  by rewrite (Hinj _ _ _ E Hfy) in Hx.
Qed.

Lemma NoDup_children fs p : NoDup (children fs p).
Proof.
  apply NoDup_omap_inj; [|apply NoDup_fst_map_to_list].
  intros x y z ->%child_of_Some ->%child_of_Some. done.
Qed.

Lemma children_nil fs p :
  children fs p = [] ↔ ∀ item, fs !! (p ++ [item]) = None.
Proof.
  split.
  - intros Hnil item. apply eq_None_not_Some. rewrite <-elem_of_children, Hnil.
    apply not_elem_of_nil.
  - intros Hnone. destruct (children fs p) as [|item l] eqn:E; [done|].
    assert (item ∈ children fs p) as Hin by (rewrite E; left).
    apply elem_of_children in Hin as [e He]. by rewrite Hnone in He.
Qed.

Lemma check_parent_ext fs fs' p :
  fs !! p = fs' !! p → check_parent fs p = check_parent fs' p.
Proof. unfold check_parent. by intros ->. Qed.

Lemma apart_sym s r : apart s r → apart r s.
Proof. intros [??]. by split. Qed.

Lemma apart_ne s r : apart s r → s ≠ r.
Proof. intros [Hsr _] ->. by apply Hsr. Qed.

Lemma apart_not_under s r p : apart s r → s `prefix_of` p → ¬ r `prefix_of` p.
Proof.
  intros [Hsr Hrs] Hs Hr.
  destruct (prefix_weak_total _ _ _ Hs Hr); tauto.
Qed.

Lemma apart_app_ne s r q q' : apart s r → s ++ q ≠ r ++ q'.
Proof.
  intros Ha Heq. apply (apart_not_under s r (s ++ q) Ha).
  - by exists q.
  - rewrite Heq. by exists q'.
Qed.

Lemma apart_join s r item item' :
  apart s r → apart (s ++ [item]) (r ++ [item']).
Proof.
  intros Ha. split; intros [k Hk].
  - rewrite <-(assoc_L (++)) in Hk. symmetry in Hk. by apply apart_app_ne in Hk.
  - rewrite <-(assoc_L (++)) in Hk. by apply apart_app_ne in Hk.
Qed.

Lemma prefix_join_ne p item item' q :
  item ≠ item' → (p ++ [item]) `prefix_of` q → ¬ (p ++ [item']) `prefix_of` q.
Proof.
  intros Hne [k ->] [k' Hk]. rewrite <-!(assoc_L (++)) in Hk.
  apply app_inv_head in Hk. simpl in Hk. congruence.
Qed.

Lemma prefix_join_under p item q :
  (p ++ [item]) `prefix_of` q → p `prefix_of` q.
Proof. apply prefix_app_l. Qed.

End Paths.

(** ** Reasoning about computations *)

Section WP.

Context {A B : Type}.
Implicit Types σ : state.

Lemma wp_ret (a : A) Q E σ : Q a σ → wp (ret a) Q E σ.
Proof. done. Qed.

Lemma wp_raise (e : exn) (Q : A → state → Prop) E σ : E e σ → wp (raise e) Q E σ.
Proof. done. Qed.

Lemma wp_bind (c : M A) (f : A → M B) Q E σ :
  wp c (λ a σ', wp (f a) Q E σ') E σ → wp (bind c f) Q E σ.
Proof. unfold wp, bind. by destruct (c σ). Qed.

Lemma wp_mono (c : M A) (Q Q' : A → state → Prop) (E E' : exn → state → Prop) σ :
  wp c Q E σ →
  (∀ a σ', Q a σ' → Q' a σ') → (∀ e σ', E e σ' → E' e σ') →
  wp c Q' E' σ.
Proof. unfold wp. destruct (c σ); eauto. Qed.

Lemma wp_try_except (body : M A) handler Q E σ :
  wp body Q
     (λ e σ', match handler e with
              | Some h => wp h Q E σ'
              | None => E e σ'
              end) σ →
  wp (try_except body handler) Q E σ.
Proof.
  unfold wp, try_except. destruct (body σ) as [a σ'|e σ'|]; [done| |done].
  by destruct (handler e).
Qed.

Lemma wp_returns (c : M A) Q σ :
  wp c Q no_exn σ ↔ ∃ a σ', c σ = Returns a σ' ∧ Q a σ'.
Proof.
  unfold wp, no_exn. destruct (c σ) as [a σ'|e σ'|]; split; try done.
  - eauto.
  - by intros (? & ? & [= <- <-] & ?).
  - by intros (? & ? & ? & ?).
  - by intros (? & ? & ? & ?).
Qed.

Lemma wp_of_eq (c : M A) (Q : A → state → Prop) E σ a σ' :
  c σ = Returns a σ' → Q a σ' → wp c Q E σ.
Proof. unfold wp. by intros ->. Qed.

Lemma wp_eq (c c' : M A) Q E σ σ' :
  c σ = c' σ' → wp c' Q E σ' → wp c Q E σ.
Proof. unfold wp. by intros ->. Qed.

Lemma bind_Returns (c : M A) (f : A → M B) σ a σ' :
  c σ = Returns a σ' → bind c f σ = f a σ'.
Proof. unfold bind. by intros ->. Qed.

Lemma bind_Raises (c : M A) (f : A → M B) σ e σ' :
  c σ = Raises e σ' → bind c f σ = Raises e σ'.
Proof. unfold bind. by intros ->. Qed.

End WP.

Section Grows.

Implicit Types L : level * message → Prop.

Lemma grows_refl L σ : grows L σ σ.
Proof. split; [done|]. exists []. by rewrite app_nil_r. Qed.

Lemma grows_trans L σ1 σ2 σ3 :
  grows L σ1 σ2 → grows L σ2 σ3 → grows L σ1 σ3.
Proof.
  intros [Hc1 (n1 & Hl1 & HL1)] [Hc2 (n2 & Hl2 & HL2)].
  split; [congruence|]. exists (n1 ++ n2). split.
  - by rewrite Hl2, Hl1, (assoc_L (++)).
  - by apply Forall_app.
Qed.

Lemma grows_weaken L L' σ σ' :
  grows L σ σ' → (∀ rec, L rec → L' rec) → grows L' σ σ'.
Proof.
  intros [Hc (new & Hl & HL)] HLL. split; [done|].
  exists new. split; [done|]. eapply Forall_impl; eauto.
Qed.

Lemma grows_snoc L σ σ' fs rec :
  grows L σ σ' → L rec →
  grows L σ (State fs (log σ' ++ [rec]) (clock σ')).
Proof.
  intros [Hc (new & Hl & HL)] Hrec. split; [done|].
  exists (new ++ [rec]). simpl. split; [|by apply Forall_app; auto].
  by rewrite Hl, (assoc_L (++)).
Qed.

Lemma grows_app L σ σ' fs new :
  grows L σ σ' → Forall L new →
  grows L σ (State fs (log σ' ++ new) (clock σ')).
Proof.
  intros [Hc (new' & Hl & HL)] Hnew. split; [done|].
  exists (new' ++ new). simpl. split; [|by apply Forall_app; auto].
  by rewrite Hl, (assoc_L (++)).
Qed.

Lemma grows_files L σ σ' fs : grows L σ σ' → grows L σ (with_files σ' fs).
Proof. done. Qed.

End Grows.

(** ** calculate_file_hash *)

Section Hash.

Implicit Types σ : state.

Lemma CHUNK_SIZE_pos : 0 < CHUNK_SIZE.
Proof. unfold CHUNK_SIZE. lia. Qed.

#[local] Opaque CHUNK_SIZE.

Lemma hits_fault_split fault pos len1 len2 :
  hits_fault fault pos (len1 + len2) =
  hits_fault fault pos len1 || hits_fault fault (pos + len1) len2.
Proof.
  destruct fault as [k|]; simpl; [|done].
  repeat case_bool_decide; simpl; try done; lia.
Qed.

(** The read loop, from any position: it feeds what is left of the file to
    the hash object, or meets the damaged byte. *)
Lemma read_chunks_spec σ p m data fault rounds pos h :
  files σ !! p = Some (File m data fault) →
  length data - pos < rounds →
  read_chunks rounds (Handle p pos) h σ =
    if hits_fault fault pos (length data - pos)
    then Raises (OSError EIO) σ
    else Returns (h ++ drop pos data) σ.
Proof.
  intros Hp. generalize CHUNK_SIZE_pos.
  revert pos h. induction rounds as [|rounds IH]; intros pos h Hn Hlt; [lia|].
  simpl. unfold bind at 1. unfold file_read, file_read_gen. simpl. rewrite Hp.
  unfold read_from.
  set (chunk := take CHUNK_SIZE (drop pos data)).
  assert (length chunk = CHUNK_SIZE `min` (length data - pos)) as Hlen.
  { unfold chunk. by rewrite length_take, length_drop. }
  assert (length data - pos = length chunk + (length data - (pos + length chunk)))
    as Hsplit by lia.
  rewrite Hsplit, hits_fault_split.
  destruct (hits_fault fault pos (length chunk)) eqn:Hf; simpl; [done|].
  destruct chunk as [|b chunk'] eqn:Hc.
  - simpl in Hlen. assert (length data - pos = 0) as Hz by lia. simpl.
    rewrite drop_ge by lia. rewrite app_nil_r.
    replace (length data - (pos + 0)) with 0 by lia.
    destruct fault; simpl; [|done]. rewrite bool_decide_eq_false_2; [done|lia].
  - rewrite IH by (simpl length in *; lia). rewrite <-Hc.
    destruct (hits_fault fault (pos + length chunk) _); [done|].
    unfold MD5.update. rewrite <-(assoc_L (++)). do 2 f_equal.
    unfold chunk. rewrite length_take, length_drop.
    rewrite <-(take_drop CHUNK_SIZE (drop pos data)) at 2.
    f_equal. rewrite drop_drop.
    destruct (decide (CHUNK_SIZE ≤ length data - pos)).
    + f_equal; lia.
    + rewrite !drop_ge; [done|lia..].
Qed.

Lemma calculate_file_hash_spec σ p :
  calculate_file_hash p σ =
    match hash_result (files σ !! p) with
    | inl h => Returns (Some h) σ
    | inr err =>
        Returns None
          (State (files σ) (log σ ++ [(ERROR, Failed_to_open_file p err)]) (clock σ))
    end.
Proof.
  unfold calculate_file_hash, try_except, hash_result.
  destruct (files σ !! p) as [[m data fault|m]|] eqn:Hp.
  - destruct (readable m) eqn:Hr.
    + erewrite bind_Returns by (unfold open_rb; by rewrite Hp, Hr).
      erewrite bind_Returns by (unfold file_size; simpl; by rewrite Hp).
      pose proof (read_chunks_spec σ p m data fault (S (length data)) 0 MD5.new Hp)
        as Hloop.
      rewrite Nat.sub_0_r in Hloop. specialize (Hloop ltac:(lia)).
      destruct (hits_fault fault 0 (length data)).
      * by erewrite bind_Raises by exact Hloop.
      * by erewrite bind_Returns by exact Hloop.
    + by erewrite bind_Raises by (unfold open_rb; by rewrite Hp, Hr).
  - by erewrite bind_Raises by (unfold open_rb; by rewrite Hp).
  - by erewrite bind_Raises by (unfold open_rb; by rewrite Hp).
Qed.

End Hash.

(** ** Loops over a directory listing *)

Section ForEach.

Context (base : path) (body : string → M unit) (fs : gmap path entry).
Context (keep : path → Prop).
Context (Φ : string → path → option entry → Prop).
Context (L : level * message → Prop).

Hypothesis keep_outside : ∀ item p, keep p → ¬ (base ++ [item]) `prefix_of` p.

Lemma for_each_spec items σ :
  NoDup items →
  (∀ item σi, item ∈ items → item_pre base fs keep item σi →
     wp (body item) (λ _ σ', item_post base Φ L item σi σ') no_exn σi) →
  (∀ item, item ∈ items → item_pre base fs keep item σ) →
  wp (for_each items body)
     (λ _ σ', loop_post base body fs keep Φ L items σ σ') no_exn σ.
Proof.
  intros Hnd Hbody. revert σ.
  induction Hnd as [|x items Hx Hnd IH]; intros σ Hpre; simpl.
  - apply wp_ret. split_and!; [done|by intros ?? ?%elem_of_nil| |].
    + apply grows_refl.
    + by intros ? ?%elem_of_nil.
  - destruct (proj1 (wp_returns _ _ _) (Hbody x σ (list_elem_of_here _ _)
                (Hpre x (list_elem_of_here _ _))))
      as ([] & σ1 & Hrun1 & Hframe1 & HΦ1 & Hlog1).
    apply wp_bind. eapply wp_of_eq; [exact Hrun1|].
    eapply wp_mono; [apply IH| |done].
    + intros item σi Hitem Hi. apply Hbody; [by right|done].
    + intros item Hitem p Hp. rewrite Hframe1; [apply (Hpre item); [by right|done]|].
      destruct Hp as [Hp|Hp]; [|by apply keep_outside].
      intros Hxp. eapply prefix_join_ne; [|exact Hp|exact Hxp].
      intros ->. done.
    + intros [] σ2 (Hframe2 & HΦ2 & Hlog2 & Hran2).
      assert (∀ p, (base ++ [x]) `prefix_of` p → files σ2 !! p = files σ1 !! p)
        as Hx2.
      { intros p Hp. apply Hframe2. intros item Hitem Hip.
        eapply prefix_join_ne; [|exact Hp|exact Hip]. intros ->. done. }
      split_and!.
      * intros p Hp. rewrite Hframe2, Hframe1; [done| |].
        -- apply Hp. left.
        -- intros item Hitem. apply Hp. by right.
      * intros item p [->|Hitem]%elem_of_cons Hp.
        -- rewrite Hx2 by done. by apply HΦ1.
        -- by apply HΦ2.
      * by eapply grows_trans.
      * destruct Hlog1 as [_ (new1 & Hnew1 & _)].
        destruct Hlog2 as [_ (new2 & Hnew2 & _)].
        intros item [->|Hitem]%elem_of_cons.
        -- exists σ, σ1, new1. split_and!; [by apply Hpre; left|done|done|done|].
           exists [], new2. by rewrite Hnew2, Hnew1, <-(assoc_L (++)).
        -- destruct (Hran2 item Hitem)
             as (σa & σb & new & Ha & Hrun & Hfin & Hnew & bef & aft & Hlog).
           exists σa, σb, new. split_and!; [done..|].
           exists (new1 ++ bef), aft.
           by rewrite Hlog, Hnew1, <-!(assoc_L (++)).
Qed.

End ForEach.

(** ** delete_item *)

Section Delete.

Implicit Types fs : gmap path entry.
Implicit Types p q : path.
Implicit Types σ : state.

Lemma wf_under_not_dir fs p q q' :
  wf_under fs p → is_dir (fs !! (p ++ q)) = false → q' ≠ [] →
  fs !! (p ++ q ++ q') = None.
Proof.
  intros Hwf Hq. induction q' as [|x q' IH] using rev_ind; [done|]. intros _.
  apply eq_None_not_Some. intros Hsome.
  rewrite (assoc_L (++) q) in Hsome. apply Hwf in Hsome.
  destruct (decide (q' = [])) as [->|Hne].
  - rewrite app_nil_r in Hsome. congruence.
  - rewrite IH in Hsome by done. done.
Qed.

Lemma wf_under_join fs p item : wf_under fs p → wf_under fs (p ++ [item]).
Proof.
  intros Hwf q x. rewrite <-!(assoc_L (++)). apply (Hwf ([item] ++ q)).
Qed.

Lemma dirs_listable_join fs p item :
  dirs_listable fs p → dirs_listable fs (p ++ [item]).
Proof. intros H q m. rewrite <-(assoc_L (++)). apply H. Qed.

Lemma dirs_writable_join fs p item :
  dirs_writable fs p → dirs_writable fs (p ++ [item]).
Proof. intros H q m. rewrite <-(assoc_L (++)). apply H. Qed.

Lemma shallower_join fs p item depth :
  shallower fs p (S depth) → shallower fs (p ++ [item]) depth.
Proof.
  intros H q Hq. rewrite <-(assoc_L (++)) in Hq. apply H in Hq. simpl in Hq. lia.
Qed.

Lemma removal_ext fs fs' q : fs' !! q = fs !! q → removal fs' q = removal fs q.
Proof. unfold removal. by intros ->. Qed.

Lemma ordered_ext fs fs' p new :
  (∀ q, p `prefix_of` q → fs' !! q = fs !! q) →
  ordered fs' p new → ordered fs p new.
Proof.
  intros Hext (Hlast & Hall & Hord). split_and!.
  - rewrite <-(removal_ext fs fs' p); [done|by apply Hext].
  - intros q Hq Hex. rewrite <-(removal_ext fs fs' q) by (by apply Hext).
    apply Hall; [done|]. by rewrite Hext.
  - intros q q' Hq Hqq' Hne Hex.
    assert (p `prefix_of` q') as Hq' by (by etrans).
    rewrite <-(removal_ext fs fs' q), <-(removal_ext fs fs' q') by (by apply Hext).
    apply Hord; [done..|]. by rewrite Hext.
Qed.

(** A path under [p] other than [p] lies under one entry of [p]. *)
Lemma prefix_strict p q :
  p `prefix_of` q → q ≠ p → ∃ item k, q = (p ++ [item]) ++ k.
Proof.
  intros [[|item k] ->] Hne; [by rewrite app_nil_r in Hne|].
  exists item, k. by rewrite <-(assoc_L (++)).
Qed.

Lemma delete_item_removes depth : ∀ p σ,
  is_Some (files σ !! p) →
  dirs_listable (files σ) p →
  shallower (files σ) p depth →
  wp (delete_item depth p)
     (λ _ σ',
        (∀ q, ¬ p `prefix_of` q → files σ' !! q = files σ !! q) ∧
        (∀ q, p `prefix_of` q →
              (files σ' !! q = files σ !! q ∨ files σ' !! q = None) ∧
              (deletable (files σ) p → files σ' !! q = None)) ∧
        grows (removal_record (files σ) p) σ σ' ∧
        (deletable (files σ) p →
           ∃ new, log σ' = log σ ++ new ∧ ordered (files σ) p new))
     no_exn σ.
Proof.
  induction depth as [|depth IH]; intros p σ Hex Hls Hsh.
  { specialize (Hsh [] ltac:(by rewrite app_nil_r)). simpl in Hsh. lia. }
  simpl. apply wp_bind. unfold wp at 1, os_path_isfile.
  destruct (files σ !! p) as [[m data fault|m]|] eqn:Hp; simpl;
    [| |by destruct Hex].
  - (* a file *)
    unfold wp, try_except, bind, os_remove. rewrite Hp.
    assert (∀ q, p `prefix_of` q → q ≠ p → wf_under (files σ) p →
                 files σ !! q = None) as Hbelow.
    { intros q [k ->] Hk Hwf.
      rewrite <-(app_nil_l k). apply (wf_under_not_dir _ p [] k); [done| |].
      - by rewrite app_nil_r, Hp.
      - intros ->. by rewrite app_nil_r in Hk. }
    destruct (check_parent (files σ) (dirname p)) as [err|] eqn:Hpar; simpl.
    + split_and!; [done| | |].
      * intros q Hq. split; [by left|]. intros (Hd & _). congruence.
      * apply grows_snoc; [apply grows_refl|]. split; [done|].
        intros (Hd & _). congruence.
      * intros (Hd & _). congruence.
    + assert (removal (files σ) p = (INFO, Deleting_file p)) as Hrem
        by (unfold removal; by rewrite Hp).
      split_and!.
      * intros q Hq. rewrite lookup_delete_ne; [done|].
        intros ->. by apply Hq.
      * intros q Hq. destruct (decide (q = p)) as [->|Hne].
        -- rewrite lookup_delete_eq. auto.
        -- rewrite lookup_delete_ne by done. split; [by left|].
           intros (_ & _ & Hwf). by apply Hbelow.
      * apply grows_snoc; [apply grows_refl|]. split; [done|].
        intros _. exists p. by rewrite Hp.
      * intros (_ & _ & Hwf). exists [(INFO, Deleting_file p)].
        split; [done|]. rewrite <-Hrem. split_and!.
        -- done.
        -- intros q Hq Hsome. destruct (decide (q = p)) as [->|Hne]; [by left|].
           rewrite Hbelow in Hsome by done. by destruct Hsome.
        -- intros q q' Hq Hqq' Hne Hsome.
           destruct (decide (q' = p)) as [->|Hne'].
           ++ destruct Hne. by apply (anti_symm prefix).
           ++ rewrite Hbelow in Hsome; [by destruct Hsome|by etrans|done|done].
  - (* a directory *)
    assert (removal (files σ) p = (INFO, Deleting_folder p)) as Hrem
      by (unfold removal; by rewrite Hp).
    (* what the body of the loop may rely on *)
    assert (∀ item σi, is_Some (files σ !! (p ++ [item])) →
              item_pre p (files σ) (λ q, q = p ∨ q = dirname p) item σi →
              (∀ q, files σi !! ((p ++ [item]) ++ q) = files σ !! ((p ++ [item]) ++ q)) ∧
              is_Some (files σi !! (p ++ [item])) ∧
              dirs_listable (files σi) (p ++ [item]) ∧
              shallower (files σi) (p ++ [item]) depth ∧
              (deletable (files σ) p → deletable (files σi) (p ++ [item])))
      as Hchild.
    { intros item σi Hitem Hpre.
      assert (∀ q, files σi !! ((p ++ [item]) ++ q) = files σ !! ((p ++ [item]) ++ q))
        as Hsame.
      { intros q. apply Hpre. left. by eexists. }
      split_and!; [done|..].
      - rewrite <-(app_nil_r (p ++ [item])), Hsame. by rewrite app_nil_r.
      - intros q m'. rewrite Hsame, <-(assoc_L (++)). apply Hls.
      - intros q. rewrite Hsame, <-(assoc_L (++)). intros Hq%Hsh.
        rewrite length_app in Hq. simpl in Hq. lia.
      - intros (Hpar & Hw & Hwf). split_and!.
        + fold (os_path_join p item). rewrite dirname_join.
          unfold check_parent. rewrite (Hpre p) by (right; by left).
          rewrite Hp. by rewrite (Hw [] m) by (by rewrite app_nil_r).
        + intros k m'. rewrite Hsame, <-(assoc_L (++)). apply Hw.
        + intros k x. rewrite !Hsame. apply (wf_under_join _ p item Hwf k x). }
    apply wp_bind. unfold wp at 1, os_listdir. rewrite Hp.
    rewrite (Hls [] m) by (by rewrite app_nil_r).
    apply wp_bind.
    eapply wp_mono;
      [apply (for_each_spec p _ (files σ) (λ q, q = p ∨ q = dirname p)
                (λ _ q o, (o = files σ !! q ∨ o = None) ∧
                          (deletable (files σ) p → o = None))
                (removal_record (files σ) p))| |done].
    + intros item q [->| ->].
      * apply prefix_snoc_not.
      * apply dirname_not_under.
    + apply NoDup_children.
    + intros item σi Hitem Hpre.
      apply elem_of_children in Hitem.
      destruct (Hchild item σi Hitem Hpre) as (Hsame & Hexi & Hlsi & Hshi & Hdeli).
      cbv zeta. unfold os_path_join.
      eapply wp_mono; [by apply IH| |done].
      intros [] σ' (Hfr & Hsub & Hlog & _). split_and!; [done| |].
      * intros q Hq. destruct (Hsub q Hq) as [Hor Hdel].
        assert (files σi !! q = files σ !! q) as Hq' by (apply Hpre; by left).
        rewrite <-Hq'. split; [done|]. intros Hd. by apply Hdel, Hdeli.
      * eapply grows_weaken; [exact Hlog|].
        intros rec [Hrec Hunder]. split; [done|]. intros Hd.
        destruct (Hunder (Hdeli Hd)) as (q & Hq & Hsome & ->).
        assert (files σi !! q = files σ !! q) as Hq' by (apply Hpre; by left).
        exists q. split_and!.
        -- etrans; [|exact Hq]. by eexists.
        -- by rewrite <-Hq'.
        -- by apply removal_ext.
    + intros item Hitem q _. done.
    + intros [] σ2 (Hfr2 & Hsub2 & Hlog2 & Hran2).
      assert (files σ2 !! p = Some (Dir m)) as Hp2.
      { rewrite Hfr2; [done|]. intros item _. apply prefix_snoc_not. }
      assert (files σ2 !! dirname p = files σ !! dirname p) as Hpar2.
      { apply Hfr2. intros item _. apply dirname_not_under. }
      assert (∀ q, p `prefix_of` q → q ≠ p →
                (files σ2 !! q = files σ !! q ∨ files σ2 !! q = None) ∧
                (deletable (files σ) p → files σ2 !! q = None)) as Hbelow.
      { intros q [k ->] Hk. destruct k as [|item k]; [by rewrite app_nil_r in Hk|].
        destruct (decide (item ∈ children (files σ) p)) as [Hin|Hnin].
        - apply (Hsub2 item); [done|]. exists k. by rewrite <-(assoc_L (++)).
        - assert (files σ2 !! (p ++ item :: k) = files σ !! (p ++ item :: k)) as Heq.
          { apply Hfr2. intros item' Hin' [k' Hk'].
            rewrite <-(assoc_L (++)) in Hk'. apply app_inv_head in Hk'.
            simpl in Hk'. congruence. }
          rewrite Heq. split; [by left|]. intros (_ & _ & Hwf).
          rewrite elem_of_children in Hnin.
          destruct k as [|x k]; [by apply eq_None_not_Some|].
          change (p ++ item :: x :: k) with (p ++ [item] ++ (x :: k)).
          apply wf_under_not_dir; [done| |done].
          apply eq_None_not_Some in Hnin. by rewrite Hnin. }
      (* on a deletable subtree, what the loop logged for one entry *)
      assert (deletable (files σ) p → ∀ item k,
                is_Some (files σ !! ((p ++ [item]) ++ k)) →
                ∃ bef newi aft new2,
                  log σ2 = log σ ++ new2 ∧ new2 = bef ++ newi ++ aft ∧
                  ordered (files σ) (p ++ [item]) newi) as Hentry.
      { intros Hd item k Hsome.
        assert (is_Some (files σ !! (p ++ [item]))) as Hitem.
        { destruct (files σ !! (p ++ [item])) as [e|] eqn:He; [by eexists|].
          destruct k as [|x k]; [by rewrite app_nil_r, He in Hsome|].
          destruct Hd as (_ & _ & Hwf).
          rewrite <-(assoc_L (++)), (wf_under_not_dir _ p [item] (x :: k)) in Hsome;
            [by destruct Hsome|done|by rewrite He|done]. }
        destruct (Hran2 item (proj2 (elem_of_children _ _ _) Hitem))
          as (σa & σb & newi & Hpre & Hrun & _ & Hnewi & bef & aft & Hlg).
        destruct (Hchild item σa Hitem Hpre) as (Hsame & Hexi & Hlsi & Hshi & Hdeli).
        destruct (proj1 (wp_returns _ _ _) (IH (p ++ [item]) σa Hexi Hlsi Hshi))
          as ([] & σb' & Hrun' & _ & _ & _ & Hord).
        cbv zeta in Hrun. unfold os_path_join in Hrun.
        rewrite Hrun in Hrun'. injection Hrun' as <-.
        destruct (Hord (Hdeli Hd)) as (new' & Hnew' & Hordered).
        rewrite Hnewi in Hnew'. apply app_inv_head in Hnew'. subst new'.
        exists bef, newi, aft, (bef ++ newi ++ aft). split_and!; [done|done|].
        eapply ordered_ext; [|exact Hordered].
        intros q [k' ->]. apply Hsame. }
      unfold wp, try_except, bind, os_rmdir. rewrite Hp2.
      assert (∀ rec fs', removal_record (files σ) p rec →
                grows (removal_record (files σ) p) σ
                  (State fs' (log σ2 ++ [rec]) (clock σ2))) as Hlog'.
      { intros rec fs' Hrec. by eapply grows_snoc. }
      assert (∀ q, p `prefix_of` q →
                (files σ2 !! q = files σ !! q ∨ files σ2 !! q = None) ∧
                (deletable (files σ) p → files σ2 !! q = None) ∨ q = p) as Hkeep.
      { intros q Hq. destruct (decide (q = p)); [by right|left; by apply Hbelow]. }
      destruct (children (files σ2) p) as [|x l] eqn:Hch; simpl.
      * assert (check_parent (files σ2) (dirname p)
                = check_parent (files σ) (dirname p)) as ->
          by (unfold check_parent; by rewrite Hpar2).
        destruct (check_parent (files σ) (dirname p)) as [err|] eqn:Hpar; simpl.
        -- split_and!.
           ++ intros q Hq. apply Hfr2. intros item _ Hi. apply Hq.
              by eapply prefix_join_under.
           ++ intros q Hq. destruct (Hkeep q Hq) as [?| ->]; [done|].
              split; [left; congruence|]. intros (? & _). unfold check_parent in *.
              congruence.
           ++ apply Hlog'. split; [done|]. intros (? & _). congruence.
           ++ intros (? & _). congruence.
        -- split_and!.
           ++ intros q Hq. rewrite lookup_delete_ne by (intros ->; by apply Hq).
              apply Hfr2. intros item _ Hi. apply Hq.
              by eapply prefix_join_under.
           ++ intros q Hq. destruct (decide (q = p)) as [->|Hne].
              ** rewrite lookup_delete_eq. auto.
              ** rewrite lookup_delete_ne by done. by apply Hbelow.
           ++ apply Hlog'. split; [done|]. intros _. exists p. by rewrite Hp.
           ++ intros Hd. destruct Hlog2 as [_ (new2 & Hnew2 & _)].
              exists (new2 ++ [(INFO, Deleting_folder p)]).
              split; [by rewrite Hnew2, (assoc_L (++))|].
              rewrite <-Hrem. split_and!.
              ** by rewrite last_snoc.
              ** intros q Hq Hsome.
                 destruct (decide (q = p)) as [->|Hne];
                   [apply elem_of_app; right; by left|].
                 destruct (prefix_strict p q Hq Hne) as (item & k & ->).
                 destruct (Hentry Hd item k Hsome)
                   as (bef & newi & aft & new2' & Hl2 & -> & (_ & Hall & _)).
                 rewrite Hnew2 in Hl2. apply app_inv_head in Hl2. subst new2.
                 apply elem_of_app. left. apply elem_of_app. right.
                 apply elem_of_app. left. apply Hall; [by eexists|done].
              ** intros q q' Hq Hqq' Hne' Hsome.
                 assert (q' ≠ p) as Hq'p.
                 { intros ->. destruct Hne'. by apply (anti_symm prefix). }
                 destruct (prefix_strict p q' (transitivity Hq Hqq') Hq'p)
                   as (item & k' & ->).
                 destruct (Hentry Hd item k' Hsome)
                   as (bef & newi & aft & new2' & Hl2 & -> & (_ & Hall & Hord)).
                 rewrite Hnew2 in Hl2. apply app_inv_head in Hl2. subst new2.
                 destruct (decide (q = p)) as [->|Hne].
                 --- assert (removal (files σ) ((p ++ [item]) ++ k') ∈ newi) as Hin
                       by (apply Hall; [by eexists|done]).
                     apply list_elem_of_split in Hin as (l1 & l2 & ->).
                     exists (bef ++ l1), (l2 ++ aft ++ [removal (files σ) p]).
                     split; [by rewrite <-!(assoc_L (++))|].
                     rewrite !elem_of_app. right. right. by left.
                 --- destruct (prefix_strict p q Hq Hne) as (item' & k & ->).
                     assert (item' = item) as ->.
                     { destruct Hqq' as [j Hj]. rewrite <-!(assoc_L (++)) in Hj.
                       apply app_inv_head in Hj. simpl in Hj. congruence. }
                     destruct (Hord ((p ++ [item]) ++ k) ((p ++ [item]) ++ k'))
                       as (l1 & l2 & -> & Hin); [by eexists|done|done|done|].
                     exists (bef ++ l1), (l2 ++ aft ++ [removal (files σ) p]).
                     split; [by rewrite <-!(assoc_L (++))|].
                     rewrite !elem_of_app. by left.
      * assert (deletable (files σ) p → False) as Hnot.
        { intros Hdel.
          assert (x ∈ children (files σ2) p) as Hx by (rewrite Hch; left).
          apply elem_of_children in Hx as [e He].
          destruct (Hbelow (p ++ [x])) as [_ Hnone];
            [by eexists|intros Heq; by apply (f_equal length) in Heq;
                        rewrite length_app in Heq; simpl in Heq; lia|].
          rewrite Hnone in He by done. done. }
        split_and!.
        -- intros q Hq. apply Hfr2. intros item _ Hi. apply Hq.
           by eapply prefix_join_under.
        -- intros q Hq. destruct (Hkeep q Hq) as [?| ->]; [done|].
           split; [left; congruence|]. intros Hdel. by destruct Hnot.
        -- apply Hlog'. split; [done|]. intros Hdel. by destruct Hnot.
        -- intros Hdel. by destruct Hnot.
Qed.

Lemma delete_item_spec depth p σ :
  is_Some (files σ !! p) →
  dirs_listable (files σ) p →
  shallower (files σ) p depth →
  wp (delete_item depth p)
     (λ _ σ',
        (∀ q, ¬ p `prefix_of` q → files σ' !! q = files σ !! q) ∧
        (∀ q, p `prefix_of` q →
              (files σ' !! q = files σ !! q ∨ files σ' !! q = None) ∧
              (deletable (files σ) p → files σ' !! q = None)) ∧
        grows is_delete_record σ σ')
     no_exn σ.
Proof.
  intros Hex Hls Hsh.
  eapply wp_mono; [by apply delete_item_removes| |done].
  intros [] σ' (Hfr & Hsub & Hlog & _). split_and!; [done..|].
  eapply grows_weaken; [exact Hlog|]. by intros rec [? _].
Qed.

Lemma is_removal_under_ext fs fs' p rec :
  (∀ q, p `prefix_of` q → fs' !! q = fs !! q) →
  is_removal_under fs' p rec → is_removal_under fs p rec.
Proof.
  intros Hext (q & Hq & Hsome & ->). exists q. split_and!; [done| |].
  - by rewrite <-Hext.
  - apply removal_ext. by apply Hext.
Qed.

Lemma bottom_up_ext fs fs' p new :
  (∀ q, p `prefix_of` q → fs' !! q = fs !! q) →
  bottom_up fs' p new → bottom_up fs p new.
Proof.
  intros Hext [Hall Hord]. split.
  - eapply Forall_impl; [exact Hall|]. intros rec. by apply is_removal_under_ext.
  - by eapply ordered_ext.
Qed.

(** [delete_item] on a deletable subtree: everything goes, from the bottom
    up, and nothing else changes; a file goes with one record. *)
Lemma delete_item_bottom_up depth p σ :
  is_Some (files σ !! p) →
  dirs_listable (files σ) p →
  shallower (files σ) p depth →
  deletable (files σ) p →
  ∃ σ' new,
    delete_item depth p σ = Returns () σ' ∧
    (∀ q, ¬ p `prefix_of` q → files σ' !! q = files σ !! q) ∧
    (∀ q, p `prefix_of` q → files σ' !! q = None) ∧
    log σ' = log σ ++ new ∧
    bottom_up (files σ) p new ∧
    (is_file (files σ !! p) = true → new = [(INFO, Deleting_file p)]).
Proof.
  intros Hex Hls Hsh Hdel.
  destruct (proj1 (wp_returns _ _ _) (delete_item_removes depth p σ Hex Hls Hsh))
    as ([] & σ' & Hrun & Hfr & Hsub & Hlog & Hord).
  destruct (Hord Hdel) as (new & Hnew & Hordered).
  assert (Forall (is_removal_under (files σ) p) new) as Hall.
  { destruct Hlog as [_ (new' & Hnew' & Hall)].
    rewrite Hnew in Hnew'. apply app_inv_head in Hnew'. subst new'.
    eapply Forall_impl; [exact Hall|]. intros rec [_ Hrec]. by apply Hrec. }
  exists σ', new. split_and!; [done|done| |done|done|].
  - intros q Hq. by apply Hsub.
  - intros Hfile.
    assert (∀ rec, rec ∈ new → rec = (INFO, Deleting_file p)) as Honly.
    { intros rec Hin. rewrite Forall_forall in Hall.
      destruct (Hall rec Hin) as (q & [k ->] & Hsome & ->).
      destruct k as [|x k].
      - rewrite app_nil_r. unfold removal. by rewrite Hfile.
      - destruct Hdel as (_ & _ & Hwf).
        rewrite <-(app_nil_l (x :: k)), (wf_under_not_dir _ p [] (x :: k)) in Hsome;
          [by destruct Hsome|done| |done].
        rewrite app_nil_r. by destruct (files σ !! p) as [[? ? ?|?]|]. }
    revert Hrun. clear -Hfile Hnew Honly. destruct depth as [|d]; [done|]. simpl.
    unfold bind at 1, os_path_isfile.
    destruct (files σ !! p) as [[m data fault|?]|] eqn:Hit; try done.
    simpl.
    unfold try_except, bind, os_remove, logger_info, except_OSError, logger_error.
    rewrite Hit.
    destruct (check_parent (files σ) (dirname p)); simpl.
    + intros [= <-]. simpl in Hnew. apply app_inv_head in Hnew. subst new.
      specialize (Honly _ (list_elem_of_here _ _)). done.
    + intros [= <-]. simpl in Hnew. by apply app_inv_head in Hnew.
Qed.

(** Under a well-formed folder, what holds a directory is a directory. *)
Lemma wf_under_first fs p x k :
  wf_under fs p → is_dir (fs !! (p ++ x :: k)) = true →
  is_dir (fs !! (p ++ [x])) = true.
Proof.
  intros Hwf Hdir. destruct k as [|y k]; [done|].
  destruct (is_dir (fs !! (p ++ [x]))) eqn:Hd; [done|].
  change (p ++ x :: y :: k) with (p ++ [x] ++ (y :: k)) in Hdir.
  by rewrite wf_under_not_dir in Hdir.
Qed.

End Delete.

(** ** Copying and comparing one file *)

Section CopyFile.

Implicit Types σ : state.
Implicit Types sp rp : path.

Lemma copy_file_spec sp rp σ :
  sp ≠ rp →
  let src := files σ !! sp in
  let old := files σ !! rp in
  let parent := check_parent (files σ) (dirname rp) in
  wp (copy_file sp rp)
     (λ _ σ',
        source_ok src = true ∧ target_ok old parent = true ∧
        σ' = State (<[rp := File (target_mode old) (file_data src) None]> (files σ))
                   (log σ ++ [(INFO, Synchronizing_file rp)]) (clock σ))
     (λ e σ',
        source_ok src && target_ok old parent = false ∧
        (∃ err, e = OSError err) ∧ log σ' = log σ ∧ clock σ' = clock σ ∧
        (∀ p, p ≠ rp → files σ' !! p = files σ !! p) ∧
        (files σ' !! rp = old ∨
         is_file src = true ∧ is_dir old = false ∧
         files σ' !! rp = Some (File (target_mode old) [] None)))
     σ.
Proof.
  intros Hne src old parent. subst src old parent.
  unfold copy_file, wp, bind, open_rb, source_ok, hash_result.
  destruct (files σ !! sp) as [[m data fault|m]|] eqn:Hsp; simpl;
    [|by eauto 10..].
  destruct (readable m) eqn:Hr; simpl; [|by eauto 10].
  unfold open_wb, target_ok.
  assert (∀ e, (<[rp := e]> (files σ)) !! sp = Some (File m data fault)) as Hsp'.
  { intros e. by rewrite lookup_insert_ne. }
  destruct (files σ !! rp) as [[m' data' fault'|m']|] eqn:Hrp; simpl.
  - destruct (writable m') eqn:Hw; simpl.
    2:{ rewrite andb_false_r. by eauto 10. }
    unfold file_read_all, file_read_gen, bind, file_write. simpl.
    rewrite Hsp'. unfold read_from. rewrite drop_0. simpl.
    destruct (hits_fault fault 0 (length data)) eqn:Hf; simpl.
    + split_and!; [done|by eauto|done|done| |].
      * intros p Hp. by rewrite lookup_insert_ne.
      * right. by rewrite lookup_insert_eq.
    + rewrite lookup_insert_eq. simpl. split_and!; [done..|].
      unfold with_files. simpl. by rewrite insert_insert_eq.
  - rewrite andb_false_r. by eauto 10.
  - destruct (check_parent (files σ) (dirname rp)) as [err|] eqn:Hpar; simpl.
    { rewrite andb_false_r. by eauto 10. }
    unfold file_read_all, file_read_gen, bind, file_write. simpl.
    rewrite Hsp'. unfold read_from. rewrite drop_0. simpl.
    destruct (hits_fault fault 0 (length data)) eqn:Hf; simpl.
    + split_and!; [done|by eauto|done|done| |].
      * intros p Hp. by rewrite lookup_insert_ne.
      * right. by rewrite lookup_insert_eq.
    + rewrite lookup_insert_eq. simpl. split_and!; [done..|].
      unfold with_files. simpl. by rewrite insert_insert_eq.
Qed.

End CopyFile.

Section SyncItem.

Implicit Types σ : state.
Implicit Types s r sp rp : path.

Lemma calculate_file_hash_State fs lg ck p :
  calculate_file_hash p (State fs lg ck) =
    Returns (hash_value (fs !! p)) (State fs (lg ++ hash_errors p (fs !! p)) ck).
Proof.
  rewrite calculate_file_hash_spec. unfold hash_value, hash_errors. simpl.
  destruct (hash_result (fs !! p)); [|done]. by rewrite app_nil_r.
Qed.

Lemma hash_errors_about sp rp o rec :
  rec ∈ hash_errors sp o ∨ rec ∈ hash_errors rp o → is_error_about sp rp rec.
Proof.
  unfold hash_errors, is_error_about.
  destruct (hash_result o); intros [H|H]; try by apply elem_of_nil in H.
  - apply list_elem_of_singleton in H. eauto.
  - apply list_elem_of_singleton in H. eauto.
Qed.

(** What the first loop does for an entry of the source folder that is not
    a directory. *)
Lemma sync_item_file_spec recurse s r item σ :
  s ≠ r →
  let sp := s ++ [item] in
  let rp := r ++ [item] in
  let src := files σ !! sp in
  let old := files σ !! rp in
  let parent := check_parent (files σ) r in
  is_dir src = false →
  ∃ σ' new,
    sync_item recurse s r item σ = Returns () σ' ∧
    clock σ' = clock σ ∧ log σ' = log σ ++ new ∧
    (∀ p, p ≠ rp → files σ' !! p = files σ !! p) ∧
    (files σ' !! rp = old ∨
     is_file src = true ∧ is_dir old = false ∧
     ∃ d, files σ' !! rp = Some (File (target_mode old) d None)) ∧
    (skips src old = true →
       files σ' = files σ ∧
       new = hash_errors sp src ++ hash_errors rp old ++ [(INFO, Hash_match item)]) ∧
    (skips src old = false → source_ok src && target_ok old parent = true →
       files σ' !! rp = Some (File (target_mode old) (file_data src) None) ∧
       (INFO, Synchronizing_file rp) ∈ new) ∧
    (clean src old parent = false → ∃ rec, rec ∈ new ∧ is_error_about sp rp rec) ∧
    (skips src old = true ∨ (INFO, Synchronizing_file rp) ∉ new ∨
     source_ok src && target_ok old parent = true).
Proof.
  intros Hne sp rp src old parent Hnd.
  assert (sp ≠ rp) as Hne'.
  { unfold sp, rp. intros Heq. by apply app_inv_tail in Heq. }
  destruct σ as [fs lg ck]. simpl in *.
  unfold sync_item.
  erewrite bind_Returns by (unfold os_path_isdir, os_path_join; simpl; reflexivity).
  fold sp src. rewrite Hnd. unfold try_except.
  erewrite bind_Returns by (unfold os_path_exists, os_path_join; simpl; reflexivity).
  fold rp old. unfold os_path_join. fold sp rp.
  pose proof (copy_file_spec sp rp) as Hcopy.
  assert (dirname rp = r) as Hdir by apply dirname_join.
  unfold skips, clean.
  destruct (bool_decide (is_Some old)) eqn:Hex; simpl.
  - (* the replica entry exists: the two hashes are compared *)
    unfold bind at 1 2 3.
    rewrite calculate_file_hash_State. fold src.
    rewrite calculate_file_hash_State. fold old.
    destruct (bool_decide (hash_value src = hash_value old)) eqn:Heq; simpl.
    + unfold bind, logger_info. simpl.
      eexists _, _. split_and!; [done|done|simpl; by rewrite <-!(assoc_L (++))|..].
      * done.
      * by left.
      * done.
      * done.
      * assert (skips src old = true) as ->
          by (unfold skips; by rewrite Hex, Heq).
        unfold source_ok, hash_errors, is_inl. rewrite orb_true_l, andb_true_r.
        intros Hbad. destruct (hash_result src) eqn:Hhs.
        -- destruct (hash_result old) eqn:Hho.
           ++ destruct old; done.
           ++ eexists. split; [|right; left; by eexists].
              rewrite !elem_of_app, list_elem_of_singleton. auto.
        -- eexists. split; [|left; by eexists].
           rewrite !elem_of_app, list_elem_of_singleton. auto.
      * by left.
    + set (σ2 := State fs ((lg ++ hash_errors sp src) ++ hash_errors rp old) ck).
      specialize (Hcopy σ2 Hne'). simpl in Hcopy. fold src old in Hcopy.
      rewrite Hdir in Hcopy. fold parent in Hcopy. unfold wp in Hcopy.
      apply bool_decide_eq_true in Hex. destruct Hex as [e He].
      destruct (copy_file sp rp σ2) as [[] σ'|e' σ'|] eqn:Hrun; [| |done].
      * destruct Hcopy as (Hs & Ht & ->).
        eexists _, _. split_and!; [done|done|simpl; by rewrite <-!(assoc_L (++))|..].
        -- intros p Hp. simpl. by rewrite lookup_insert_ne.
        -- right. simpl. rewrite lookup_insert_eq.
           unfold source_ok, hash_result in Hs.
           destruct src as [[? ? ?|?]|]; try done.
           destruct old as [[? ? ?|?]|]; try done. eauto.
        -- done.
        -- intros _ _. simpl. rewrite lookup_insert_eq. split; [done|].
           rewrite !elem_of_app, list_elem_of_singleton. auto.
        -- rewrite Hs, Ht, He. simpl. rewrite orb_true_r, andb_true_r.
           unfold hash_errors, is_inl.
           destruct (hash_result (Some e)) eqn:Hho; [done|]. intros _.
           eexists. split; [|right; left; by eexists].
           rewrite !elem_of_app, list_elem_of_singleton. auto.
        -- right. right. by rewrite Hs, Ht.
      * destruct Hcopy as (Hbad & [err ->] & Hlog & Hck & Hfr & Hrp). simpl.
        unfold bind, logger_error. simpl. rewrite Hlog, Hck. simpl.
        eexists _, _. split_and!; [done|done|simpl; by rewrite <-!(assoc_L (++))|..].
        -- done.
        -- destruct Hrp as [?|(? & ? & ?)]; [by left|right; eauto].
        -- done.
        -- intros _ Hok. congruence.
        -- intros _. eexists. split; [|right; right; by eexists].
           rewrite !elem_of_app, list_elem_of_singleton. auto.
        -- right. left. rewrite !elem_of_app, !list_elem_of_singleton.
           unfold hash_errors. intros [H|[H|H]]; [| |done].
           ++ destruct (hash_result src); [by apply elem_of_nil in H|].
              by apply list_elem_of_singleton in H.
           ++ destruct (hash_result old); [by apply elem_of_nil in H|].
              by apply list_elem_of_singleton in H.
  - (* no replica entry: the file is copied *)
    erewrite bind_Returns by reflexivity. simpl.
    apply bool_decide_eq_false in Hex.
    assert (old = None) as Hold by (by apply eq_None_not_Some).
    set (σ2 := State fs lg ck).
    specialize (Hcopy σ2 Hne'). simpl in Hcopy. fold src old in Hcopy.
    rewrite Hdir in Hcopy. fold parent in Hcopy. unfold wp in Hcopy.
    destruct (copy_file sp rp σ2) as [[] σ'|e' σ'|] eqn:Hrun; [| |done].
    + destruct Hcopy as (Hs & Ht & ->).
      eexists _, _. split_and!; [done|done|done|..].
      * intros p Hp. simpl. by rewrite lookup_insert_ne.
      * right. simpl. rewrite lookup_insert_eq. rewrite Hold.
        unfold source_ok, hash_result in Hs.
        destruct src as [[? ? ?|?]|]; try done. eauto.
      * done.
      * intros _ _. simpl. rewrite lookup_insert_eq. split; [done|].
        by apply list_elem_of_singleton.
      * rewrite Hs, Hold in *. simpl in *. by rewrite Ht.
      * right. right. by rewrite Hs, Ht.
    + destruct Hcopy as (Hbad & [err ->] & Hlog & Hck & Hfr & Hrp). simpl.
      unfold bind, logger_error. simpl. rewrite Hlog, Hck. simpl.
      eexists _, _. split_and!; [done|done|done|..].
      * done.
      * destruct Hrp as [?|(? & ? & ?)]; [by left|right; eauto].
      * done.
      * intros _ Hok. congruence.
      * intros _. eexists. split; [|right; right; by eexists].
        by apply list_elem_of_singleton.
      * right. left. by rewrite list_elem_of_singleton.
Qed.

End SyncItem.

(** ** synchronize_folders: the checks at the entry *)

Section Root.

Implicit Types σ : state.
Implicit Types s r : path.

(** When a check fails the pass returns false; at most the replica folder
    has been created. *)
Lemma synchronize_folders_root_fail depth s r σ :
  root_ok (files σ) s r = false →
  ∃ σ',
    synchronize_folders (S depth) s r σ = Returns false σ' ∧
    grows (λ _, True) σ σ' ∧
    (files σ' = files σ ∨
     is_Some (files σ !! s) ∧ files σ !! r = None ∧
     check_parent (files σ) (dirname r) = None ∧
     files σ' = <[r := Dir rw]> (files σ)).
Proof.
  unfold root_ok. intros Hroot. simpl.
  unfold bind, os_path_exists, os_path_isdir, try_except, os_mkdir,
    logger_error, logger_info, with_files. simpl.
  assert (∀ σ' rec, grows (λ _, True) σ (State (files σ') (log σ ++ rec) (clock σ)))
    as Hg.
  { intros σ' rec. split; [done|]. exists rec. split; [done|].
    by apply Forall_true. }
  pose proof (Hg σ []) as Hg0. rewrite app_nil_r in Hg0.
  destruct (files σ !! s) as [es|] eqn:Hs; simpl.
  2:{ eexists. split_and!; [done|apply (Hg σ)|by left]. }
  destruct (files σ !! r) as [er|] eqn:Hr; simpl.
  - rewrite Hs. destruct es as [? ? ?|ms]; simpl.
    + eexists. split_and!; [done|apply (Hg σ)|by left].
    + rewrite Hr. destruct er as [? ? ?|mr]; simpl in *.
      * eexists. split_and!; [done|apply (Hg σ)|by left].
      * done.
  - destruct (check_parent (files σ) (dirname r)) as [err|] eqn:Hpar;
      simpl; rewrite ?Hr; simpl.
    + eexists. split_and!; [done|apply (Hg σ)|by left].
    + assert (s ≠ r) as Hne by congruence.
      rewrite lookup_insert_ne, Hs by done.
      destruct es as [? ? ?|ms]; simpl in *.
      * eexists. split_and!; [done| |right; by eauto].
        rewrite <-(assoc_L (++)). apply (Hg (State _ [] 0%Z)).
      * clear -Hroot. by repeat case_bool_decide.
Qed.

(** When the checks succeed the pass goes on to its two loops. *)
Lemma synchronize_folders_root_pass depth s r σ :
  root_ok (files σ) s r = true →
  synchronize_folders (S depth) s r σ = sync_loops depth s r (after_checks r σ).
Proof.
  unfold root_ok, after_checks. intros Hroot.
  assert (is_dir (files σ !! s) = true) as Hs
    by (by apply andb_true_iff in Hroot as [? _]).
  assert (is_Some (files σ !! s)) as Hs'
    by (destruct (files σ !! s); [by eexists|done]).
  simpl.
  erewrite bind_Returns by reflexivity.
  rewrite (bool_decide_eq_true_2 _ Hs'). simpl.
  erewrite bind_Returns by reflexivity.
  destruct (is_dir (files σ !! r)) eqn:Hr.
  - assert (is_Some (files σ !! r)) as Hr'
      by (destruct (files σ !! r); [by eexists|done]).
    rewrite (bool_decide_eq_true_2 _ Hr'). simpl.
    erewrite bind_Returns by reflexivity. simpl.
    erewrite bind_Returns by reflexivity. rewrite Hs. simpl.
    erewrite bind_Returns by reflexivity. rewrite Hr. simpl. done.
  - rewrite Hs in Hroot. simpl in Hroot.
    apply andb_true_iff in Hroot as [Hnone%bool_decide_eq_true Hpar%bool_decide_eq_true].
    rewrite bool_decide_eq_false_2 by (rewrite Hnone; by intros [??]). simpl.
    assert (files σ !! s ≠ None) as Hsn by (by intros Hn; rewrite Hn in Hs).
    assert (s ≠ r) as Hne by congruence.
    erewrite bind_Returns.
    2:{ unfold try_except. erewrite bind_Returns.
        2:{ unfold os_mkdir. rewrite Hnone, Hpar. reflexivity. }
        erewrite bind_Returns by reflexivity. reflexivity. }
    simpl.
    erewrite bind_Returns by reflexivity. simpl.
    rewrite lookup_insert_ne, Hs by done. simpl.
    erewrite bind_Returns by reflexivity. simpl.
    rewrite lookup_insert_eq. simpl. done.
Qed.

End Root.

(** ** synchronize_folders: the two loops *)

Section Pass.

Context (d : nat) (s r : path) (σ : state).

Hypothesis IH : ∀ s' r' σ',
  apart s' r' → 0 < d →
  dirs_listable (files σ') s' → dirs_listable (files σ') r' →
  shallower (files σ') s' d → shallower (files σ') r' d →
  wp (synchronize_folders d s' r') (sync_post d s' r' σ') no_exn σ'.

Hypothesis Hapart : apart s r.
Hypothesis Hls : dirs_listable (files σ) s.
Hypothesis Hlr : dirs_listable (files σ) r.
Hypothesis Hss : shallower (files σ) s (S d).
Hypothesis Hsr : shallower (files σ) r (S d).

(** The filesystem when the loops start, and the replica folder in it. *)
Context (fs1 : gmap path entry) (m1 : mode).
Hypothesis Hfs1 : ∀ p, p ≠ r → fs1 !! p = files σ !! p.
Hypothesis Hr1 : fs1 !! r = Some (Dir m1).
Hypothesis Hm1 : m1 = rw ∧ files σ !! r = None ∨ files σ !! r = Some (Dir m1).

Lemma pass_keep_outside item p :
  pass_keep s r p → ¬ (r ++ [item]) `prefix_of` p.
Proof.
  intros [Hs| ->].
  - intros Hr%prefix_join_under. by eapply apart_not_under.
  - apply prefix_snoc_not.
Qed.

Lemma structure_ok_parent :
  structure_ok (files σ) s r → check_parent fs1 r = None.
Proof.
  intros (_ & _ & Hw & _). unfold check_parent. rewrite Hr1.
  destruct Hm1 as [[-> _]|Hr]; [done|].
  by rewrite (Hw [] m1) by (by rewrite app_nil_r).
Qed.

Lemma structure_ok_join item σi :
  structure_ok (files σ) s r →
  is_dir (files σ !! (s ++ [item])) = true →
  (∀ q, files σi !! (s ++ q) = files σ !! (s ++ q)) →
  (∀ q, files σi !! (r ++ item :: q) = files σ !! (r ++ item :: q)) →
  files σi !! r = fs1 !! r →
  structure_ok (files σi) (s ++ [item]) (r ++ [item]).
Proof.
  intros Hok Hdir A1 A2 A3.
  pose proof (structure_ok_parent Hok) as Hpar.
  destruct Hok as (Hwfs & Hwfr & Hw & Hk & Hroot).
  assert (∀ q, files σi !! ((s ++ [item]) ++ q) = files σ !! ((s ++ [item]) ++ q))
    as B1 by (intros q; rewrite <-!(assoc_L (++)); apply A1).
  assert (∀ q, files σi !! ((r ++ [item]) ++ q) = files σ !! ((r ++ [item]) ++ q))
    as B2 by (intros q; rewrite <-!(assoc_L (++)); apply A2).
  split_and!.
  - intros q x. rewrite !B1. by apply wf_under_join.
  - intros q x. rewrite !B2. by apply wf_under_join.
  - intros q m. rewrite B2. by apply dirs_writable_join.
  - intros q. rewrite B1, B2, <-!(assoc_L (++)). apply Hk.
  - unfold root_ok. rewrite <-(app_nil_r (s ++ [item])), B1, app_nil_r, Hdir.
    simpl. rewrite <-(app_nil_r (r ++ [item])), B2, app_nil_r.
    destruct (Hk [item]) as [Hk1 _]. specialize (Hk1 Hdir).
    destruct (files σ !! (r ++ [item])) as [[? ? ?|?]|]; [done..|].
    simpl. apply bool_decide_eq_true. fold (os_path_join r item). rewrite dirname_join.
    erewrite check_parent_ext; [exact Hpar|done].
Qed.

Lemma effect_ok_same src old : effect_ok src old old.
Proof. split; eauto. Qed.

(** The body of the first loop. *)
Lemma forward_item item σi :
  is_Some (files σ !! (s ++ [item])) →
  item_pre r fs1 (pass_keep s r) item σi →
  wp (sync_item (synchronize_folders d) s r item)
     (λ _ σ', item_post r (forward_post (files σ) s r) (λ _, True) item σi σ')
     no_exn σi.
Proof.
  intros Hex Hpre.
  assert (∀ q, files σi !! (s ++ q) = files σ !! (s ++ q)) as A1.
  { intros q. rewrite Hpre by (right; left; by eexists).
    apply Hfs1. rewrite <-(app_nil_r r). by apply apart_app_ne. }
  assert (∀ q, files σi !! (r ++ item :: q) = files σ !! (r ++ item :: q)) as A2.
  { intros q. rewrite Hpre.
    - apply Hfs1. intros Heq. apply (f_equal length) in Heq.
      rewrite length_app in Heq. simpl in Heq. lia.
    - left. exists q. by rewrite <-(assoc_L (++)). }
  assert (files σi !! r = fs1 !! r) as A3 by (apply Hpre; right; by right).
  assert (0 < d) as Hd.
  { specialize (Hss [item] Hex). simpl in Hss. lia. }
  destruct (is_dir (files σ !! (s ++ [item]))) eqn:Hdir.
  - (* a directory: the recursive call *)
    unfold sync_item. apply wp_bind. unfold wp at 1, os_path_isdir, os_path_join.
    rewrite A1, Hdir. apply wp_bind.
    eapply wp_mono; [apply IH| |done].
    + by apply apart_join.
    + done.
    + intros q m. rewrite <-(assoc_L (++)), A1. apply Hls.
    + intros q m. rewrite <-(assoc_L (++)). simpl. rewrite A2.
      apply (Hlr (item :: q)).
    + intros q. rewrite <-(assoc_L (++)), A1. intros Hq%Hss.
      rewrite length_app in Hq. simpl in Hq. lia.
    + intros q. rewrite <-(assoc_L (++)). simpl. rewrite A2. intros Hq%Hsr.
      simpl in Hq. lia.
    + intros b σ' (_ & Hfr & _ & Heff & Hlog & _ & _ & Hmir). apply wp_ret.
      split_and!; [done| |done].
      intros p _ q ->. split.
      * specialize (Heff q). rewrite <-!(assoc_L (++)) in Heff. simpl in Heff.
        by rewrite A1, A2 in Heff.
      * intros Hok. specialize (Hmir (structure_ok_join _ _ Hok Hdir A1 A2 A3) q).
        rewrite <-!(assoc_L (++)) in Hmir. simpl in Hmir.
        by rewrite A1, A2 in Hmir.
  - (* a file *)
    destruct (sync_item_file_spec (synchronize_folders d) s r item σi
                (apart_ne _ _ Hapart))
      as (σ' & new & Hrun & Hck & Hlog & Hfr & Hnew & Hskip & Hcopy & _).
    { by rewrite A1. }
    rewrite A1 in Hnew, Hskip, Hcopy.
    rewrite (A2 []) in Hnew, Hskip, Hcopy.
    eapply wp_of_eq; [exact Hrun|]. split_and!.
    + intros p Hp. apply Hfr. intros ->. by apply Hp.
    + intros p _ q ->. destruct q as [|x q].
      * (* the entry itself *)
        split.
        -- destruct Hnew as [->|(Hf & Hnd & dd & ->)]; [apply effect_ok_same|].
           split; [|done]. intros _. right.
           by destruct (files σ !! (s ++ [item])).
        -- intros Hok. pose proof (structure_ok_parent Hok) as Hpar.
           destruct Hok as (_ & _ & _ & Hk & _).
           destruct (Hk [item]) as [_ Hk2].
           unfold mirrored.
           destruct (files σ !! (s ++ [item])) as [[ms ds fs'|?]|] eqn:Hsrc;
             [|done|by destruct Hex].
           specialize (Hk2 eq_refl). split.
           ++ destruct Hnew as [->|(_ & _ & dd & ->)]; done.
           ++ intros Hfok. unfold file_ok in Hfok.
              apply andb_true_iff in Hfok as [Hsok Hrest].
              destruct (skips _ (files σ !! (r ++ [item]))) eqn:Hsk.
              ** left. split; [done|]. destruct (Hskip eq_refl) as [-> _].
                 apply (A2 []).
              ** right. apply Hcopy; [done|]. rewrite Hsok. simpl.
                 rewrite <-Hrest. f_equal.
                 erewrite check_parent_ext; [exact Hpar|done].
      * (* below a file there is nothing *)
        rewrite Hfr.
        2:{ intros Heq. apply app_inv_head in Heq. done. }
        rewrite A2. split; [apply effect_ok_same|].
        intros (Hwfs & Hwfr & _ & Hk & _).
        assert (files σ !! (s ++ item :: x :: q) = None) as ->.
        { change (s ++ item :: x :: q) with (s ++ [item] ++ (x :: q)).
          by apply wf_under_not_dir. }
        simpl. change (r ++ item :: x :: q) with (r ++ [item] ++ (x :: q)).
        apply wf_under_not_dir; [done| |done].
        destruct (Hk [item]) as [_ Hk2]. apply Hk2.
        destruct (files σ !! (s ++ [item])) as [[? ? ?|?]|]; [done|done|].
        by destruct Hex.
    + split; [done|]. exists new. split; [done|]. by apply Forall_true.
Qed.

(** The filesystem between the two loops. *)
Context (fs2 : gmap path entry).
Hypothesis Hfs2_s : ∀ q, fs2 !! (s ++ q) = files σ !! (s ++ q).
Hypothesis Hfs2_r : fs2 !! r = Some (Dir m1).
Hypothesis Hfs2_orphan : ∀ item q,
  files σ !! (s ++ [item]) = None →
  fs2 !! (r ++ item :: q) = files σ !! (r ++ item :: q).

(** The body of the second loop. *)
Lemma sweep_item_spec item σj :
  is_Some (fs2 !! (r ++ [item])) →
  item_pre r fs2 (pass_keep s r) item σj →
  wp (sweep_item d s r item)
     (λ _ σ', item_post r (sweep_post (files σ) fs2 s r) (λ _, True) item σj σ')
     no_exn σj.
Proof.
  intros Hex Hpre.
  assert (∀ q, files σj !! (r ++ item :: q) = fs2 !! (r ++ item :: q)) as A2.
  { intros q. apply Hpre. left. exists q. by rewrite <-(assoc_L (++)). }
  assert (files σj !! r = fs2 !! r) as A3 by (apply Hpre; right; by right).
  unfold sweep_item. apply wp_bind. unfold wp at 1, os_path_exists, os_path_join.
  rewrite Hpre by (right; left; by eexists). rewrite Hfs2_s.
  destruct (files σ !! (s ++ [item])) as [e|] eqn:Hsrc.
  - rewrite bool_decide_eq_true_2 by (by eexists). simpl. apply wp_ret.
    split_and!; [done| |apply grows_refl].
    intros p Hp. rewrite Hpre by (by left).
    split_and!; [by left|done|intros _ ?; congruence].
  - rewrite bool_decide_eq_false_2 by (by intros [??]). simpl.
    assert (∀ q, files σj !! ((r ++ [item]) ++ q) = files σ !! ((r ++ [item]) ++ q))
      as B2.
    { intros q. rewrite <-(assoc_L (++)). simpl. by rewrite A2, Hfs2_orphan. }
    eapply wp_mono; [apply delete_item_spec| |done].
    + rewrite (A2 []). done.
    + intros q m. rewrite B2, <-(assoc_L (++)). apply Hlr.
    + intros q. rewrite B2, <-(assoc_L (++)). intros Hq%Hsr.
      rewrite length_app in Hq. simpl in Hq. lia.
    + intros [] σ' (Hfr & Hsub & Hlog). split_and!; [done| |].
      * intros p Hp. destruct (Hsub p Hp) as [Hor Hdel].
        rewrite Hpre in Hor by (by left).
        split_and!; [done|intros [??]; congruence|].
        intros Hok _. apply Hdel.
        pose proof (structure_ok_parent Hok) as Hpar.
        destruct Hok as (_ & Hwfr & Hw & _). split_and!.
        -- fold (os_path_join r item). rewrite dirname_join.
           erewrite check_parent_ext; [exact Hpar|]. by rewrite A3, Hfs2_r.
        -- intros q m. rewrite B2. by apply dirs_writable_join.
        -- intros q x. rewrite !B2. by apply wf_under_join.
      * eapply grows_weaken; [exact Hlog|done].
Qed.

End Pass.

Section Loops.

Context (d : nat) (s r : path) (σ : state).

Hypothesis IH : ∀ s' r' σ',
  apart s' r' → 0 < d →
  dirs_listable (files σ') s' → dirs_listable (files σ') r' →
  shallower (files σ') s' d → shallower (files σ') r' d →
  wp (synchronize_folders d s' r') (sync_post d s' r' σ') no_exn σ'.

Hypothesis Hapart : apart s r.
Hypothesis Hls : dirs_listable (files σ) s.
Hypothesis Hlr : dirs_listable (files σ) r.
Hypothesis Hss : shallower (files σ) s (S d).
Hypothesis Hsr : shallower (files σ) r (S d).
Hypothesis Hroot : root_ok (files σ) s r = true.

Context (σ1 : state) (m1 : mode).
Hypothesis Hfs1 : ∀ p, p ≠ r → files σ1 !! p = files σ !! p.
Hypothesis Hr1 : files σ1 !! r = Some (Dir m1).
Hypothesis Hm1 : m1 = rw ∧ files σ !! r = None ∨ files σ !! r = Some (Dir m1).
Hypothesis Hlog1 : grows (λ _, True) σ σ1.
Hypothesis Hafter : files (after_checks r σ) !! r = Some (Dir m1).

Lemma sync_loops_spec :
  wp (sync_loops d s r) (sync_post (S d) s r σ) no_exn σ1.
Proof.
  assert (is_dir (files σ !! s) = true) as Hsdir
    by (by apply andb_true_iff in Hroot as [? _]).
  assert (s ≠ r) as Hne by (by apply apart_ne).
  assert (∀ q, s ++ q ≠ r) as Hsq.
  { intros q. rewrite <-(app_nil_r r). by apply apart_app_ne. }
  assert (∀ item q, r ++ item :: q ≠ r) as Hrq.
  { intros item q Heq. apply (f_equal length) in Heq.
    rewrite length_app in Heq. simpl in Heq. lia. }
  assert (readable m1 = true) as Hread1.
  { destruct Hm1 as [[-> _]|Hr]; [done|]. apply (Hlr [] m1). by rewrite app_nil_r. }
  unfold sync_loops.
  (* the first loop *)
  apply wp_bind. unfold wp at 1, os_listdir. rewrite Hfs1 by done.
  destruct (files σ !! s) as [[? ? ?|ms]|] eqn:Hs; try done.
  rewrite (Hls [] ms) by (by rewrite app_nil_r).
  apply wp_bind.
  eapply wp_mono;
    [apply (for_each_spec r _ (files σ1) (pass_keep s r)
              (forward_post (files σ) s r) (λ _, True))| |done].
  { intros item p. by apply (pass_keep_outside s r Hapart). }
  { apply NoDup_children. }
  { intros item σi Hitem Hpre.
    apply (forward_item d s r σ IH Hapart Hls Hlr Hss Hsr (files σ1) m1 Hfs1 Hr1 Hm1);
      [|done].
    apply elem_of_children in Hitem. rewrite Hfs1 in Hitem; [done|].
    apply Hsq. }
  { intros item _ p _. done. }
  intros [] σ2 (Hfr2 & Hfwd & Hlog2 & Hran2).
  assert (∀ item, item ∈ children (files σ1) s ↔ is_Some (files σ !! (s ++ [item])))
    as Hitems.
  { intros item. rewrite elem_of_children, Hfs1; [done|apply Hsq]. }
  assert (∀ q, files σ2 !! (s ++ q) = files σ !! (s ++ q)) as Hs2.
  { intros q. rewrite Hfr2, Hfs1; [done|apply Hsq|].
    intros item _. apply (pass_keep_outside s r Hapart). left. by eexists. }
  assert (files σ2 !! r = Some (Dir m1)) as Hr2.
  { rewrite Hfr2; [done|]. intros item _. apply prefix_snoc_not. }
  assert (∀ item q, files σ !! (s ++ [item]) = None →
            files σ2 !! (r ++ item :: q) = files σ !! (r ++ item :: q)) as Horph.
  { intros item q Hnone. rewrite Hfr2, Hfs1; [done|apply Hrq|].
    intros item' Hin [k Hk]. rewrite <-(assoc_L (++)) in Hk.
    apply app_inv_head in Hk. simpl in Hk. injection Hk as -> _.
    apply Hitems in Hin. rewrite Hnone in Hin. by destruct Hin. }
  (* the second loop *)
  apply wp_bind. unfold wp at 1, os_listdir. rewrite Hr2, Hread1.
  apply wp_bind.
  eapply wp_mono;
    [apply (for_each_spec r _ (files σ2) (pass_keep s r)
              (sweep_post (files σ) (files σ2) s r) (λ _, True))| |done].
  { intros item p. by apply (pass_keep_outside s r Hapart). }
  { apply NoDup_children. }
  { intros item σj Hitem Hpre.
    apply (sweep_item_spec d s r σ Hlr Hsr (files σ1) m1 Hr1 Hm1
             (files σ2) Hs2 Hr2 Horph); [|done].
    by apply elem_of_children. }
  { intros item _ p _. done. }
  intros [] σ3 (Hfr3 & Hsw & Hlog3 & Hran3). apply wp_ret.
  (* what the two loops leave under one entry of the replica *)
  assert (∀ item q, is_Some (files σ !! (s ++ [item])) →
            files σ3 !! (r ++ item :: q) = files σ2 !! (r ++ item :: q)) as Hkept.
  { intros item q Hex.
    destruct (decide (item ∈ children (files σ2) r)) as [Hin|Hnin].
    - apply (Hsw item); [done| |done]. exists q. by rewrite <-(assoc_L (++)).
    - apply Hfr3. intros item' Hin' [k Hk]. rewrite <-(assoc_L (++)) in Hk.
      apply app_inv_head in Hk. simpl in Hk. congruence. }
  assert (∀ item q, files σ !! (s ++ [item]) = None →
            let new := files σ3 !! (r ++ item :: q) in
            (new = files σ !! (r ++ item :: q) ∨ new = None) ∧
            (structure_ok (files σ) s r → new = None)) as Hgone.
  { intros item q Hnone new. subst new.
    destruct (decide (item ∈ children (files σ2) r)) as [Hin|Hnin].
    - destruct (Hsw item (r ++ item :: q) Hin) as (Hor & _ & Hdel).
      { exists q. by rewrite <-(assoc_L (++)). }
      rewrite Horph in Hor by done. split; [done|]. intros Hok. by apply Hdel.
    - rewrite Hfr3.
      2:{ intros item' Hin' [k Hk]. rewrite <-(assoc_L (++)) in Hk.
          apply app_inv_head in Hk. simpl in Hk. congruence. }
      rewrite Horph by done. split; [by left|].
      intros (_ & Hwfr & _).
      rewrite elem_of_children, (Horph item []) in Hnin by done.
      apply eq_None_not_Some in Hnin.
      destruct q as [|x q]; [done|].
      change (r ++ item :: x :: q) with (r ++ [item] ++ (x :: q)).
      apply wf_under_not_dir; [done|by rewrite Hnin|done]. }
  assert (files σ3 !! r = Some (Dir m1)) as Hr3.
  { rewrite Hfr3; [done|]. intros item _. apply prefix_snoc_not. }
  split_and!.
  - done.
  - intros p Hp. rewrite Hfr3, Hfr2, Hfs1; [done|by intros ->|..].
    + intros item _ Hip. apply Hp. by eapply prefix_join_under.
    + intros item _ Hip. apply Hp. by eapply prefix_join_under.
  - intros _. by rewrite Hr3, Hafter.
  - intros [|item q].
    + rewrite !app_nil_r, Hr3, Hs. split; [intros _; right; by eexists|].
      intros m [= <-]. destruct Hm1 as [[-> ?]|?]; [by left|by right].
    + destruct (files σ !! (s ++ [item])) as [e|] eqn:Hsrc.
      * rewrite Hkept by (by rewrite Hsrc).
        assert (item ∈ children (files σ1) s) as Hin
          by (apply Hitems; by rewrite Hsrc).
        assert ((r ++ [item]) `prefix_of` (r ++ item :: q)) as Hpre
          by (exists q; by rewrite <-(assoc_L (++))).
        by destruct (Hfwd item (r ++ item :: q) Hin Hpre q eq_refl) as [Heff _].
      * destruct (Hgone item q Hsrc) as [[->| ->] _]; [apply effect_ok_same|].
        split; [by intros [??]|done].
  - eapply grows_trans; [exact Hlog1|]. eapply grows_trans; [exact Hlog2|done].
  - intros _ item Hex.
    destruct (Hran2 item (proj2 (Hitems item) Hex))
      as (σa & σb & new & Ha & Hrun & Hfin & Hnew & bef & aft & Hlg).
    exists σa, σb, new. split_and!.
    + intros p [Hp|Hp].
      * rewrite Ha by (right; by left). apply Hfs1. destruct Hp as [k ->]. apply Hsq.
      * rewrite Ha by (by left). apply Hfs1. destruct Hp as [k ->].
        rewrite <-(assoc_L (++)). apply Hrq.
    + rewrite Ha by (right; by right). congruence.
    + done.
    + intros p [k ->]. rewrite <-(assoc_L (++)). simpl. rewrite Hkept by done.
      apply Hfin. exists k. by rewrite <-(assoc_L (++)).
    + done.
    + destruct Hlog1 as [_ (n1 & Hn1 & _)]. destruct Hlog3 as [_ (n3 & Hn3 & _)].
      exists (n1 ++ bef), (aft ++ n3).
      by rewrite Hn3, Hlg, Hn1, <-!(assoc_L (++)).
  - intros Hok q item Hdir Hnone Hex.
    destruct Hlog1 as [_ (n1 & Hn1 & _)]. destruct Hlog2 as [_ (n2 & Hn2 & _)].
    destruct Hlog3 as [_ (n3 & Hn3 & _)].
    destruct q as [|x q]; simpl in Hnone, Hex.
    + (* an orphan of the replica folder: the second loop deletes it *)
      simpl.
      assert (item ∈ children (files σ2) r) as Hin.
      { apply elem_of_children. by rewrite (Horph item []). }
      destruct (Hran3 item Hin)
        as (σa & σb & new & Ha & Hrun & _ & Hnew & bef & aft & Hlg).
      assert (∀ p, (r ++ [item]) `prefix_of` p → files σa !! p = files σ !! p)
        as Hsame.
      { intros p [k ->]. rewrite Ha by (left; by eexists).
        rewrite <-(assoc_L (++)). by apply Horph. }
      assert (delete_item d (r ++ [item]) σa = Returns () σb) as Hdel.
      { revert Hrun. unfold sweep_item, bind, os_path_exists, os_path_join.
        rewrite Ha by (right; left; by eexists). rewrite Hs2, Hnone.
        by rewrite bool_decide_eq_false_2 by (by intros [??]). }
      destruct Hok as (_ & Hwfr & Hw & _).
      destruct (delete_item_bottom_up d (r ++ [item]) σa)
        as (σb' & new' & Hdel' & _ & _ & Hnew' & Hbu & Hone).
      { rewrite Hsame by done. done. }
      { intros k m. rewrite Hsame by (by eexists). by apply dirs_listable_join. }
      { intros k. rewrite Hsame by (by eexists). by apply shallower_join. }
      { split_and!.
        - fold (os_path_join r item). rewrite dirname_join.
          unfold check_parent. rewrite Ha by (right; by right). rewrite Hr2.
          destruct Hm1 as [[-> _]|Hr]; [done|].
          by rewrite (Hw [] m1) by (by rewrite app_nil_r).
        - intros k m. rewrite Hsame by (by eexists). by apply dirs_writable_join.
        - intros k y. rewrite !Hsame by (by eexists).
          by apply (wf_under_join _ r item Hwfr k y). }
      rewrite Hdel in Hdel'. injection Hdel' as <-.
      rewrite Hnew in Hnew'. apply app_inv_head in Hnew'. subst new'.
      exists (n1 ++ n2 ++ bef), new, aft. split_and!.
      * by rewrite Hlg, Hn2, Hn1, <-!(assoc_L (++)).
      * by eapply bottom_up_ext.
      * rewrite <-Hsame by done. done.
    + (* an orphan further down: the recursive call removes it *)
      destruct Hok as (Hwfs & Hok').
      assert (is_dir (files σ !! (s ++ [x])) = true) as Hdirx
        by (by apply (wf_under_first _ s x q)).
      assert (structure_ok (files σ) s r) as Hok by done.
      assert (x ∈ children (files σ1) s) as Hin.
      { apply Hitems. by destruct (files σ !! (s ++ [x])). }
      destruct (Hran2 x Hin)
        as (σa & σb & newx & Ha & Hrun & _ & Hnewx & bef & aft & Hlg).
      assert (∀ k, files σa !! (s ++ k) = files σ !! (s ++ k)) as A1.
      { intros k. rewrite Ha by (right; left; by eexists). apply Hfs1, Hsq. }
      assert (∀ k, files σa !! (r ++ x :: k) = files σ !! (r ++ x :: k)) as A2.
      { intros k. rewrite Ha; [apply Hfs1, Hrq|].
        left. exists k. by rewrite <-(assoc_L (++)). }
      assert (files σa !! r = files σ1 !! r) as A3 by (apply Ha; right; by right).
      assert (0 < d) as Hd.
      { assert (is_Some (files σ !! (s ++ [x]))) as Hx
          by (by destruct (files σ !! (s ++ [x]))).
        specialize (Hss [x] Hx). simpl in Hss. lia. }
      assert (wp (synchronize_folders d (s ++ [x]) (r ++ [x]))
                 (sync_post d (s ++ [x]) (r ++ [x]) σa) no_exn σa) as Hwp.
      { apply IH; [by apply apart_join|done|..].
        - intros k m. rewrite <-(assoc_L (++)), A1. apply Hls.
        - intros k m. rewrite <-(assoc_L (++)). simpl. rewrite A2.
          apply (Hlr (x :: k)).
        - intros k. rewrite <-(assoc_L (++)), A1. intros Hk%Hss.
          rewrite length_app in Hk. simpl in Hk. lia.
        - intros k. rewrite <-(assoc_L (++)). simpl. rewrite A2. intros Hk%Hsr.
          simpl in Hk. lia. }
      apply wp_returns in Hwp
        as (b & σb' & Hrec & _ & _ & _ & _ & _ & _ & Hdeep & _).
      assert (σb' = σb) as ->.
      { revert Hrun. unfold sync_item, os_path_join.
        unfold bind at 1, os_path_isdir. rewrite A1, Hdirx.
        unfold bind at 1. rewrite Hrec. unfold ret. congruence. }
      destruct (Hdeep (structure_ok_join s r σ (files σ1) m1 Hr1 Hm1 x σa
                         Hok Hdirx A1 A2 A3) q item)
        as (bef' & new & aft' & Hlg' & Hbu & Hone).
      { by rewrite <-(assoc_L (++)), A1. }
      { by rewrite <-(assoc_L (++)), A1. }
      { rewrite <-(assoc_L (++)). simpl. by rewrite A2. }
      rewrite Hnewx in Hlg'. apply app_inv_head in Hlg'. subst newx.
      assert (∀ p, ((r ++ [x]) ++ q ++ [item]) `prefix_of` p →
                   files σa !! p = files σ !! p) as Hsame.
      { intros p [k ->]. rewrite <-!(assoc_L (++)). simpl. apply A2. }
      assert ((r ++ [x]) ++ q ++ [item] = r ++ x :: q ++ [item]) as Heq
        by (by rewrite <-(assoc_L (++))).
      simpl. rewrite <-Heq.
      exists (n1 ++ bef ++ bef'), new, (aft' ++ aft ++ n3). split_and!.
      * by rewrite Hn3, Hlg, Hn1, <-!(assoc_L (++)).
      * by eapply bottom_up_ext.
      * rewrite <-Hsame by done. done.
  - intros Hok [|item q].
    + rewrite !app_nil_r, Hr3, Hs. done.
    + destruct (files σ !! (s ++ [item])) as [e|] eqn:Hsrc.
      * rewrite Hkept by (by rewrite Hsrc).
        assert (item ∈ children (files σ1) s) as Hin
          by (apply Hitems; by rewrite Hsrc).
        assert ((r ++ [item]) `prefix_of` (r ++ item :: q)) as Hpre
          by (exists q; by rewrite <-(assoc_L (++))).
        destruct (Hfwd item (r ++ item :: q) Hin Hpre q eq_refl) as [_ Hmir].
        by apply Hmir.
      * destruct (Hgone item q Hsrc) as [_ Hnone]. rewrite (Hnone Hok).
        destruct Hok as (Hwfs & _).
        assert (files σ !! (s ++ item :: q) = None) as ->; [|done].
        destruct q as [|x q]; [done|].
        change (s ++ item :: x :: q) with (s ++ [item] ++ (x :: q)).
        apply wf_under_not_dir; [done|by rewrite Hsrc|done].
Qed.

End Loops.

(** ** synchronize_folders: one pass *)

Theorem synchronize_folders_spec depth : ∀ s r σ,
  apart s r → 0 < depth →
  dirs_listable (files σ) s → dirs_listable (files σ) r →
  shallower (files σ) s depth → shallower (files σ) r depth →
  wp (synchronize_folders depth s r) (sync_post depth s r σ) no_exn σ.
Proof.
  induction depth as [|d IH]; intros s r σ Hapart Hpos Hls Hlr Hss Hsr; [lia|].
  destruct (root_ok (files σ) s r) eqn:Hroot.
  - eapply wp_eq; [by apply synchronize_folders_root_pass|].
    unfold after_checks.
    assert (is_dir (files σ !! s) = true) as Hsdir
      by (by apply andb_true_iff in Hroot as [? _]).
    destruct (files σ !! r) as [[? ? ?|mr]|] eqn:Hr; simpl.
    + unfold root_ok in Hroot. rewrite Hr, Hsdir in Hroot. done.
    + apply (sync_loops_spec d s r σ IH Hapart Hls Hlr Hss Hsr Hroot σ mr);
        [done|done|by right|apply grows_refl|].
      unfold after_checks. by rewrite Hr.
    + apply (sync_loops_spec d s r σ IH Hapart Hls Hlr Hss Hsr Hroot _ rw).
      * intros p Hp. simpl. by rewrite lookup_insert_ne.
      * simpl. by rewrite lookup_insert_eq.
      * by left.
      * by apply grows_snoc; [apply grows_refl|].
      * unfold after_checks. rewrite Hr. simpl. by rewrite lookup_insert_eq.
  - destruct (synchronize_folders_root_fail d s r σ Hroot)
      as (σ' & Hrun & Hlog & Hfs).
    eapply wp_of_eq; [exact Hrun|].
    assert (∀ p, p ≠ r → files σ' !! p = files σ !! p) as Hfr.
    { intros p Hp. destruct Hfs as [->|(_ & _ & _ & ->)]; [done|].
      by rewrite lookup_insert_ne. }
    split_and!.
    + done.
    + intros p Hp. apply Hfr. by intros ->.
    + done.
    + intros q. destruct (decide (q = [])) as [->|Hq].
      * rewrite !app_nil_r.
        destruct Hfs as [->|(Hs & Hnone & _ & ->)]; [apply effect_ok_same|].
        rewrite lookup_insert_eq. split; [by right|]. intros m [= <-]. by left.
      * rewrite Hfr; [apply effect_ok_same|].
        intros Heq. apply (f_equal length) in Heq. rewrite length_app in Heq.
        destruct q; [done|simpl in Heq; lia].
    + done.
    + done.
    + intros (_ & _ & _ & _ & ?). congruence.
    + intros (_ & _ & _ & _ & ?). congruence.
Qed.

(** ** synchronize_folders: a pass over a replica that is already in sync *)

Section Settled.

Context (d : nat) (s r : path) (σ : state).

Hypothesis IH : ∀ s' r' σ',
  apart s' r' → settled (files σ') s' r' → wf_under (files σ') s' →
  shallower (files σ') s' d →
  is_dir (files σ' !! s') = true →
  wp (synchronize_folders d s' r') (settled_post s' σ') no_exn σ'.

Hypothesis Hapart : apart s r.
Hypothesis Hset : settled (files σ) s r.
Hypothesis Hwf : wf_under (files σ) s.
Hypothesis Hss : shallower (files σ) s (S d).
Hypothesis Hdir : is_dir (files σ !! s) = true.

Lemma settled_root : root_ok (files σ) s r = true ∧ is_dir (files σ !! r) = true.
Proof.
  pose proof (Hset []) as H0. rewrite !app_nil_r in H0. unfold root_ok.
  destruct (files σ !! s) as [[? ? ?|ms]|]; try done.
  destruct H0 as (_ & m' & -> & _). done.
Qed.

Lemma settled_agree item σi :
  item_pre r (files σ) (pass_keep s r) item σi →
  (∀ q, files σi !! (s ++ q) = files σ !! (s ++ q)) ∧
  (∀ q, files σi !! (r ++ item :: q) = files σ !! (r ++ item :: q)).
Proof.
  intros Hpre. split; intros q; apply Hpre.
  - right. left. by eexists.
  - left. exists q. by rewrite <-(assoc_L (++)).
Qed.

(** The file of the source folder at [item] is skipped. *)
Lemma settled_file item σi σ' :
  is_file (files σ !! (s ++ [item])) = true →
  item_pre r (files σ) (pass_keep s r) item σi →
  sync_item (synchronize_folders d) s r item σi = Returns () σ' →
  σ' = State (files σi) (log σi ++ [(INFO, Hash_match item)]) (clock σi).
Proof.
  intros Hfile Hpre Hrun. destruct (settled_agree item σi Hpre) as [A1 A2].
  destruct (sync_item_file_spec (synchronize_folders d) s r item σi
              (apart_ne _ _ Hapart))
    as (σ'' & new & Hrun' & Hck & Hlog & _ & _ & Hskip & _).
  { rewrite A1. by destruct (files σ !! (s ++ [item])) as [[? ? ?|?]|]. }
  rewrite Hrun in Hrun'. injection Hrun' as <-.
  rewrite A1, (A2 []) in Hskip.
  pose proof (Hset [item]) as Hin. unfold in_sync in Hin.
  destruct (files σ !! (s ++ [item])) as [[ms ds fs'|?]|] eqn:Hsrc; try done.
  destruct Hin as (Hsok & Hnew & Hhash).
  destruct Hskip as [Hfs Hnew'].
  { unfold skips, hash_value. rewrite Hhash.
    rewrite bool_decide_eq_true_2; [by rewrite bool_decide_eq_true_2|].
    by destruct (files σ !! (r ++ [item])). }
  unfold hash_errors in Hnew'. rewrite Hhash in Hnew'.
  unfold source_ok in Hsok. destruct (hash_result (Some (File ms ds fs'))); [|done].
  simpl in Hnew'. subst new. destruct σ' as [f l c]. simpl in *. by subst.
Qed.

(** The body of the first loop. *)
Lemma settled_forward item σi :
  is_Some (files σ !! (s ++ [item])) →
  item_pre r (files σ) (pass_keep s r) item σi →
  wp (sync_item (synchronize_folders d) s r item)
     (λ _ σ', item_post r (λ _ p o, o = files σ !! p) is_hash_match item σi σ')
     no_exn σi.
Proof.
  intros Hex Hpre. destruct (settled_agree item σi Hpre) as [A1 A2].
  destruct (is_dir (files σ !! (s ++ [item]))) eqn:Hd.
  - unfold sync_item. apply wp_bind. unfold wp at 1, os_path_isdir, os_path_join.
    rewrite A1, Hd. apply wp_bind.
    eapply wp_mono; [apply IH| |done].
    + by apply apart_join.
    + intros q. rewrite <-!(assoc_L (++)). simpl. rewrite A1, A2. apply Hset.
    + intros q x. rewrite <-!(assoc_L (++)), !A1. rewrite !(assoc_L (++)).
      rewrite <-(assoc_L (++) (s ++ [item])). by apply wf_under_join.
    + intros q. rewrite <-(assoc_L (++)), A1. intros Hq%Hss.
      rewrite length_app in Hq. simpl in Hq. lia.
    + by rewrite A1.
    + intros b σ' (_ & Hfs & Hck & new & Hlog & HL & _). apply wp_ret.
      split_and!.
      * intros p _. by rewrite Hfs.
      * intros p Hp. rewrite Hfs. apply Hpre. by left.
      * split; [done|]. by exists new.
  - assert (is_file (files σ !! (s ++ [item])) = true) as Hfile.
    { destruct (files σ !! (s ++ [item])) as [[? ? ?|?]|]; [done|done|].
      by destruct Hex. }
    destruct (sync_item_file_spec (synchronize_folders d) s r item σi
                (apart_ne _ _ Hapart)) as (σ' & new & Hrun & _).
    { by rewrite A1. }
    eapply wp_of_eq; [exact Hrun|].
    rewrite (settled_file item σi σ' Hfile Hpre Hrun). simpl. split_and!.
    + done.
    + intros p Hp. apply Hpre. by left.
    + apply grows_snoc; [apply grows_refl|]. by eexists.
Qed.

(** The body of the second loop: every entry of the replica folder has its
    source entry. *)
Lemma settled_sweep item σj :
  is_Some (files σ !! (r ++ [item])) →
  item_pre r (files σ) (pass_keep s r) item σj →
  wp (sweep_item d s r item)
     (λ _ σ', item_post r (λ _ p o, o = files σ !! p) is_hash_match item σj σ')
     no_exn σj.
Proof.
  intros Hex Hpre. destruct (settled_agree item σj Hpre) as [A1 A2].
  unfold sweep_item. apply wp_bind. unfold wp at 1, os_path_exists, os_path_join.
  rewrite A1. pose proof (Hset [item]) as Hin. unfold in_sync in Hin.
  destruct (files σ !! (s ++ [item])) as [e|] eqn:Hsrc.
  - rewrite bool_decide_eq_true_2 by (by eexists). simpl. apply wp_ret.
    split_and!; [done| |apply grows_refl].
    intros p Hp. apply Hpre. by left.
  - rewrite Hin in Hex. by destruct Hex.
Qed.

Lemma settled_loops :
  wp (sync_loops d s r) (settled_post s σ) no_exn σ.
Proof.
  destruct settled_root as [Hroot Hrdir].
  pose proof (Hset []) as H0. rewrite !app_nil_r in H0. unfold in_sync in H0.
  destruct (files σ !! s) as [[? ? ?|ms]|] eqn:Hs; try done.
  destruct H0 as (Hrs & mr & Hr & Hrr).
  assert (∀ (fs' : gmap path entry) (items : list string),
            (∀ p, (∀ item, item ∈ items → ¬ (r ++ [item]) `prefix_of` p) →
                  fs' !! p = files σ !! p) →
            (∀ item p, item ∈ items → (r ++ [item]) `prefix_of` p →
                       fs' !! p = files σ !! p) →
            fs' = files σ) as Hsame.
  { intros fs' items Hout Hin. apply map_eq. intros p.
    destruct (strip_prefix r p) as [[|item q]|] eqn:Hsp.
    - apply Hout. intros item _ Hpre. apply strip_prefix_Some in Hsp.
      rewrite app_nil_r in Hsp. subst p. by eapply prefix_snoc_not.
    - apply strip_prefix_Some in Hsp. subst p.
      destruct (decide (item ∈ items)) as [Hi|Hi].
      + apply (Hin item); [done|]. exists q. by rewrite <-(assoc_L (++)).
      + apply Hout. intros item' Hi' [k Hk]. rewrite <-(assoc_L (++)) in Hk.
        apply app_inv_head in Hk. simpl in Hk. congruence.
    - apply Hout. intros item _ Hpre%prefix_join_under.
      by apply strip_prefix_None in Hsp. }
  unfold sync_loops.
  apply wp_bind. unfold wp at 1, os_listdir. rewrite Hs, Hrs.
  apply wp_bind.
  eapply wp_mono;
    [apply (for_each_spec r _ (files σ) (pass_keep s r)
              (λ _ p o, o = files σ !! p) is_hash_match)| |done].
  { intros item p. by apply (pass_keep_outside s r Hapart). }
  { apply NoDup_children. }
  { intros item σi Hitem Hpre. apply settled_forward; [|done].
    by apply elem_of_children. }
  { intros item _ p _. done. }
  intros [] σ2 (Hfr2 & HΦ2 & Hlog2 & Hran2).
  pose proof (Hsame _ _ Hfr2 HΦ2) as Hfs2.
  apply wp_bind. unfold wp at 1, os_listdir. rewrite Hfs2, Hr, Hrr.
  apply wp_bind.
  eapply wp_mono;
    [apply (for_each_spec r _ (files σ) (pass_keep s r)
              (λ _ p o, o = files σ !! p) is_hash_match)| |done].
  { intros item p. by apply (pass_keep_outside s r Hapart). }
  { apply NoDup_children. }
  { intros item σj Hitem Hpre. apply settled_sweep; [|done].
    by apply elem_of_children. }
  { intros item _ p _. by rewrite Hfs2. }
  intros [] σ3 (Hfr3 & HΦ3 & Hlog3 & _). apply wp_ret.
  rewrite Hfs2 in Hfr3.
  pose proof (Hsame _ _ Hfr3 HΦ3) as Hfs3.
  destruct Hlog2 as [Hck2 (new2 & Hnew2 & HL2)].
  destruct Hlog3 as [Hck3 (new3 & Hnew3 & HL3)].
  split_and!; [done|done|congruence|].
  exists (new2 ++ new3). split_and!.
  - by rewrite Hnew3, Hnew2, (assoc_L (++)).
  - by apply Forall_app.
  - intros q item Hfile. apply elem_of_app. left.
    assert (∀ item0, is_Some (files σ !! (s ++ [item0])) →
              ∃ σa σb new,
                item_pre r (files σ) (pass_keep s r) item0 σa ∧
                sync_item (synchronize_folders d) s r item0 σa = Returns () σb ∧
                log σb = log σa ++ new ∧
                ∀ rec, rec ∈ new → rec ∈ new2) as Hran.
    { intros item0 Hex. apply elem_of_children in Hex.
      destruct (Hran2 item0 Hex)
        as (σa & σb & new & Ha & Hrun & _ & Hnew & bef & aft & Hlg).
      exists σa, σb, new. split_and!; [done..|].
      intros rec Hrec. rewrite Hnew2 in Hlg. apply app_inv_head in Hlg.
      rewrite Hlg, !elem_of_app. auto. }
    destruct q as [|item0 q].
    + destruct (Hran item) as (σa & σb & new & Ha & Hrun & Hnew & Hsub).
      { simpl in Hfile. by destruct (files σ !! (s ++ [item])). }
      apply Hsub. pose proof (settled_file item σa σb Hfile Ha Hrun) as ->.
      simpl in Hnew. apply app_inv_head in Hnew. subst new. left.
    + assert (is_dir (files σ !! (s ++ [item0])) = true) as Hd0.
      { destruct (is_dir (files σ !! (s ++ [item0]))) eqn:Hd; [done|].
        change (s ++ (item0 :: q) ++ [item]) with (s ++ [item0] ++ (q ++ [item]))
          in Hfile.
        rewrite wf_under_not_dir in Hfile; [done|done|done|].
        by destruct q. }
      destruct (Hran item0) as (σa & σb & new & Ha & Hrun & Hnew & Hsub).
      { by destruct (files σ !! (s ++ [item0])). }
      apply Hsub. destruct (settled_agree item0 σa Ha) as [A1 A2].
      unfold sync_item in Hrun.
      erewrite bind_Returns in Hrun
        by (unfold os_path_isdir, os_path_join; by rewrite A1, Hd0).
      simpl in Hrun. unfold os_path_join in Hrun.
      assert (wp (synchronize_folders d (s ++ [item0]) (r ++ [item0]))
                (settled_post (s ++ [item0]) σa) no_exn σa) as Hsub'.
      { apply IH.
        - by apply apart_join.
        - intros k. rewrite <-!(assoc_L (++)). simpl. rewrite A1, A2. apply Hset.
        - intros k x. rewrite <-!(assoc_L (++)), !A1. rewrite !(assoc_L (++)).
          rewrite <-(assoc_L (++) (s ++ [item0])). by apply wf_under_join.
        - intros k. rewrite <-(assoc_L (++)), A1. intros Hk%Hss.
          rewrite length_app in Hk. simpl in Hk. lia.
        - by rewrite A1. }
      apply wp_returns in Hsub' as (b & σ' & Hrun' & _ & _ & _ & new' & Hnew' & _ & Hall).
      erewrite bind_Returns in Hrun by exact Hrun'.
      injection Hrun as <-. rewrite Hnew in Hnew'. apply app_inv_head in Hnew'.
      subst new'. apply (Hall q item).
      rewrite <-(assoc_L (++)), A1. exact Hfile.
Qed.

End Settled.

Theorem synchronize_folders_settled depth : ∀ s r σ,
  apart s r → settled (files σ) s r → wf_under (files σ) s →
  shallower (files σ) s depth →
  is_dir (files σ !! s) = true →
  wp (synchronize_folders depth s r) (settled_post s σ) no_exn σ.
Proof.
  induction depth as [|d IH]; intros s r σ Hapart Hset Hwf Hss Hdir.
  { specialize (Hss []). rewrite app_nil_r in Hss.
    destruct (files σ !! s); [|done]. specialize (Hss ltac:(by eexists)).
    simpl in Hss. lia. }
  destruct (settled_root s r σ Hset Hdir) as [Hroot Hrdir].
  eapply wp_eq; [by apply synchronize_folders_root_pass|].
  unfold after_checks. rewrite Hrdir.
  by apply (settled_loops d s r σ IH).
Qed.

(** ** The checks are sound *)

Section Checks.

Implicit Types fs : gmap path entry.
Implicit Types p q s r : path.

Lemma under_all_spec fs p P :
  under_all fs p P = true →
  ∀ q e, fs !! (p ++ q) = Some e → P q e = true.
Proof.
  unfold under_all. rewrite forallb_forall. intros Hall q e Hq.
  specialize (Hall (p ++ q, e)). simpl in Hall. rewrite strip_prefix_app in Hall.
  apply Hall. apply list_elem_of_In. by apply elem_of_map_to_list.
Qed.

Lemma check_runnable_sound fs s r depth :
  check_runnable fs s r depth = true → runnable fs s r depth.
Proof.
  unfold check_runnable. rewrite !andb_true_iff, !bool_decide_eq_true.
  intros ((((((Hsr & Hrs) & Hd) & Hls) & Hlr) & Hss) & Hsr').
  split_and!; [by split|done|..].
  - intros q m Hq. by apply (under_all_spec _ _ _ Hls q (Dir m)).
  - intros q m Hq. by apply (under_all_spec _ _ _ Hlr q (Dir m)).
  - intros q [e Hq].
    pose proof (under_all_spec _ _ _ Hss q e Hq) as H. simpl in H.
    by apply bool_decide_eq_true in H.
  - intros q [e Hq].
    pose proof (under_all_spec _ _ _ Hsr' q e Hq) as H. simpl in H.
    by apply bool_decide_eq_true in H.
Qed.

Lemma check_wf_under_sound fs p : check_wf_under fs p = true → wf_under fs p.
Proof.
  intros Hwf q item [e He].
  pose proof (under_all_spec _ _ _ Hwf (q ++ [item]) e He) as H. simpl in H.
  fold (os_path_join q item) in H. rewrite dirname_join in H.
  by destruct q.
Qed.

Lemma check_structure_sound fs s r :
  check_structure fs s r = true → structure_ok fs s r.
Proof.
  unfold check_structure. rewrite !andb_true_iff.
  intros ((((Hwfs & Hwfr) & Hw) & Hk) & Hroot).
  split_and!; [by apply check_wf_under_sound..| | |done].
  - intros q m Hq. by apply (under_all_spec _ _ _ Hw q (Dir m)).
  - intros q. split; intros Hq.
    + destruct (fs !! (s ++ q)) as [[? ? ?|m]|] eqn:Hs; try done.
      pose proof (under_all_spec _ _ _ Hk q _ Hs) as H. simpl in H.
      by apply negb_true_iff in H.
    + destruct (fs !! (s ++ q)) as [[m d f|?]|] eqn:Hs; try done.
      pose proof (under_all_spec _ _ _ Hk q _ Hs) as H. simpl in H.
      by apply negb_true_iff in H.
Qed.

Lemma check_mirrorable_sound fs s r :
  check_mirrorable fs s r = true → mirrorable fs s r.
Proof.
  unfold check_mirrorable. rewrite andb_true_iff. intros [Hst Hf].
  split; [by apply check_structure_sound|].
  intros q Hq. destruct (fs !! (s ++ q)) as [[m d f|?]|] eqn:Hs; try done.
  by apply (under_all_spec _ _ _ Hf q _ Hs).
Qed.

Lemma check_files_readable_sound fs p :
  check_files_readable fs p = true → files_readable fs p.
Proof.
  intros Hr q m data fault Hq.
  by apply (under_all_spec _ _ _ Hr q _ Hq).
Qed.

End Checks.

(** ** MD5: the test suite of RFC 1321 *)

Section MD5_vectors.

Example md5_empty : md5 "" = "d41d8cd98f00b204e9800998ecf8427e".
Proof. vm_compute. reflexivity. Qed.

Example md5_a : md5 "a" = "0cc175b9c0f1b6a831c399e269772661".
Proof. vm_compute. reflexivity. Qed.

Example md5_abc : md5 "abc" = "900150983cd24fb0d6963f7d28e17f72".
Proof. vm_compute. reflexivity. Qed.

Example md5_message_digest : md5 "message digest" = "f96b697d7cb7938d525a2f31aaf161d0".
Proof. vm_compute. reflexivity. Qed.

Example md5_alphabet :
  md5 "abcdefghijklmnopqrstuvwxyz" = "c3fcd3d76192e4007dfb496cca67e13b".
Proof. vm_compute. reflexivity. Qed.

Example md5_two_blocks :
  md5 "12345678901234567890123456789012345678901234567890123456789012345678901234567890"
  = "57edf4a22be3c955ac49da2e2107b67a".
Proof. vm_compute. reflexivity. Qed.

End MD5_vectors.

(** * The properties of the specification *)

(** ** Convergence *)

Lemma mirrored_same_entry (fs : gmap path entry) s r q new :
  mirrorable fs s r →
  mirrored (fs !! (s ++ q)) (fs !! (r ++ q)) new →
  same_entry (fs !! (s ++ q)) new.
Proof.
  intros [(_ & _ & _ & Hk & _) Hf] Hm. unfold mirrored in Hm.
  specialize (Hf q). destruct (Hk q) as [_ Hk2].
  destruct (fs !! (s ++ q)) as [[m d f|m]|] eqn:Hs.
  - destruct Hm as [_ Hm]. specialize (Hf eq_refl). specialize (Hk2 eq_refl).
    destruct (Hm Hf) as [[Hsk ->]| ->]; [|done].
    unfold file_ok in Hf. rewrite Hsk in Hf.
    apply andb_true_iff in Hf as [_ Hd%bool_decide_eq_true].
    unfold skips in Hsk. apply andb_true_iff in Hsk as [Hex%bool_decide_eq_true _].
    destruct (fs !! (r ++ q)) as [[? ? ?|?]|]; simpl in *; try done.
  - simpl. by destruct new as [[? ? ?|?]|].
  - by subst.
Qed.

Lemma runnable_spec fs s r depth σ :
  files σ = fs → runnable fs s r depth →
  ∃ σ', synchronize_folders depth s r σ = Returns (root_ok fs s r) σ' ∧
        sync_post depth s r σ (root_ok fs s r) σ'.
Proof.
  intros <- (Ha & Hd & Hls & Hlr & Hss & Hsr).
  pose proof (synchronize_folders_spec depth s r σ Ha Hd Hls Hlr Hss Hsr) as H.
  apply wp_returns in H as (b & σ' & Hrun & Hpost).
  assert (b = root_ok (files σ) s r) as Hb by apply Hpost.
  exists σ'. by rewrite <-Hb.
Qed.

(** C1, as amended.  On a well-formed filesystem where source and replica
    are apart, every directory can be listed, no path is a file on one side
    and a directory on the other, the replica's directories accept changes
    and every source file can be mirrored (it can be read, and its replica
    counterpart is missing, or writable, or has the same bytes whenever it
    has the same hash): one call of [synchronize_folders] returns true and
    leaves under the replica exactly what is under the source, entry by
    entry, with the same kinds and the same bytes, and the source as it was. *)
Theorem convergence depth s r σ :
  runnable (files σ) s r depth → mirrorable (files σ) s r →
  ∃ σ', synchronize_folders depth s r σ = Returns true σ' ∧
        (∀ q, same_entry (files σ !! (s ++ q)) (files σ' !! (r ++ q))) ∧
        (∀ q, files σ' !! (s ++ q) = files σ !! (s ++ q)).
Proof.
  intros Hrun Hmir.
  destruct (runnable_spec _ s r depth σ eq_refl Hrun) as (σ' & Heq & Hpost).
  destruct Hmir as [Hok Hf].
  assert (root_ok (files σ) s r = true) as Hroot by apply Hok.
  rewrite Hroot in Heq, Hpost. exists σ'. split; [done|].
  destruct Hpost as (_ & Hfr & _ & _ & _ & _ & _ & Hm). split.
  - intros q. apply (mirrored_same_entry _ s r); [by split|by apply Hm].
  - intros q. apply Hfr. destruct Hrun as (Ha & _).
    apply apart_not_under with (s := s); [done|by eexists].
Qed.

Lemma convergence_witness :
  ∃ σ', synchronize_folders 5 ["src"] ["rep"] (initial scenario_fs) = Returns true σ' ∧
        (∀ q, same_entry (scenario_fs !! (["src"] ++ q)) (files σ' !! (["rep"] ++ q))) ∧
        (∀ q, files σ' !! (["src"] ++ q) = scenario_fs !! (["src"] ++ q)).
Proof.
  apply (convergence 5 ["src"] ["rep"] (initial scenario_fs)).
  - apply check_runnable_sound. vm_compute. reflexivity.
  - apply check_mirrorable_sound. vm_compute. reflexivity.
Defined.

(** C1 as stated fails: with a file in the source where the replica has a
    directory, the call returns true and the replica still has the
    directory. *)
Lemma convergence_counterexample :
  ∃ σ', synchronize_folders 5 ["src"] ["rep"] (initial mismatch_fs) = Returns true σ' ∧
        mismatch_fs !! ["src"; "x"] = Some (plain_file "hi") ∧
        files σ' !! ["rep"; "x"] = Some (Dir rw) ∧
        ¬ same_entry (mismatch_fs !! ["src"; "x"]) (files σ' !! ["rep"; "x"]).
Proof.
  eexists. split; [vm_compute; reflexivity|].
  split_and!; [by vm_compute..|].
  vm_compute. tauto.
Qed.

(** The end-to-end scenario of the specification. *)
Example scenario_result :
  ∃ σ', synchronize_folders 5 ["src"] ["rep"] (initial scenario_fs) = Returns true σ' ∧
        files σ' =
          list_to_map
            [ ([], Dir rw);
              (["src"], Dir rw);
              (["src"; "a.txt"], plain_file "hi");
              (["src"; "sub"], Dir rw);
              (["src"; "sub"; "b.txt"], plain_file "bye");
              (["rep"], Dir rw);
              (["rep"; "a.txt"], plain_file "hi");
              (["rep"; "sub"], Dir rw);
              (["rep"; "sub"; "b.txt"], plain_file "bye") ] ∧
        log σ' =
          [ (INFO, Synchronizing_file ["rep"; "a.txt"]);
            (INFO, Synchronizing_folder ["rep"; "sub"]);
            (INFO, Synchronizing_file ["rep"; "sub"; "b.txt"]);
            (INFO, Deleting_file ["rep"; "c.txt"]) ].
Proof.
  eexists. split; [vm_compute; reflexivity|].
  split; refine (bool_decide_eq_true_1 _ _); vm_compute; reflexivity.
Qed.

(** ** The result of a pass *)

(** A pass that runs to its end.  When source and replica are apart and
    every directory under them can be listed, [synchronize_folders] returns,
    and its result is true exactly when the checks at the root succeed: the
    source is a directory and the replica is a directory or could be
    created.  What goes wrong for one item, or makes a recursive call return
    false, does not change the result. *)
Lemma result_is_root_checks depth s r σ :
  runnable (files σ) s r depth →
  ∃ σ', synchronize_folders depth s r σ = Returns (root_ok (files σ) s r) σ'.
Proof.
  intros Hrun.
  destruct (runnable_spec _ s r depth σ eq_refl Hrun) as (σ' & Heq & _).
  by exists σ'.
Qed.

Lemma result_is_root_checks_witness :
  ∃ σ', synchronize_folders 5 ["src"] ["rep"] (initial troubled_fs) =
        Returns (root_ok troubled_fs ["src"] ["rep"]) σ'.
Proof.
  apply (result_is_root_checks 5 ["src"] ["rep"] (initial troubled_fs)).
  apply check_runnable_sound. vm_compute. reflexivity.
Defined.

(** In that pass the recursive call fails and two files cannot be
    synchronized; the result is true all the same. *)
Example troubled_pass :
  ∃ σ', synchronize_folders 5 ["src"] ["rep"] (initial troubled_fs) = Returns true σ' ∧
        (ERROR, Replica_is_not_a_folder) ∈ log σ' ∧
        (ERROR, Failed_to_synchronize ["src"; "secret"] ["rep"; "secret"] EACCES) ∈ log σ' ∧
        (ERROR, Failed_to_synchronize ["src"; "a.txt"] ["rep"; "a.txt"] EACCES) ∈ log σ'.
Proof.
  eexists. split; [vm_compute; reflexivity|].
  split_and!; refine (bool_decide_eq_true_1 _ _); vm_compute; reflexivity.
Qed.

(** The listing of the source folder comes after the checks and outside
    every [try]: when it fails the call raises. *)
Lemma unlistable_source_pass depth s r σ m :
  root_ok (files σ) s r = true →
  files σ !! s = Some (Dir m) → readable m = false →
  synchronize_folders (S depth) s r σ = Raises (OSError EACCES) (after_checks r σ).
Proof.
  intros Hroot Hs Hm. rewrite synchronize_folders_root_pass by done.
  unfold sync_loops. apply bind_Raises. unfold os_listdir.
  assert (files (after_checks r σ) !! s = Some (Dir m)) as ->; [|by rewrite Hm].
  unfold after_checks.
  destruct (is_dir (files σ !! r)) eqn:Hr; [done|]. simpl.
  rewrite lookup_insert_ne; [done|]. intros <-. by rewrite Hs in Hr.
Qed.

(** C10 fails in the code.  The checks at the root succeed, and the call
    does not return true: it does not return at all.  [os.listdir] is
    called outside every [try], so a source folder that cannot be listed
    makes [synchronize_folders] raise [OSError]; and since the recursive
    call is not guarded either, the same failure inside a recursive call,
    for a subfolder that cannot be listed, comes out of the outer call as
    an exception too.  The result is not regardless of failures inside
    recursive calls. *)
Theorem root_checks_pass_yet_raises depth s r σ :
  root_ok (files σ) s r = true →
  (∀ m, files σ !! s = Some (Dir m) → readable m = false →
     synchronize_folders (S depth) s r σ
       = Raises (OSError EACCES) (after_checks r σ)) ∧
  (∀ ms item m,
     files σ !! s = Some (Dir ms) → readable ms = true →
     is_dir (files σ !! r) = true →
     children (files σ) s = [item] →
     files σ !! (s ++ [item]) = Some (Dir m) → readable m = false →
     is_dir (files σ !! (r ++ [item])) = true →
     synchronize_folders (S depth) (s ++ [item]) (r ++ [item]) σ
       = Raises (OSError EACCES) σ ∧
     synchronize_folders (S (S depth)) s r σ = Raises (OSError EACCES) σ).
Proof.
  intros Hroot. split.
  - intros m Hs Hm. by apply (unlistable_source_pass depth s r σ m).
  - intros ms item m Hs Hms Hr Hch Hitem Hm Hritem.
    assert (synchronize_folders (S depth) (s ++ [item]) (r ++ [item]) σ
            = Raises (OSError EACCES) σ) as Hsub.
    { rewrite (unlistable_source_pass depth (s ++ [item]) (r ++ [item]) σ m);
        [|by unfold root_ok; rewrite Hitem, Hritem|done|done].
      unfold after_checks. by rewrite Hritem. }
    split; [done|].
    rewrite synchronize_folders_root_pass by done.
    unfold after_checks. rewrite Hr. unfold sync_loops.
    erewrite bind_Returns by (unfold os_listdir; by rewrite Hs, Hms, Hch).
    apply bind_Raises. simpl. apply bind_Raises.
    unfold sync_item, os_path_join.
    erewrite bind_Returns by (unfold os_path_isdir; reflexivity).
    rewrite Hitem. simpl. by apply bind_Raises.
Qed.

Lemma root_checks_pass_yet_raises_witness :
  synchronize_folders 1 ["src"] ["rep"] (initial unlistable_fs)
    = Raises (OSError EACCES) (after_checks ["rep"] (initial unlistable_fs)) ∧
  synchronize_folders 1 (["src"] ++ ["inner"]) (["rep"] ++ ["inner"])
                      (initial unlistable_sub_fs)
    = Raises (OSError EACCES) (initial unlistable_sub_fs) ∧
  synchronize_folders 2 ["src"] ["rep"] (initial unlistable_sub_fs)
    = Raises (OSError EACCES) (initial unlistable_sub_fs).
Proof.
  split.
  - apply (proj1 (root_checks_pass_yet_raises 0 ["src"] ["rep"] (initial unlistable_fs)
                    ltac:(vm_compute; reflexivity)) (Mode false true));
      reflexivity.
  - apply (proj2 (root_checks_pass_yet_raises 0 ["src"] ["rep"]
                    (initial unlistable_sub_fs) ltac:(vm_compute; reflexivity))
             rw "inner" (Mode false true));
      vm_compute; reflexivity.
Defined.

(** The two failures at work: a source folder that cannot be listed, and a
    subfolder that cannot be listed. *)
Example unlistable_passes :
  root_ok unlistable_fs ["src"] ["rep"] = true ∧
  synchronize_folders 5 ["src"] ["rep"] (initial unlistable_fs) =
    Raises (OSError EACCES) (initial unlistable_fs) ∧
  root_ok unlistable_sub_fs ["src"] ["rep"] = true ∧
  children unlistable_sub_fs ["src"] = ["inner"] ∧
  synchronize_folders 5 ["src"] ["rep"] (initial unlistable_sub_fs) =
    Raises (OSError EACCES) (initial unlistable_sub_fs).
Proof. split_and!; by vm_compute. Qed.

(** ** A failed check after the replica folder was created *)

(** C9, as amended.  When the source exists and is not a directory and the
    replica does not exist, [synchronize_folders] returns false.  If the
    replica folder can be created it has been: the filesystem has a new,
    empty directory at the replica path.  If it cannot, the filesystem is
    as it was. *)
Theorem not_a_folder_after_mkdir depth s r σ :
  is_Some (files σ !! s) → is_dir (files σ !! s) = false →
  files σ !! r = None →
  ∃ σ', synchronize_folders (S depth) s r σ = Returns false σ' ∧
        match check_parent (files σ) (dirname r) with
        | None =>
            files σ' = <[r := Dir rw]> (files σ) ∧
            log σ' = log σ ++ [(INFO, Synchronizing_folder r);
                               (ERROR, Source_is_not_a_folder)]
        | Some err =>
            files σ' = files σ ∧
            log σ' = log σ ++ [(ERROR, Failed_to_create_replica_folder err)]
        end.
Proof.
  intros Hex Hnd Hr. simpl.
  erewrite bind_Returns by reflexivity.
  rewrite (bool_decide_eq_true_2 _ Hex). simpl.
  erewrite bind_Returns by reflexivity.
  rewrite bool_decide_eq_false_2 by (rewrite Hr; by intros [??]). simpl.
  unfold try_except, os_mkdir.
  destruct (check_parent (files σ) (dirname r)) as [err|] eqn:Hpar.
  - erewrite bind_Returns.
    2:{ erewrite bind_Raises by (by rewrite Hr, Hpar). simpl. reflexivity. }
    simpl. eexists. split; [reflexivity|]. done.
  - erewrite bind_Returns.
    2:{ erewrite bind_Returns by (by rewrite Hr, Hpar).
        erewrite bind_Returns by reflexivity. reflexivity. }
    simpl. erewrite bind_Returns by reflexivity. simpl.
    assert (s ≠ r) as Hne by (intros ->; rewrite Hr in Hex; by destruct Hex).
    rewrite lookup_insert_ne, Hnd by done. simpl.
    eexists. split; [reflexivity|]. simpl. by rewrite <-(assoc_L (++)).
Qed.

Lemma not_a_folder_after_mkdir_witness :
  ∃ σ', synchronize_folders 1 ["src"] ["rep"] (initial file_source_fs) = Returns false σ' ∧
        match check_parent file_source_fs (dirname ["rep"]) with
        | None =>
            files σ' = <[["rep"] := Dir rw]> file_source_fs ∧
            log σ' = [] ++ [(INFO, Synchronizing_folder ["rep"]);
                            (ERROR, Source_is_not_a_folder)]
        | Some err =>
            files σ' = file_source_fs ∧
            log σ' = [] ++ [(ERROR, Failed_to_create_replica_folder err)]
        end.
Proof.
  apply (not_a_folder_after_mkdir 0 ["src"] ["rep"] (initial file_source_fs)).
  - vm_compute. by eexists.
  - reflexivity.
  - reflexivity.
Defined.

(** C9 as stated fails: when the folder that should hold the replica does
    not exist, the call returns false and has created nothing. *)
Lemma not_a_folder_after_mkdir_counterexample :
  is_file (file_source_fs !! ["src"]) = true ∧
  file_source_fs !! ["backups"; "rep"] = None ∧
  synchronize_folders 5 ["src"] ["backups"; "rep"] (initial file_source_fs) =
    Returns false
      (State file_source_fs [(ERROR, Failed_to_create_replica_folder ENOENT)] 0).
Proof. split_and!; by vm_compute. Qed.

(** ** The hasher *)

Section Hasher.

Lemma length_hex bs : String.length (MD5.hex bs) = 2 * length bs.
Proof. induction bs as [|b bs IH]; simpl; [done|]. rewrite IH. lia. Qed.

Lemma length_le_bytes n x : length (MD5.le_bytes n x) = n.
Proof. unfold MD5.le_bytes. by rewrite length_fmap, length_seq. Qed.

(** The fingerprint has a fixed length: 32 hexadecimal digits. *)
Lemma hexdigest_length h : String.length (MD5.hexdigest h) = 32.
Proof.
  unfold MD5.hexdigest, MD5.digest. rewrite length_hex.
  destruct (MD5.digest_state h). by rewrite !length_app, !length_le_bytes.
Qed.

(** The hash object has been fed the whole file, chunk by chunk. *)
Lemma read_chunks_all σ p m data :
  files σ !! p = Some (File m data None) →
  read_chunks (S (length data)) (Handle p 0) MD5.new σ = Returns data σ.
Proof.
  intros Hp. rewrite (read_chunks_spec σ p m data None) by (done || lia).
  simpl. by rewrite drop_0.
Qed.

End Hasher.

(** C3.  When the file cannot be opened, or a read fails before the end of
    the file, [calculate_file_hash] does not raise: it logs the error and
    returns [None], the error result of its contract.  When the file can be
    read to its end it returns the fingerprint of all its bytes, which is 32
    characters long. *)
Theorem hasher_contract p σ :
  (∀ err, open_rb p σ = Raises (OSError err) σ →
     calculate_file_hash p σ =
       Returns None
         (State (files σ) (log σ ++ [(ERROR, Failed_to_open_file p err)]) (clock σ))) ∧
  (∀ m data k,
     files σ !! p = Some (File m data (Some k)) → readable m = true →
     k < length data →
     calculate_file_hash p σ =
       Returns None
         (State (files σ) (log σ ++ [(ERROR, Failed_to_open_file p EIO)]) (clock σ))) ∧
  (∀ m data fault,
     files σ !! p = Some (File m data fault) → readable m = true →
     hits_fault fault 0 (length data) = false →
     calculate_file_hash p σ = Returns (Some (MD5.hexdigest data)) σ ∧
     String.length (MD5.hexdigest data) = 32).
Proof.
  rewrite calculate_file_hash_spec. unfold hash_result, open_rb. split_and!.
  - intros err. destruct (files σ !! p) as [[m data fault|m]|].
    + destruct (readable m); [done|]. by intros [= <-].
    + by intros [= <-].
    + by intros [= <-].
  - intros m data k -> -> Hk. simpl.
    rewrite bool_decide_eq_true_2 by lia. done.
  - intros m data fault -> -> ->. split; [done|apply hexdigest_length].
Qed.

Lemma hasher_contract_witness :
  calculate_file_hash ["locked"] (initial damaged_fs) =
    Returns None
      (State damaged_fs [(ERROR, Failed_to_open_file ["locked"] EACCES)] 0) ∧
  calculate_file_hash ["big"] (initial damaged_fs) =
    Returns None
      (State damaged_fs [(ERROR, Failed_to_open_file ["big"] EIO)] 0) ∧
  calculate_file_hash ["ok"] (initial damaged_fs) =
    Returns (Some (MD5.hexdigest (bytes_of_string "hi"))) (initial damaged_fs) ∧
  String.length (MD5.hexdigest (bytes_of_string "hi")) = 32.
Proof.
  split_and!.
  - apply (proj1 (hasher_contract ["locked"] (initial damaged_fs)) EACCES).
    reflexivity.
  - apply (proj1 (proj2 (hasher_contract ["big"] (initial damaged_fs)))
             rw (replicate 4200 "x"%byte) 4100).
    + reflexivity.
    + reflexivity.
    + vm_compute. lia.
  - apply (proj2 (proj2 (hasher_contract ["ok"] (initial damaged_fs)))
             rw (bytes_of_string "hi") None); reflexivity.
  - apply (proj2 (proj2 (hasher_contract ["ok"] (initial damaged_fs)))
             rw (bytes_of_string "hi") None); reflexivity.
Defined.

(** The read of the damaged file fails in the second chunk: the first
    chunk has been read and fed to the hash object. *)
Example fails_mid_stream :
  file_read (Handle ["big"] 0) CHUNK_SIZE (initial damaged_fs) =
    Returns (replicate 4096 "x"%byte, Handle ["big"] 4096) (initial damaged_fs) ∧
  file_read (Handle ["big"] 4096) CHUNK_SIZE (initial damaged_fs) =
    Raises (OSError EIO) (initial damaged_fs).
Proof. split; by vm_compute. Qed.

(** ** One file of a folder *)

(** In a pass that returns true, the first loop handled the file [item] of
    the source folder from a state in which the file, its replica
    counterpart and the replica folder were as the checks left them. *)
Lemma top_file_ran depth s r σ σ' item :
  apart s r →
  sync_post depth s r σ true σ' →
  is_Some (files σ !! (s ++ [item])) →
  ∃ σa σb new,
    files σa !! (s ++ [item]) = files σ !! (s ++ [item]) ∧
    files σa !! (r ++ [item]) = files σ !! (r ++ [item]) ∧
    check_parent (files σa) r = check_parent (files (after_checks r σ)) r ∧
    sync_item (synchronize_folders (pred depth)) s r item σa = Returns () σb ∧
    files σ' !! (r ++ [item]) = files σb !! (r ++ [item]) ∧
    log σb = log σa ++ new ∧
    ∃ before after, log σ' = log σ ++ before ++ new ++ after.
Proof.
  intros Ha (_ & _ & Hr & _ & _ & Hran & _) Hex.
  destruct (Hran eq_refl item Hex)
    as (σa & σb & new & Hagree & Hra & Hrun & Hfin & Hnew & Hlog).
  exists σa, σb, new. split_and!; try done.
  - apply Hagree. left. by eexists.
  - apply Hagree. by right.
  - apply check_parent_ext. by rewrite Hra, Hr.
  - by apply Hfin.
Qed.

(** C8.  Take a file of the source folder whose replica counterpart exists,
    and suppose neither can be opened for reading.  Then
    [calculate_file_hash] returns [None] for both, the two results are
    equal, and the body of the first loop logs a hash match and leaves the
    filesystem as it is: it attempts no copy and logs no failure to
    synchronize.  The pass returns true, the replica entry is what it was,
    and these three records are in its log. *)
Theorem both_unreadable_is_a_match depth s r item σ e1 e2 :
  runnable (files σ) s r depth → root_ok (files σ) s r = true →
  is_file (files σ !! (s ++ [item])) = true →
  is_Some (files σ !! (r ++ [item])) →
  open_rb (s ++ [item]) σ = Raises (OSError e1) σ →
  open_rb (r ++ [item]) σ = Raises (OSError e2) σ →
  let records := match_records s r item e1 e2 in
  (∀ σ0, files σ0 = files σ →
     calculate_file_hash (s ++ [item]) σ0 =
       Returns None
         (State (files σ0) (log σ0 ++ [(ERROR, Failed_to_open_file (s ++ [item]) e1)])
                (clock σ0))) ∧
  (∀ σ0, files σ0 = files σ →
     calculate_file_hash (r ++ [item]) σ0 =
       Returns None
         (State (files σ0) (log σ0 ++ [(ERROR, Failed_to_open_file (r ++ [item]) e2)])
                (clock σ0))) ∧
  (∀ recurse,
     sync_item recurse s r item σ =
       Returns () (State (files σ) (log σ ++ records) (clock σ))) ∧
  ∃ σ' before after,
    synchronize_folders depth s r σ = Returns true σ' ∧
    files σ' !! (r ++ [item]) = files σ !! (r ++ [item]) ∧
    log σ' = log σ ++ before ++ records ++ after.
Proof.
  intros Hrun Hroot Hfile Hex Ho1 Ho2 records.
  assert (apart s r) as Ha by apply Hrun.
  assert (hash_result (files σ !! (s ++ [item])) = inr e1) as Hh1.
  { unfold open_rb in Ho1. unfold hash_result.
    destruct (files σ !! (s ++ [item])) as [[m ? ?|?]|]; [|congruence..].
    destruct (readable m); congruence. }
  assert (hash_result (files σ !! (r ++ [item])) = inr e2) as Hh2.
  { unfold open_rb in Ho2. unfold hash_result.
    destruct (files σ !! (r ++ [item])) as [[m ? ?|?]|]; [|congruence..].
    destruct (readable m); congruence. }
  assert (∀ recurse σa σb,
            files σa !! (s ++ [item]) = files σ !! (s ++ [item]) →
            files σa !! (r ++ [item]) = files σ !! (r ++ [item]) →
            sync_item recurse s r item σa = Returns () σb →
            σb = State (files σa) (log σa ++ records) (clock σa)) as Hitem.
  { intros recurse σa σb A1 A2 Hrun'.
    destruct (sync_item_file_spec recurse s r item σa (apart_ne _ _ Ha))
      as (σ'' & new & Hrun'' & Hck & Hlog & _ & _ & Hskip & _).
    { rewrite A1. by destruct (files σ !! (s ++ [item])) as [[? ? ?|?]|]. }
    rewrite Hrun' in Hrun''. injection Hrun'' as <-.
    rewrite A1, A2 in Hskip. destruct Hskip as [Hfs Hnew].
    { unfold skips, hash_value. rewrite Hh1, Hh2.
      by rewrite !bool_decide_eq_true_2. }
    unfold hash_errors in Hnew. rewrite Hh1, Hh2 in Hnew. simpl in Hnew.
    destruct σb as [f l c]. simpl in *. by subst. }
  split_and!.
  - intros σ0 H0. by rewrite calculate_file_hash_spec, H0, Hh1.
  - intros σ0 H0. by rewrite calculate_file_hash_spec, H0, Hh2.
  - intros recurse.
    destruct (sync_item_file_spec recurse s r item σ (apart_ne _ _ Ha))
      as (σ'' & new & Hrun'' & _).
    { by destruct (files σ !! (s ++ [item])) as [[? ? ?|?]|]. }
    rewrite Hrun''. f_equal. by apply (Hitem recurse σ).
  - destruct (runnable_spec _ s r depth σ eq_refl Hrun) as (σ' & Heq & Hpost).
    rewrite Hroot in Heq, Hpost.
    destruct (top_file_ran depth s r σ σ' item Ha Hpost)
      as (σa & σb & new & A1 & A2 & _ & Hrun' & Hfin & Hnew & bef & aft & Hlog).
    { by destruct (files σ !! (s ++ [item])). }
    pose proof (Hitem _ σa σb A1 A2 Hrun') as ->. simpl in *.
    apply app_inv_head in Hnew. subst new.
    exists σ', bef, aft. split_and!; [done|congruence|done].
Qed.

Lemma both_unreadable_is_a_match_witness :
  (∀ σ0, files σ0 = both_locked_fs →
     calculate_file_hash (["src"] ++ ["k"]) σ0 =
       Returns None
         (State (files σ0)
                (log σ0 ++ [(ERROR, Failed_to_open_file (["src"] ++ ["k"]) EACCES)])
                (clock σ0))) ∧
  (∀ σ0, files σ0 = both_locked_fs →
     calculate_file_hash (["rep"] ++ ["k"]) σ0 =
       Returns None
         (State (files σ0)
                (log σ0 ++ [(ERROR, Failed_to_open_file (["rep"] ++ ["k"]) EACCES)])
                (clock σ0))) ∧
  (∀ recurse,
     sync_item recurse ["src"] ["rep"] "k" (initial both_locked_fs) =
       Returns () (State both_locked_fs
                     ([] ++ match_records ["src"] ["rep"] "k" EACCES EACCES) 0)) ∧
  ∃ σ' before after,
    synchronize_folders 5 ["src"] ["rep"] (initial both_locked_fs) = Returns true σ' ∧
    files σ' !! ["rep"; "k"] = both_locked_fs !! ["rep"; "k"] ∧
    log σ' = [] ++ before ++ match_records ["src"] ["rep"] "k" EACCES EACCES ++ after.
Proof.
  apply (both_unreadable_is_a_match 5 ["src"] ["rep"] "k" (initial both_locked_fs)
           EACCES EACCES).
  - apply check_runnable_sound. vm_compute. reflexivity.
  - vm_compute. reflexivity.
  - vm_compute. reflexivity.
  - vm_compute. by eexists.
  - vm_compute. reflexivity.
  - vm_compute. reflexivity.
Defined.

(** ** Partial failure isolation *)

Lemma check_siblings_ok_sound (fs : gmap path entry) s r bad parent :
  check_siblings_ok fs s r bad parent = true → siblings_ok fs s r bad parent.
Proof.
  unfold check_siblings_ok. rewrite forallb_forall. intros Hall item Hne Hex.
  specialize (Hall item). rewrite <-list_elem_of_In, elem_of_children in Hall.
  specialize (Hall Hex). rewrite bool_decide_eq_false_2 in Hall by done.
  by apply andb_true_iff in Hall.
Qed.

Lemma file_ok_same_entry src old parent new :
  is_file src = true → file_ok src old parent = true →
  skips src old = true ∧ new = old ∨
  new = Some (File (target_mode old) (file_data src) None) →
  same_entry src new.
Proof.
  intros Hfile Hok Hnew. unfold file_ok in Hok.
  apply andb_true_iff in Hok as [Hsrc Hok].
  destruct src as [[ms ds fs|?]|]; try done.
  destruct Hnew as [[Hsk ->]| ->]; [|done].
  rewrite Hsk in Hok. apply bool_decide_eq_true in Hok.
  unfold skips in Hsk. apply andb_true_iff in Hsk as [_ Hh%bool_decide_eq_true].
  unfold source_ok, hash_value in *.
  destruct (hash_result (Some (File ms ds fs))); [|done].
  destruct old as [[mo dold fo|mo]|]; simpl in *; [done|by compute in Hh..].
Qed.

(** C4.  Take a pass over a source folder one of whose files, [bad], meets
    an I/O error when it is hashed or copied, while every other entry of
    the folder is a file that can be mirrored.  The error is logged, the
    pass returns true, and each of the other files is in the replica with
    the bytes it has in the source. *)
Theorem partial_failure_isolation depth s r bad σ :
  runnable (files σ) s r depth → root_ok (files σ) s r = true →
  let parent := check_parent (files (after_checks r σ)) r in
  is_file (files σ !! (s ++ [bad])) = true →
  clean (files σ !! (s ++ [bad])) (files σ !! (r ++ [bad])) parent = false →
  siblings_ok (files σ) s r bad parent →
  ∃ σ' new,
    synchronize_folders depth s r σ = Returns true σ' ∧
    log σ' = log σ ++ new ∧
    (∃ rec, rec ∈ new ∧ is_error_about (s ++ [bad]) (r ++ [bad]) rec) ∧
    (∀ item, item ≠ bad → is_Some (files σ !! (s ++ [item])) →
       same_entry (files σ !! (s ++ [item])) (files σ' !! (r ++ [item]))).
Proof.
  intros Hrun Hroot parent Hbad Hdirty Hsib.
  assert (apart s r) as Ha by apply Hrun.
  destruct (runnable_spec _ s r depth σ eq_refl Hrun) as (σ' & Heq & Hpost).
  rewrite Hroot in Heq, Hpost.
  assert (∃ new, log σ' = log σ ++ new) as [new Hnew].
  { destruct Hpost as (_ & _ & _ & _ & [_ (new & Hnew & _)] & _). by exists new. }
  exists σ', new. split_and!; [done|done| |].
  - destruct (top_file_ran depth s r σ σ' bad Ha Hpost)
      as (σa & σb & newi & A1 & A2 & A3 & Hrun' & _ & Hnewi & bef & aft & Hlog).
    { by destruct (files σ !! (s ++ [bad])). }
    destruct (sync_item_file_spec (synchronize_folders (pred depth)) s r bad σa
                (apart_ne _ _ Ha))
      as (σ'' & newi' & Hrun'' & _ & Hlog' & _ & _ & _ & _ & Herr & _).
    { rewrite A1. by destruct (files σ !! (s ++ [bad])) as [[? ? ?|?]|]. }
    rewrite Hrun' in Hrun''. injection Hrun'' as <-.
    rewrite Hnewi in Hlog'. apply app_inv_head in Hlog'. subst newi'.
    rewrite A1, A2, A3 in Herr. destruct (Herr Hdirty) as (rec & Hrec & Habout).
    exists rec. split; [|done].
    rewrite Hnew in Hlog. apply app_inv_head in Hlog. rewrite Hlog.
    rewrite !elem_of_app. auto.
  - intros item Hne Hex. destruct (Hsib item Hne Hex) as [Hfile Hok].
    destruct (top_file_ran depth s r σ σ' item Ha Hpost Hex)
      as (σa & σb & newi & A1 & A2 & A3 & Hrun' & Hfin & _).
    destruct (sync_item_file_spec (synchronize_folders (pred depth)) s r item σa
                (apart_ne _ _ Ha))
      as (σ'' & newi' & Hrun'' & _ & _ & _ & _ & Hskip & Hcopy & _).
    { rewrite A1. by destruct (files σ !! (s ++ [item])) as [[? ? ?|?]|]. }
    rewrite Hrun' in Hrun''. injection Hrun'' as <-.
    rewrite A1, A2 in Hskip. rewrite A1, A2, A3 in Hcopy.
    rewrite Hfin.
    apply (file_ok_same_entry _ (files σ !! (r ++ [item])) parent); [done|done|].
    destruct (skips (files σ !! (s ++ [item])) (files σ !! (r ++ [item]))) eqn:Hsk.
    + left. split; [done|]. destruct (Hskip eq_refl) as [-> _]. done.
    + right. apply Hcopy; [done|]. unfold file_ok in Hok. by rewrite Hsk in Hok.
Qed.

Lemma partial_failure_isolation_witness :
  ∃ σ' new,
    synchronize_folders 5 ["src"] ["rep"] (initial siblings_fs) = Returns true σ' ∧
    log σ' = [] ++ new ∧
    (∃ rec, rec ∈ new ∧ is_error_about ["src"; "b.txt"] ["rep"; "b.txt"] rec) ∧
    (∀ item, item ≠ "b.txt" → is_Some (siblings_fs !! (["src"] ++ [item])) →
       same_entry (siblings_fs !! (["src"] ++ [item]))
                  (files σ' !! (["rep"] ++ [item]))).
Proof.
  apply (partial_failure_isolation 5 ["src"] ["rep"] "b.txt" (initial siblings_fs)).
  - apply check_runnable_sound. vm_compute. reflexivity.
  - vm_compute. reflexivity.
  - vm_compute. reflexivity.
  - vm_compute. reflexivity.
  - apply check_siblings_ok_sound. vm_compute. reflexivity.
Defined.

(** The pass over the three siblings: the two good files are copied, the
    unreadable one is reported, and the pass returns true. *)
Example siblings_pass :
  ∃ σ', synchronize_folders 5 ["src"] ["rep"] (initial siblings_fs) = Returns true σ' ∧
        files σ' !! ["rep"; "a.txt"] = Some (plain_file "hi") ∧
        files σ' !! ["rep"; "b.txt"] = None ∧
        files σ' !! ["rep"; "c.txt"] = Some (plain_file "sea") ∧
        (ERROR, Failed_to_synchronize ["src"; "b.txt"] ["rep"; "b.txt"] EACCES) ∈ log σ'.
Proof.
  eexists. split; [vm_compute; reflexivity|].
  split_and!; refine (bool_decide_eq_true_1 _ _); vm_compute; reflexivity.
Qed.

(** ** Idempotence *)

(** After a pass over a mirrorable filesystem whose replica files can all
    be read, the replica is in sync with the source. *)
Lemma settled_after_pass depth s r σ σ' :
  runnable (files σ) s r depth → mirrorable (files σ) s r →
  files_readable (files σ) r →
  sync_post depth s r σ true σ' →
  settled (files σ') s r ∧
  (∀ q, files σ' !! (s ++ q) = files σ !! (s ++ q)).
Proof.
  intros (Ha & _ & Hls & Hlr & _) [Hok Hf] Hread (_ & Hfr & _ & Heff & _ & _ & _ & Hm).
  assert (∀ q, files σ' !! (s ++ q) = files σ !! (s ++ q)) as Hsrc.
  { intros q. apply Hfr. apply apart_not_under with (s := s); [done|by eexists]. }
  split; [|done]. intros q. rewrite Hsrc.
  specialize (Hm Hok q). specialize (Heff q). specialize (Hf q).
  destruct Hok as (_ & _ & _ & Hk & _). destruct (Hk q) as [_ Hk2].
  unfold in_sync, mirrored in *.
  destruct (files σ !! (s ++ q)) as [[ms ds fs|ms]|] eqn:Hs.
  - specialize (Hf eq_refl). specialize (Hk2 eq_refl). destruct Hm as [_ Hm].
    assert (source_ok (Some (File ms ds fs)) = true) as Hsok.
    { unfold file_ok in Hf. by apply andb_true_iff in Hf as [? _]. }
    split; [done|].
    destruct (Hm Hf) as [[Hsk ->]| ->].
    + unfold skips in Hsk.
      apply andb_true_iff in Hsk as [Hex%bool_decide_eq_true Hh%bool_decide_eq_true].
      split.
      * destruct (files σ !! (r ++ q)) as [[? ? ?|?]|]; [done|done|by destruct Hex].
      * unfold source_ok, hash_value in *.
        destruct (hash_result (Some (File ms ds fs))); [|done].
        destruct (hash_result (files σ !! (r ++ q))); congruence.
    + split; [done|].
      assert (readable (target_mode (files σ !! (r ++ q))) = true) as Hrd.
      { destruct (files σ !! (r ++ q)) as [[mo dold fo|?]|] eqn:Hr; [|done..].
        by apply (Hread q mo dold fo). }
      unfold source_ok in Hsok. unfold hash_result in *. simpl. rewrite Hrd.
      destruct (readable ms); [|done].
      by destruct (hits_fault fs 0 (length ds)).
  - split; [by apply (Hls q ms)|].
    destruct (files σ' !! (r ++ q)) as [[? ? ?|m']|]; try done.
    exists m'. split; [done|].
    destruct (Heff) as [_ Hmode]. destruct (Hmode m' eq_refl) as [->|Hold]; [done|].
    by apply (Hlr q m').
  - done.
Qed.

(** C6, as amended.  On a filesystem that one pass can make a mirror and
    whose replica files can all be read, a second pass with the source
    unchanged returns true, leaves the filesystem exactly as the first pass
    left it, and logs nothing but hash matches, one for every file of the
    source: it copies no file. *)
Theorem idempotence depth s r σ :
  runnable (files σ) s r depth → mirrorable (files σ) s r →
  files_readable (files σ) r →
  ∃ σ1 σ2 new,
    synchronize_folders depth s r σ = Returns true σ1 ∧
    synchronize_folders depth s r σ1 = Returns true σ2 ∧
    files σ2 = files σ1 ∧
    log σ2 = log σ1 ++ new ∧
    Forall is_hash_match new ∧
    (∀ q item, is_file (files σ !! (s ++ q ++ [item])) = true →
               (INFO, Hash_match item) ∈ new).
Proof.
  intros Hrun Hmir Hread.
  destruct (runnable_spec _ s r depth σ eq_refl Hrun) as (σ1 & Heq1 & Hpost).
  assert (root_ok (files σ) s r = true) as Hroot by apply Hmir.
  rewrite Hroot in Heq1, Hpost.
  destruct (settled_after_pass depth s r σ σ1 Hrun Hmir Hread Hpost) as [Hset Hsrc].
  destruct Hrun as (Ha & _ & _ & _ & Hss & _).
  destruct Hmir as [(Hwfs & _) _].
  assert (wp (synchronize_folders depth s r) (settled_post s σ1) no_exn σ1) as H2.
  { apply synchronize_folders_settled; [done|done|..].
    - intros q x. rewrite !Hsrc. apply Hwfs.
    - intros q. rewrite Hsrc. apply Hss.
    - rewrite <-(app_nil_r s), Hsrc, app_nil_r.
      unfold root_ok in Hroot. by apply andb_true_iff in Hroot as [? _]. }
  apply wp_returns in H2 as (b & σ2 & Heq2 & -> & Hfs & _ & new & Hnew & HL & Hall).
  exists σ1, σ2, new. split_and!; [done..|].
  intros q item Hfile. apply (Hall q item). by rewrite Hsrc.
Qed.

Lemma idempotence_witness :
  ∃ σ1 σ2 new,
    synchronize_folders 5 ["src"] ["rep"] (initial scenario_fs) = Returns true σ1 ∧
    synchronize_folders 5 ["src"] ["rep"] σ1 = Returns true σ2 ∧
    files σ2 = files σ1 ∧
    log σ2 = log σ1 ++ new ∧
    Forall is_hash_match new ∧
    (∀ q item, is_file (scenario_fs !! (["src"] ++ q ++ [item])) = true →
               (INFO, Hash_match item) ∈ new).
Proof.
  apply (idempotence 5 ["src"] ["rep"] (initial scenario_fs)).
  - apply check_runnable_sound. vm_compute. reflexivity.
  - apply check_mirrorable_sound. vm_compute. reflexivity.
  - apply check_files_readable_sound. vm_compute. reflexivity.
Defined.

(** C6 as stated fails: a replica file that can be written and cannot be
    read is overwritten by the first pass and, since its hash still cannot
    be taken, copied again by the second pass. *)
Lemma idempotence_counterexample :
  synchronize_folders 5 ["src"] ["rep"] (initial write_only_fs)
    = Returns true (State write_only_mirror write_only_records 0) ∧
  synchronize_folders 5 ["src"] ["rep"] (State write_only_mirror write_only_records 0)
    = Returns true (State write_only_mirror (write_only_records ++ write_only_records) 0).
Proof. split; vm_compute; reflexivity. Qed.

(** ** Deletion *)

(** C5, as amended.  Let source and replica be folders neither of which
    lies inside the other, with every directory under them listable and the
    trees within the recursion budget ([runnable]); let the checks at the
    root succeed (the source is a directory, the replica is a directory or
    can be created), let both trees be well formed, let the source and the
    replica hold entries of the same kind wherever both hold one, and let
    the directories of the replica accept removals ([structure_ok]).  Then
    the pass returns true, and every relative path that the source does not
    hold is absent from the replica afterwards.  Take an entry of the
    replica that the source does not hold, in a folder that the source does
    hold.  The log of the pass has, in one piece, the removals of
    [delete_item] for it: removals only, one for every entry of the
    subtree, the removal of an entry after the removals of all entries
    below it, the entry itself last.  For a file that piece is the one
    record of its removal. *)
Theorem deletion_correctness depth s r σ :
  runnable (files σ) s r depth → structure_ok (files σ) s r →
  ∃ σ',
    synchronize_folders depth s r σ = Returns true σ' ∧
    (∀ q, files σ !! (s ++ q) = None → files σ' !! (r ++ q) = None) ∧
    (∀ q item,
       is_dir (files σ !! (s ++ q)) = true →
       files σ !! (s ++ q ++ [item]) = None →
       is_Some (files σ !! (r ++ q ++ [item])) →
       ∃ before new after,
         log σ' = log σ ++ before ++ new ++ after ∧
         bottom_up (files σ) (r ++ q ++ [item]) new ∧
         (is_file (files σ !! (r ++ q ++ [item])) = true →
          new = [(INFO, Deleting_file (r ++ q ++ [item]))])).
Proof.
  intros Hrun Hok.
  destruct (runnable_spec _ s r depth σ eq_refl Hrun) as (σ' & Heq & Hpost).
  assert (root_ok (files σ) s r = true) as Hroot by apply Hok.
  rewrite Hroot in Heq, Hpost. exists σ'. split; [done|].
  destruct Hpost as (_ & _ & _ & _ & _ & _ & Hremoved & Hm). split.
  - intros q Hnone. specialize (Hm Hok q). by rewrite Hnone in Hm.
  - intros q item Hdir Hnone Hex. by apply (Hremoved Hok q item).
Qed.

Lemma deletion_correctness_witness :
  ∃ σ',
    synchronize_folders 5 ["src"] ["rep"] (initial nested_orphan_fs) = Returns true σ' ∧
    (∀ q, nested_orphan_fs !! (["src"] ++ q) = None → files σ' !! (["rep"] ++ q) = None) ∧
    (∀ q item,
       is_dir (nested_orphan_fs !! (["src"] ++ q)) = true →
       nested_orphan_fs !! (["src"] ++ q ++ [item]) = None →
       is_Some (nested_orphan_fs !! (["rep"] ++ q ++ [item])) →
       ∃ before new after,
         log σ' = [] ++ before ++ new ++ after ∧
         bottom_up nested_orphan_fs (["rep"] ++ q ++ [item]) new ∧
         (is_file (nested_orphan_fs !! (["rep"] ++ q ++ [item])) = true →
          new = [(INFO, Deleting_file (["rep"] ++ q ++ [item]))])).
Proof.
  apply (deletion_correctness 5 ["src"] ["rep"] (initial nested_orphan_fs)).
  - apply check_runnable_sound. vm_compute. reflexivity.
  - apply check_structure_sound. vm_compute. reflexivity.
Defined.

(** C5 as stated fails where the source has a file and the replica a
    directory of the same name: what the directory holds is in the replica,
    is not in the source, and is still in the replica after a pass that
    returns true. *)
Lemma deletion_correctness_counterexample :
  ∃ σ',
    synchronize_folders 5 ["src"] ["rep"] (initial mismatch_fs) = Returns true σ' ∧
    mismatch_fs !! ["src"; "x"; "y"] = None ∧
    mismatch_fs !! ["rep"; "x"; "y"] = Some (plain_file "stale") ∧
    files σ' !! ["rep"; "x"; "y"] = Some (plain_file "stale").
Proof.
  eexists. split; [vm_compute; reflexivity|].
  split_and!; by vm_compute.
Qed.

(** Orphans at two levels: a folder of the replica folder, removed from
    the bottom up, and a file inside a folder that the source also has. *)
Example nested_orphan :
  ∃ σ',
    synchronize_folders 5 ["src"] ["rep"] (initial nested_orphan_fs) = Returns true σ' ∧
    files σ' =
      list_to_map
        [ ([], Dir rw);
          (["src"], Dir rw);
          (["src"; "sub"], Dir rw);
          (["rep"], Dir rw);
          (["rep"; "sub"], Dir rw) ] ∧
    log σ' = [ (INFO, Deleting_file ["rep"; "sub"; "stale"]);
               (INFO, Deleting_file ["rep"; "old"; "deep"; "f"]);
               (INFO, Deleting_folder ["rep"; "old"; "deep"]);
               (INFO, Deleting_file ["rep"; "old"; "g"]);
               (INFO, Deleting_folder ["rep"; "old"]) ].
Proof.
  eexists. split; [vm_compute; reflexivity|].
  split; [|vm_compute; reflexivity].
  refine (bool_decide_eq_true_1 _ _). vm_compute. reflexivity.
Qed.

(** ** The scheduler stops at the first failed pass *)

Section Loop.

Context (world : Z → Z → gmap path entry → gmap path entry).
Context (depth : nat) (seconds : Z) (s r : path).

(** The loop after [n] passes that returned true and one that returned
    false: it needs a budget of more than [n] ticks, and with any such
    budget it returns in the state the failed pass left. *)
Lemma sync_loop_stops n : ∀ σ σn σ' ticks,
  passes world depth seconds s r n σ σn →
  synchronize_folders depth s r (tick_started s r σn) = Returns false σ' →
  sync_loop world ticks depth seconds s r σ =
    if bool_decide (n < ticks) then Returns () σ' else Exhausted.
Proof.
  induction n as [|n IH]; intros σ σn σ' ticks Hpasses Hfail.
  - inversion Hpasses; subst. destruct ticks as [|ticks]; [done|].
    rewrite bool_decide_eq_true_2 by lia. simpl.
    unfold bind at 1, logger_info. fold (tick_started s r σn).
    by erewrite bind_Returns by exact Hfail.
  - inversion Hpasses as [|n' σ0 σ1 σ2 σ0' Hpass Hsleep Hrest]; subst.
    destruct ticks as [|ticks]; [done|]. simpl.
    unfold bind at 1, logger_info. fold (tick_started s r σ).
    erewrite bind_Returns by exact Hpass. simpl.
    erewrite bind_Returns by exact Hsleep.
    rewrite (IH σ2 σn σ' ticks Hrest Hfail).
    destruct (decide (n < ticks)).
    + by rewrite !bool_decide_eq_true_2 by lia.
    + by rewrite !bool_decide_eq_false_2 by lia.
Qed.

End Loop.

(** C7.  Let [start_sync] resolve its interval, and let the first [n]
    passes of its loop return true and the next one false.  Then
    [start_sync] returns, in the very state that pass left: after the false
    return it logs nothing, does not sleep and makes no further pass.  This
    holds for every budget of ticks above [n]; a smaller budget ends before
    the failed pass. *)
Theorem no_tick_after_failure world depth sync_interval value secs name s r n σ σn σ' :
  interval_resolves sync_interval value secs name →
  passes world depth (value * secs) s r n
         (State (files σ) (log σ ++ [(INFO, Sync_interval_set value name)]) (clock σ))
         σn →
  synchronize_folders depth s r (tick_started s r σn) = Returns false σ' →
  ∀ ticks,
    start_sync world ticks depth sync_interval s r σ =
      if bool_decide (n < ticks) then Returns () σ' else Exhausted.
Proof.
  intros (u & Hlast & Hint & Hsecs & Hname) Hpasses Hfail ticks.
  unfold start_sync.
  erewrite bind_Returns by apply Hlast.
  erewrite bind_Returns by apply Hint.
  unfold getitem. rewrite Hsecs, Hname.
  unfold bind at 1, ret. unfold bind at 1. unfold bind at 1, logger_info.
  by apply sync_loop_stops with (σn := σn).
Qed.

Lemma no_tick_after_failure_witness :
  ∃ σ',
    log σ' = [ (INFO, Sync_interval_set 5 "minutes");
               (INFO, Synchronizing_folders ["src"] ["rep"]);
               (INFO, Synchronizing_folders ["src"] ["rep"]);
               (ERROR, Source_folder_does_not_exist) ] ∧
    clock σ' = 300%Z ∧
    ∀ ticks,
      start_sync source_vanishes ticks 5 "5m" ["src"] ["rep"] (initial empty_pair_fs) =
        if bool_decide (1 < ticks) then Returns () σ' else Exhausted.
Proof.
  eexists. split; [|split]; cycle 2.
  - eapply (no_tick_after_failure source_vanishes 5 "5m" 5 60 "minutes"
              ["src"] ["rep"] 1 (initial empty_pair_fs)).
    + exists "m". split_and!; [intros σ; reflexivity|intros σ; reflexivity|
                               vm_compute; reflexivity|vm_compute; reflexivity].
    + eapply passes_S; [vm_compute; reflexivity|vm_compute; reflexivity|].
      apply passes_O.
    + vm_compute. reflexivity.
  - vm_compute. reflexivity.
  - vm_compute. reflexivity.
Defined.

(** ** The interval string *)

Lemma match_digits_then_unit_app digits u : ∀ seen,
  forallb is_digit digits = true → is_digit u = false → is_unit_letter u = true →
  match_digits_then_unit (digits ++ [u]) seen
    = match digits with [] => seen | _ => true end.
Proof.
  induction digits as [|c digits IH]; intros seen Hd Hu Hl; simpl.
  - rewrite Hu, Hl. by destruct seen.
  - simpl in Hd. apply andb_true_iff in Hd as [Hc Hd]. rewrite Hc.
    rewrite IH by done. by destruct digits.
Qed.

Lemma but_last_interval_string digits u :
  but_last (interval_string digits u) = string_of_list_ascii digits.
Proof.
  unfold but_last, interval_string. rewrite list_ascii_of_string_of_list_ascii.
  rewrite length_app. simpl. rewrite Nat.add_1_r. simpl.
  by rewrite take_app_length.
Qed.

Lemma last_char_interval_string digits u σ :
  last_char (interval_string digits u) σ = Returns (String u EmptyString) σ.
Proof.
  unfold last_char, interval_string. rewrite list_ascii_of_string_of_list_ascii.
  by rewrite last_snoc.
Qed.

(** C2 fails in the code for every uppercase unit.  [read_commands] accepts
    the string, and [start_sync] raises [KeyError] on the lookup
    [conversion[interval]], whose key is the letter as given and not its
    lowercase form: before the loop, with nothing logged. *)
Theorem uppercase_unit_raises world ticks depth digits u s r σ :
  digits ≠ [] → forallb is_digit digits = true → u ∈ upper_units →
  sync_interval_pattern (interval_string digits u) = true ∧
  start_sync world ticks depth (interval_string digits u) s r σ
    = Raises (KeyError (String u EmptyString)) σ.
Proof.
  intros Hne Hd Hu. split.
  - unfold sync_interval_pattern, interval_string.
    rewrite list_ascii_of_string_of_list_ascii.
    rewrite match_digits_then_unit_app; [by destruct digits|done|..];
      unfold upper_units in Hu; set_unfold in Hu;
      destruct Hu as [->|[->|[->|[->|[]]]]]; by vm_compute.
  - unfold start_sync.
    erewrite bind_Returns by apply last_char_interval_string.
    rewrite but_last_interval_string.
    unfold int. rewrite list_ascii_of_string_of_list_ascii, Hd.
    rewrite bool_decide_eq_true_2 by done. simpl.
    unfold bind at 1, ret.
    unfold upper_units in Hu; set_unfold in Hu;
      destruct Hu as [->|[->|[->|[->|[]]]]]; reflexivity.
Qed.

Lemma uppercase_unit_raises_witness :
  sync_interval_pattern "5M" = true ∧
  start_sync source_vanishes 3 5 "5M" ["src"] ["rep"] (initial empty_pair_fs)
    = Raises (KeyError "M") (initial empty_pair_fs).
Proof.
  apply (uppercase_unit_raises source_vanishes 3 5 ["5"%char] "M"%char).
  - done.
  - reflexivity.
  - unfold upper_units. set_solver.
Defined.

(** The lowercase form of the same interval reaches the loop. *)
Lemma lowercase_unit_enters_loop world ticks depth s r σ :
  start_sync world ticks depth "5m" s r σ
    = sync_loop world ticks depth 300 s r
        (State (files σ) (log σ ++ [(INFO, Sync_interval_set 5 "minutes")]) (clock σ)).
Proof. reflexivity. Qed.

(** * Further properties of the code *)

(** ** read_commands *)

Section Commands.

Implicit Types cs digits : list ascii.

Lemma unit_letter_not_digit u : is_unit_letter u = true → is_digit u = false.
Proof.
  unfold is_unit_letter. intros Hu%bool_decide_eq_true. simpl in Hu.
  set_unfold in Hu. destruct Hu as [->|[->|[->|[->|[->|[->|[->|[->|[]]]]]]]]];
    by vm_compute.
Qed.

(** The matcher accepts exactly the strings of the shape, once a digit has
    been seen or with one still to come. *)
Lemma match_digits_then_unit_shape cs : ∀ seen,
  match_digits_then_unit cs seen = true ↔
  ∃ digits u,
    (seen = true ∨ digits ≠ []) ∧ forallb is_digit digits = true ∧
    is_unit_letter u = true ∧
    (cs = digits ++ [u] ∨ cs = digits ++ [u; newline]).
Proof.
  induction cs as [|c cs IH]; intros seen; simpl.
  - split; [done|]. intros (digits & u & _ & _ & _ & [H|H]); by destruct digits.
  - destruct (is_digit c) eqn:Hc.
    + rewrite IH. split.
      * intros (digits & u & _ & Hd & Hu & Hcs).
        exists (c :: digits), u. split_and!; [by right|by simpl; rewrite Hc|done|].
        destruct Hcs as [->| ->]; [by left|by right].
      * intros (digits & u & _ & Hd & Hu & Hcs).
        destruct digits as [|c' digits].
        { apply unit_letter_not_digit in Hu.
          destruct Hcs as [[= <- _]|[= <- _]]; congruence. }
        exists digits, u. simpl in Hd. apply andb_true_iff in Hd as [_ Hd].
        split_and!; [by left|done|done|].
        destruct Hcs as [[= _ ->]|[= _ ->]]; [by left|by right].
    + rewrite !andb_true_iff, bool_decide_eq_true. split.
      * intros [[-> Hu] Hrest]. exists [], c. split_and!; [by left|done|done|].
        destruct Hrest as [->| ->]; [by left|by right].
      * intros (digits & u & Hseen & Hd & Hu & Hcs).
        destruct digits as [|c' digits].
        -- destruct Hseen as [->|?]; [|done].
           destruct Hcs as [[= -> ->]|[= -> ->]]; split_and!; auto.
        -- simpl in Hd. apply andb_true_iff in Hd as [Hc' _].
           destruct Hcs as [[= <- _]|[= <- _]]; congruence.
Qed.

Lemma sync_interval_pattern_shape s :
  sync_interval_pattern s = true ↔ interval_shape (list_ascii_of_string s).
Proof.
  unfold sync_interval_pattern, interval_shape.
  rewrite match_digits_then_unit_shape. split.
  - intros (digits & u & [?|?] & ?); [done|by exists digits, u].
  - intros (digits & u & ? & ?). exists digits, u. split; [by right|done].
Qed.

End Commands.

(** X1.  [read_commands] hands back the commands exactly when there are
    five arguments, source and replica differ, the interval is one or more
    digits and a unit letter of either case (a final newline is let
    through), and the log file path ends in [.log].  It then has logged the
    arguments it read and nothing else. *)
Theorem read_commands_accepts argv c σ σ' :
  read_commands argv σ = Returns (Some c) σ' ↔
  (∃ prog, argv = [prog; cmd_source c; cmd_replica c;
                   cmd_sync_interval c; cmd_log_file_path c]) ∧
  cmd_source c ≠ cmd_replica c ∧
  interval_shape (list_ascii_of_string (cmd_sync_interval c)) ∧
  (∃ stem, list_ascii_of_string (cmd_log_file_path c)
           = stem ++ list_ascii_of_string ".log") ∧
  σ' = State (files σ) (log σ ++ [(INFO, Commands_read argv)]) (clock σ).
Proof.
  rewrite <-sync_interval_pattern_shape.
  assert (∀ p, (∃ stem, list_ascii_of_string p = stem ++ list_ascii_of_string ".log")
               ↔ endswith p ".log" = true) as Hends.
  { intros p. unfold endswith. by rewrite bool_decide_eq_true. }
  rewrite Hends. unfold read_commands, bind, logger_info, logger_error, ret.
  split.
  - destruct argv as [|a0 [|a1 [|a2 [|a3 [|a4 [|a5 rest]]]]]]; try done.
    destruct (bool_decide (a1 = a2)) eqn:H12; [done|].
    destruct (sync_interval_pattern a3) eqn:H3; [|done].
    destruct (endswith a4 ".log") eqn:H4; [|done]. simpl.
    intros [= <- <-]. simpl. apply bool_decide_eq_false in H12.
    split_and!; [by exists a0|done..].
  - intros ([prog ->] & Hne & Hpat & Hlog & ->).
    rewrite bool_decide_eq_false_2 by done. rewrite Hpat, Hlog. simpl.
    by destruct c.
Qed.

(** X2.  [read_commands] never raises and touches neither the filesystem
    nor the clock.  The first record it logs is the arguments it read; it
    rejects them exactly when it logs an error after that; and with a number
    of arguments other than five it logs the error and the usage line. *)
Theorem read_commands_rejects argv σ :
  ∃ res σ' new,
    read_commands argv σ = Returns res σ' ∧
    files σ' = files σ ∧ clock σ' = clock σ ∧
    log σ' = log σ ++ (INFO, Commands_read argv) :: new ∧
    (res = None ↔ ∃ msg, (ERROR, msg) ∈ new) ∧
    (length argv ≠ 5 →
       res = None ∧
       new = [(ERROR, Invalid_number_of_arguments); (INFO, Usage)]).
Proof.
  unfold read_commands, bind, logger_info, logger_error, ret.
  assert (∀ msg (new : list (level * message)), (∃ m, (ERROR, m) ∈ (ERROR, msg) :: new)) as Herr
    by (intros msg new; exists msg; left).
  assert (¬ ∃ m : message, (ERROR, m) ∈ @nil (level * message)) as Hnil
    by (intros [m Hm]; by apply elem_of_nil in Hm).
  destruct argv as [|a0 [|a1 [|a2 [|a3 [|a4 [|a5 rest]]]]]]; simpl;
    try (eexists None, _, [_; _]; split_and!;
         [reflexivity|done|done|simpl; by rewrite <-!(assoc_L (++))
         |split; [intros _; apply Herr|done]|done]).
  destruct (bool_decide (a1 = a2)); simpl.
  { eexists None, _, [_]. split_and!;
      [done|done|done|by rewrite <-(assoc_L (++))|by split; [intros _; apply Herr|]|done]. }
  destruct (sync_interval_pattern a3); simpl.
  2:{ eexists None, _, [_]. split_and!;
      [done|done|done|by rewrite <-(assoc_L (++))|by split; [intros _; apply Herr|]|done]. }
  destruct (endswith a4 ".log"); simpl.
  2:{ eexists None, _, [_]. split_and!;
      [done|done|done|by rewrite <-(assoc_L (++))|by split; [intros _; apply Herr|]|done]. }
  eexists (Some _), _, []. split_and!; [done|done|done|done| |done].
  split; [done|]. intros H. by destruct Hnil.
Qed.

(** ** start_sync *)

Section Interval.

Implicit Types digits : list ascii.

Lemma int_digits digits σ :
  digits ≠ [] → forallb is_digit digits = true →
  int (string_of_list_ascii digits) σ = Returns (decimal digits) σ.
Proof.
  intros Hne Hd. unfold int. rewrite list_ascii_of_string_of_list_ascii, Hd.
  rewrite bool_decide_eq_true_2 by done. simpl. unfold ret. f_equal.
  unfold decimal. rewrite <-(rev_involutive digits) at 1.
  generalize (rev digits) as l. intros l.
  induction l as [|c l IH]; [done|]. simpl.
  rewrite foldl_app. simpl. by rewrite IH.
Qed.

(** [int] refuses a string that ends in a unit letter. *)
Lemma int_not_digits digits u σ :
  is_unit_letter u = true →
  int (string_of_list_ascii (digits ++ [u])) σ = Raises ValueError σ.
Proof.
  intros Hu%unit_letter_not_digit. unfold int.
  rewrite list_ascii_of_string_of_list_ascii, forallb_app. simpl.
  by rewrite Hu, !andb_false_r.
Qed.

End Interval.

(** X3.  For an interval of digits and a lowercase unit letter,
    [start_sync] logs the interval with the unit's name and enters its loop
    with the number of seconds the interval denotes: the decimal value of
    the digits times 1, 60, 3600 or 86400. *)
Theorem lowercase_interval_resolves world ticks depth digits u s r σ :
  digits ≠ [] → forallb is_digit digits = true →
  length digits ≤ int_max_str_digits →
  u ∈ lower_units →
  start_sync world ticks depth (interval_string digits u) s r σ =
    sync_loop world ticks depth (decimal digits * unit_seconds u) s r
      (State (files σ)
             (log σ ++ [(INFO, Sync_interval_set (decimal digits) (unit_name u))])
             (clock σ)).
Proof.
  intros Hne Hd _ Hu. unfold start_sync.
  erewrite bind_Returns by apply last_char_interval_string.
  rewrite but_last_interval_string.
  erewrite bind_Returns by (by apply int_digits).
  unfold lower_units in Hu. set_unfold in Hu.
  destruct Hu as [->|[->|[->|[->|[]]]]]; reflexivity.
Qed.

Lemma lowercase_interval_resolves_witness :
  start_sync source_vanishes 3 5 "90s" ["src"] ["rep"] (initial empty_pair_fs) =
    sync_loop source_vanishes 3 5 (90 * 1) ["src"] ["rep"]
      (State empty_pair_fs [(INFO, Sync_interval_set 90 "seconds")] 0).
Proof.
  apply (lowercase_interval_resolves source_vanishes 3 5
           ["9"; "0"]%char "s"%char ["src"] ["rep"] (initial empty_pair_fs)).
  - done.
  - reflexivity.
  - unfold int_max_str_digits. simpl. lia.
  - unfold lower_units. set_solver.
Defined.

(** X4.  [read_commands] lets through an interval with a final newline,
    and [start_sync] cannot read it: the unit it takes is the newline, the
    digits it converts end in the unit letter, and [int] raises
    [ValueError] before anything is logged. *)
Theorem trailing_newline_raises world ticks depth digits u s r σ :
  digits ≠ [] → forallb is_digit digits = true → is_unit_letter u = true →
  sync_interval_pattern (string_of_list_ascii (digits ++ [u; newline])) = true ∧
  start_sync world ticks depth (string_of_list_ascii (digits ++ [u; newline])) s r σ
    = Raises ValueError σ.
Proof.
  intros Hne Hd Hu. split.
  - apply sync_interval_pattern_shape. rewrite list_ascii_of_string_of_list_ascii.
    exists digits, u. split_and!; [done..|by right].
  - change (digits ++ [u; newline]) with (digits ++ [u] ++ [newline]).
    rewrite (assoc_L (++)). fold (interval_string (digits ++ [u]) newline).
    unfold start_sync.
    erewrite bind_Returns by apply last_char_interval_string.
    rewrite but_last_interval_string.
    by erewrite bind_Raises by (by apply int_not_digits).
Qed.

Lemma trailing_newline_raises_witness :
  sync_interval_pattern (string_of_list_ascii (["5"; "m"] ++ ["010"])%char) = true ∧
  start_sync source_vanishes 3 5 (string_of_list_ascii (["5"; "m"] ++ ["010"])%char)
             ["src"] ["rep"] (initial empty_pair_fs)
    = Raises ValueError (initial empty_pair_fs).
Proof.
  apply (trailing_newline_raises source_vanishes 3 5 ["5"%char] "m"%char
           ["src"] ["rep"] (initial empty_pair_fs)).
  - done.
  - reflexivity.
  - reflexivity.
Defined.

(** ** delete_item *)

Section DeleteRuns.

Implicit Types fs : gmap path entry.
Implicit Types p q k : path.
Implicit Types σ : state.

Lemma dirname_app p k : k ≠ [] → dirname (p ++ k) = p ++ dirname k.
Proof.
  intros Hk. unfold dirname. rewrite length_app.
  destruct k as [|x k]; [done|]. simpl.
  rewrite Nat.add_succ_r. simpl. by rewrite take_app_add.
Qed.

(** Under a well-formed folder, an entry has every folder above it. *)
Lemma wf_under_ancestors fs p k k' :
  wf_under fs p → is_Some (fs !! (p ++ k ++ k')) → is_Some (fs !! (p ++ k)).
Proof.
  intros Hwf. induction k' as [|x k' IH] using rev_ind.
  - by rewrite app_nil_r.
  - rewrite (assoc_L (++) k). intros Hsome. apply Hwf in Hsome. apply IH.
    by destruct (fs !! (p ++ k ++ k')).
Qed.

(** What the body of the loop finds when it runs for the entry [item]. *)
Lemma delete_child_pre d p σ item σi :
  dirs_listable (files σ) p → shallower (files σ) p (S d) →
  is_Some (files σ !! (p ++ [item])) →
  item_pre p (files σ) (delete_keep p) item σi →
  (∀ q, files σi !! ((p ++ [item]) ++ q) = files σ !! ((p ++ [item]) ++ q)) ∧
  is_Some (files σi !! (p ++ [item])) ∧
  dirs_listable (files σi) (p ++ [item]) ∧
  shallower (files σi) (p ++ [item]) d.
Proof.
  intros Hls Hsh Hitem Hpre.
  assert (∀ q, files σi !! ((p ++ [item]) ++ q) = files σ !! ((p ++ [item]) ++ q))
    as Hsame.
  { intros q. apply Hpre. left. by eexists. }
  split_and!; [done|..].
  - rewrite <-(app_nil_r (p ++ [item])), Hsame. by rewrite app_nil_r.
  - intros q m'. rewrite Hsame, <-(assoc_L (++)). apply Hls.
  - intros q. rewrite Hsame, <-(assoc_L (++)). intros Hq%Hsh.
    rewrite length_app in Hq. simpl in Hq. lia.
Qed.

(** A run of [delete_item] on a directory: the loop over its entries, then
    the attempt to remove it. *)
Lemma delete_item_dir_run d p σ m σ' :
  files σ !! p = Some (Dir m) →
  dirs_listable (files σ) p → shallower (files σ) p (S d) →
  delete_item (S d) p σ = Returns () σ' →
  ∃ σ2,
    loop_post p (λ item, delete_item d (p ++ [item])) (files σ) (delete_keep p)
      (λ _ q o, o = files σ !! q ∨ o = None) is_delete_record
      (children (files σ) p) σ σ2 ∧
    try_except
      (os_rmdir p;; logger_info (Deleting_folder p))
      (except_OSError (λ _, logger_error (Failed_to_delete_folder p))) σ2
    = Returns () σ'.
Proof.
  intros Hp Hls Hsh. simpl.
  unfold bind at 1, os_path_isfile. rewrite Hp. simpl.
  unfold bind at 1, os_listdir. rewrite Hp.
  rewrite (Hls [] m) by (by rewrite app_nil_r).
  assert (wp (for_each (children (files σ) p) (λ item, delete_item d (p ++ [item])))
            (λ _ σ2, loop_post p (λ item, delete_item d (p ++ [item])) (files σ)
                       (delete_keep p) (λ _ q o, o = files σ !! q ∨ o = None)
                       is_delete_record (children (files σ) p) σ σ2)
            no_exn σ) as Hloop.
  { apply for_each_spec.
    - intros item q [->| ->]; [apply prefix_snoc_not|apply dirname_not_under].
    - apply NoDup_children.
    - intros item σi Hitem%elem_of_children Hpre.
      destruct (delete_child_pre d p σ item σi Hls Hsh Hitem Hpre)
        as (Hsame & Hexi & Hlsi & Hshi).
      eapply wp_mono; [by apply delete_item_spec| |done].
      intros [] σb (Hfr & Hsub & Hlog). split_and!; [done| |done].
      intros q Hq. destruct (Hsub q Hq) as [Hor _].
      by rewrite (Hpre q) in Hor by (by left).
    - intros item _ q _. done. }
  apply wp_returns in Hloop as ([] & σ2 & Hrun2 & Hpost).
  unfold os_path_join. unfold bind at 1.
  change (for_each (children (files σ) p)
            (λ item, let new_item_path := p ++ [item] in delete_item d new_item_path))
    with (for_each (children (files σ) p) (λ item, delete_item d (p ++ [item]))).
  rewrite Hrun2. intros Hfinal. by exists σ2.
Qed.

(** The last step of [delete_item] on a directory changes nothing but the
    directory itself, and removes it only when it is empty. *)
Lemma rmdir_step p σ2 σ' m :
  files σ2 !! p = Some (Dir m) →
  try_except
    (os_rmdir p;; logger_info (Deleting_folder p))
    (except_OSError (λ _, logger_error (Failed_to_delete_folder p))) σ2
  = Returns () σ' →
  (∀ q, q ≠ p → files σ' !! q = files σ2 !! q) ∧
  (files σ' !! p = Some (Dir m) ∨ files σ' !! p = None ∧ children (files σ2) p = []) ∧
  ∃ rec, log σ' = log σ2 ++ [rec].
Proof.
  intros Hp. unfold try_except, bind, os_rmdir, logger_info, logger_error. rewrite Hp.
  destruct (children (files σ2) p) as [|x l] eqn:Hch; simpl.
  - destruct (check_parent (files σ2) (dirname p)); simpl; intros [= <-]; simpl.
    + split_and!; [done|by left|by eexists].
    + split_and!; [|right; by rewrite lookup_delete_eq|by eexists].
      intros q Hq. by rewrite lookup_delete_ne.
  - intros [= <-]. simpl. split_and!; [done|by left|by eexists].
Qed.

(** [delete_item] keeps the tree well formed: an entry it leaves has every
    folder above it. *)
Lemma delete_item_wf depth : ∀ p σ σ',
  is_Some (files σ !! p) →
  dirs_listable (files σ) p → shallower (files σ) p depth →
  wf_under (files σ) p →
  delete_item depth p σ = Returns () σ' →
  wf_under (files σ') p.
Proof.
  induction depth as [|d IH]; intros p σ σ' Hex Hls Hsh Hwf Hrun; [done|].
  destruct (proj1 (wp_returns _ _ _) (delete_item_spec (S d) p σ Hex Hls Hsh))
    as ([] & σ1 & Hrun1 & _ & Hsub & _).
  rewrite Hrun in Hrun1. injection Hrun1 as <-.
  destruct (files σ !! p) as [[m data fault|m]|] eqn:Hp; [| |by destruct Hex].
  - (* a file: there is nothing under it, before or after *)
    intros q item Hsome.
    destruct (Hsub (p ++ q ++ [item])) as [[Heq|Heq] _]; [by eexists| |];
      rewrite Heq in Hsome; [|by destruct Hsome].
    rewrite <-(app_nil_l (q ++ [item])), (wf_under_not_dir _ p []) in Hsome;
      [by destruct Hsome|done|by rewrite app_nil_r, Hp|by destruct q].
  - (* a directory *)
    destruct (delete_item_dir_run d p σ m σ' Hp Hls Hsh Hrun)
      as (σ2 & (Hfr2 & Hsub2 & _ & Hran2) & Hlast).
    assert (files σ2 !! p = Some (Dir m)) as Hp2.
    { rewrite Hfr2; [done|]. intros item _. apply prefix_snoc_not. }
    destruct (rmdir_step p σ2 σ' m Hp2 Hlast) as (Hother & Hself & _).
    assert (∀ x k, files σ' !! (p ++ x :: k) = files σ2 !! (p ++ x :: k)) as Hbelow.
    { intros x k. apply Hother. intros Heq. apply (f_equal length) in Heq.
      rewrite length_app in Heq. simpl in Heq. lia. }
    intros q item Hsome. destruct q as [|x q]; simpl in Hsome.
    + (* an entry of the directory is left: the directory was not removed *)
      rewrite app_nil_r. rewrite Hbelow in Hsome.
      destruct Hself as [->|[_ Hch]]; [done|].
      assert (item ∈ children (files σ2) p) as Hin by (by apply elem_of_children).
      rewrite Hch in Hin. by apply elem_of_nil in Hin.
    + (* below the entry [x] *)
      change (p ++ x :: q ++ [item]) with (p ++ x :: (q ++ [item])) in Hsome.
      rewrite Hbelow in Hsome. rewrite Hbelow.
      assert (is_Some (files σ !! (p ++ [x]))) as Hx.
      { destruct (decide (x ∈ children (files σ) p)) as [Hin|Hnin];
          [by apply elem_of_children|].
        assert (is_Some (files σ !! (p ++ x :: q ++ [item]))) as Hold.
        { rewrite <-Hfr2; [done|]. intros item' Hin' [k' Hk'].
          rewrite <-(assoc_L (++)) in Hk'. apply app_inv_head in Hk'.
          simpl in Hk'. congruence. }
        by apply (wf_under_ancestors _ p [x] (q ++ [item])). }
      destruct (Hran2 x (proj2 (elem_of_children _ _ _) Hx))
        as (σa & σb & new & Hpre & Hrunx & Hfin & _).
      destruct (delete_child_pre d p σ x σa Hls Hsh Hx Hpre)
        as (Hsame & Hexa & Hlsa & Hsha).
      assert (wf_under (files σb) (p ++ [x])) as Hwfb.
      { apply (IH (p ++ [x]) σa σb); [done..| |done].
        intros k y. rewrite !Hsame. apply (wf_under_join _ p x Hwf k y). }
      specialize (Hwfb q item).
      rewrite <-!Hfin in Hwfb by (by eexists).
      rewrite <-!(assoc_L (++)) in Hwfb. by apply Hwfb.
Qed.

(** A file that cannot be removed is still there after [delete_item], and
    the failure is in the log. *)
Lemma delete_item_spares depth : ∀ p σ σ' q,
  is_Some (files σ !! p) →
  dirs_listable (files σ) p → shallower (files σ) p depth →
  wf_under (files σ) p →
  p `prefix_of` q → protected (files σ) q →
  delete_item depth p σ = Returns () σ' →
  files σ' !! q = files σ !! q ∧
  ∃ l1 l2, log σ' = log σ ++ l1 ++ (ERROR, Failed_to_delete q) :: l2.
Proof.
  induction depth as [|d IH]; intros p σ σ' q Hex Hls Hsh Hwf Hpq [Hfile Hpar] Hrun;
    [done|].
  destruct (files σ !! p) as [[m data fault|m]|] eqn:Hp; [| |by destruct Hex].
  - (* a file: it is [q] itself *)
    assert (q = p) as ->.
    { destruct Hpq as [[|x k] ->]; [by rewrite app_nil_r|].
      rewrite <-(app_nil_l (x :: k)), (wf_under_not_dir _ p []) in Hfile;
        [done|done|by rewrite app_nil_r, Hp|done]. }
    revert Hrun. simpl. unfold bind at 1, os_path_isfile. rewrite Hp. simpl.
    unfold try_except, bind, os_remove, logger_info, logger_error. rewrite Hp.
    destruct (check_parent (files σ) (dirname p)); [|by destruct Hpar].
    simpl. intros [= <-]. simpl. split; [done|]. by exists [], [].
  - (* a directory: [q] lies under one of its entries *)
    destruct (delete_item_dir_run d p σ m σ' Hp Hls Hsh Hrun)
      as (σ2 & (Hfr2 & Hsub2 & _ & Hran2) & Hlast).
    assert (files σ2 !! p = Some (Dir m)) as Hp2.
    { rewrite Hfr2; [done|]. intros item _. apply prefix_snoc_not. }
    destruct (rmdir_step p σ2 σ' m Hp2 Hlast) as (Hother & _ & rec & Hrec).
    destruct Hpq as [[|x k] ->]; [by rewrite app_nil_r, Hp in Hfile|].
    assert (is_Some (files σ !! (p ++ [x]))) as Hx.
    { apply (wf_under_ancestors _ p [x] k); [done|].
      change (p ++ [x] ++ k) with (p ++ x :: k).
      by destruct (files σ !! (p ++ x :: k)). }
    destruct (Hran2 x (proj2 (elem_of_children _ _ _) Hx))
      as (σa & σb & new & Hpre & Hrunx & Hfin & Hnew & bef & aft & Hlog).
    destruct (delete_child_pre d p σ x σa Hls Hsh Hx Hpre)
      as (Hsame & Hexa & Hlsa & Hsha).
    assert (p ++ x :: k = (p ++ [x]) ++ k) as Hq by (by rewrite <-(assoc_L (++))).
    destruct (IH (p ++ [x]) σa σb (p ++ x :: k)) as (Hkeep & l1 & l2 & Hl);
      [done..| |by exists k| |done|].
    { intros j y. rewrite !Hsame. apply (wf_under_join _ p x Hwf j y). }
    { split; [by rewrite Hq, Hsame, <-Hq|].
      erewrite check_parent_ext; [exact Hpar|].
      destruct k as [|y k].
      - fold (os_path_join p x). rewrite dirname_join.
        apply Hpre. right. by left.
      - rewrite Hq, dirname_app by done. apply Hsame. }
    split.
    + rewrite Hother.
      2:{ intros Heq. apply (f_equal length) in Heq.
          rewrite length_app in Heq. simpl in Heq. lia. }
      rewrite Hfin by (exists k; by rewrite <-(assoc_L (++))).
      rewrite Hkeep, Hq, Hsame. done.
    + rewrite Hnew in Hl. apply app_inv_head in Hl. subst new.
      exists (bef ++ l1), (l2 ++ aft ++ [rec]).
      rewrite Hrec, Hlog. by rewrite <-!(assoc_L (++)).
Qed.

Lemma dirs_listable_check fs p :
  under_all fs p (λ _ e, listable_entry e) = true → dirs_listable fs p.
Proof. intros H q m Hq. by apply (under_all_spec _ _ _ H q (Dir m)). Qed.

Lemma shallower_check fs p depth :
  under_all fs p (λ q _, bool_decide (length q < depth)) = true →
  shallower fs p depth.
Proof.
  intros H q [e Hq]. pose proof (under_all_spec _ _ _ H q e Hq) as Hlt.
  by apply bool_decide_eq_true in Hlt.
Qed.

End DeleteRuns.

(** X5.  [delete_item] on an entry whose directories can all be listed
    returns without raising, whatever else fails.  It changes nothing
    outside the subtree of the entry; inside, every path is as it was or is
    gone: nothing is created and nothing is rewritten.  It logs nothing but
    removals and failed removals, and does not sleep. *)
Theorem delete_item_confined depth p σ :
  is_Some (files σ !! p) →
  dirs_listable (files σ) p → shallower (files σ) p depth →
  ∃ σ' new,
    delete_item depth p σ = Returns () σ' ∧
    (∀ q, ¬ p `prefix_of` q → files σ' !! q = files σ !! q) ∧
    (∀ q, files σ' !! q = files σ !! q ∨ files σ' !! q = None) ∧
    clock σ' = clock σ ∧
    log σ' = log σ ++ new ∧ Forall is_delete_record new.
Proof.
  intros Hex Hls Hsh.
  destruct (proj1 (wp_returns _ _ _) (delete_item_spec depth p σ Hex Hls Hsh))
    as ([] & σ' & Hrun & Hfr & Hsub & Hck & new & Hnew & Hall).
  exists σ', new. split_and!; [done|done| |done..].
  intros q. destruct (decide (p `prefix_of` q)) as [Hq|Hq].
  - by destruct (Hsub q Hq).
  - left. by apply Hfr.
Qed.

Lemma delete_item_confined_witness :
  ∃ σ' new,
    delete_item 5 ["old"] (initial guarded_fs) = Returns () σ' ∧
    (∀ q, ¬ ["old"] `prefix_of` q → files σ' !! q = guarded_fs !! q) ∧
    (∀ q, files σ' !! q = guarded_fs !! q ∨ files σ' !! q = None) ∧
    clock σ' = 0%Z ∧
    log σ' = [] ++ new ∧ Forall is_delete_record new.
Proof.
  apply (delete_item_confined 5 ["old"] (initial guarded_fs)).
  - vm_compute. by eexists.
  - apply dirs_listable_check. vm_compute. reflexivity.
  - apply shallower_check. vm_compute. reflexivity.
Defined.

(** X6.  [delete_item] keeps a well-formed tree well formed, also when
    removals fail: whatever it leaves under the entry still has every
    folder above it, up to the entry itself.  A directory goes only after
    everything in it has gone. *)
Theorem delete_item_keeps_tree depth p σ :
  is_Some (files σ !! p) →
  dirs_listable (files σ) p → shallower (files σ) p depth →
  wf_under (files σ) p →
  ∃ σ',
    delete_item depth p σ = Returns () σ' ∧
    wf_under (files σ') p ∧
    (∀ k k', is_Some (files σ' !! (p ++ k ++ k')) →
             files σ' !! (p ++ k) = files σ !! (p ++ k)).
Proof.
  intros Hex Hls Hsh Hwf.
  destruct (proj1 (wp_returns _ _ _) (delete_item_spec depth p σ Hex Hls Hsh))
    as ([] & σ' & Hrun & _ & Hsub & _).
  pose proof (delete_item_wf depth p σ σ' Hex Hls Hsh Hwf Hrun) as Hwf'.
  exists σ'. split_and!; [done|done|].
  intros k k' Hsome.
  apply (wf_under_ancestors _ p k k' Hwf') in Hsome.
  destruct (Hsub (p ++ k)) as [[Heq|Heq] _]; [by eexists|done|].
  rewrite Heq in Hsome. by destruct Hsome.
Qed.

Lemma delete_item_keeps_tree_witness :
  ∃ σ',
    delete_item 5 ["old"] (initial guarded_fs) = Returns () σ' ∧
    wf_under (files σ') ["old"] ∧
    (∀ k k', is_Some (files σ' !! (["old"] ++ k ++ k')) →
             files σ' !! (["old"] ++ k) = guarded_fs !! (["old"] ++ k)).
Proof.
  apply (delete_item_keeps_tree 5 ["old"] (initial guarded_fs)).
  - vm_compute. by eexists.
  - apply dirs_listable_check. vm_compute. reflexivity.
  - apply shallower_check. vm_compute. reflexivity.
  - apply check_wf_under_sound. vm_compute. reflexivity.
Defined.

(** X7.  A failed removal is logged and does not stop [delete_item].  When
    the subtree holds a file in a folder that does not accept removals,
    [delete_item] returns; the file and every folder above it, up to the
    entry itself, are as they were; and the log has the failure to delete
    the file. *)
Theorem delete_item_spares_protected depth p q σ :
  is_Some (files σ !! p) →
  dirs_listable (files σ) p → shallower (files σ) p depth →
  wf_under (files σ) p →
  protected (files σ) (p ++ q) →
  ∃ σ' l1 l2,
    delete_item depth p σ = Returns () σ' ∧
    (∀ k k', q = k ++ k' → files σ' !! (p ++ k) = files σ !! (p ++ k)) ∧
    log σ' = log σ ++ l1 ++ (ERROR, Failed_to_delete (p ++ q)) :: l2.
Proof.
  intros Hex Hls Hsh Hwf Hprot.
  destruct (proj1 (wp_returns _ _ _) (delete_item_spec depth p σ Hex Hls Hsh))
    as ([] & σ' & Hrun & _ & Hsub & _).
  pose proof (delete_item_wf depth p σ σ' Hex Hls Hsh Hwf Hrun) as Hwf'.
  destruct (delete_item_spares depth p σ σ' (p ++ q) Hex Hls Hsh Hwf
              ltac:(by eexists) Hprot Hrun) as (Hkeep & l1 & l2 & Hlog).
  exists σ', l1, l2. split_and!; [done| |done].
  intros k k' ->.
  assert (is_Some (files σ' !! (p ++ k))) as Hsome.
  { apply (wf_under_ancestors _ p k k' Hwf'). rewrite Hkeep.
    destruct Hprot as [Hfile _]. by destruct (files σ !! (p ++ k ++ k')). }
  destruct (Hsub (p ++ k)) as [[Heq|Heq] _]; [by eexists|done|].
  rewrite Heq in Hsome. by destruct Hsome.
Qed.

Lemma delete_item_spares_protected_witness :
  ∃ σ' l1 l2,
    delete_item 5 ["old"] (initial guarded_fs) = Returns () σ' ∧
    (∀ k k', ["keep"; "f"] = k ++ k' →
             files σ' !! (["old"] ++ k) = guarded_fs !! (["old"] ++ k)) ∧
    log σ' = [] ++ l1 ++ (ERROR, Failed_to_delete (["old"] ++ ["keep"; "f"])) :: l2.
Proof.
  apply (delete_item_spares_protected 5 ["old"] ["keep"; "f"] (initial guarded_fs)).
  - vm_compute. by eexists.
  - apply dirs_listable_check. vm_compute. reflexivity.
  - apply shallower_check. vm_compute. reflexivity.
  - apply check_wf_under_sound. vm_compute. reflexivity.
  - split; [reflexivity|]. vm_compute. by eexists.
Defined.

(** The run on that folder: the file that can be removed goes, the guarded
    file, its folder and the folder itself stay. *)
Example guarded_run :
  ∃ σ',
    delete_item 5 ["old"] (initial guarded_fs) = Returns () σ' ∧
    files σ' = delete ["old"; "g"] guarded_fs ∧
    log σ' = [ (ERROR, Failed_to_delete ["old"; "keep"; "f"]);
               (ERROR, Failed_to_delete_folder ["old"; "keep"]);
               (INFO, Deleting_file ["old"; "g"]);
               (ERROR, Failed_to_delete_folder ["old"]) ].
Proof.
  eexists. split; [vm_compute; reflexivity|].
  split; refine (bool_decide_eq_true_1 _ _); vm_compute; reflexivity.
Qed.

(** ** synchronize_folders *)

Section MorePass.

Implicit Types fs : gmap path entry.
Implicit Types s r p q : path.
Implicit Types σ : state.

Lemma check_settled_sound fs s r : check_settled fs s r = true → settled fs s r.
Proof.
  unfold check_settled. rewrite andb_true_iff. intros [Hs Hr] q.
  unfold in_sync.
  destruct (fs !! (s ++ q)) as [e|] eqn:Hsq.
  - pose proof (under_all_spec _ _ _ Hs q e Hsq) as H. simpl in H.
    destruct e as [m d f|m].
    + apply andb_true_iff in H as [H Hh%bool_decide_eq_true].
      by apply andb_true_iff in H as [? ?].
    + apply andb_true_iff in H as [Hm H]. split; [done|].
      destruct (fs !! (r ++ q)) as [[? ? ?|m']|]; try done. by exists m'.
  - destruct (fs !! (r ++ q)) as [e|] eqn:Hrq; [|done].
    pose proof (under_all_spec _ _ _ Hr q e Hrq) as H. simpl in H.
    apply bool_decide_eq_true in H. rewrite Hsq in H. by destruct H.
Qed.

(** The body of the first loop on a file whose hash equals the hash of
    its replica counterpart. *)
Lemma sync_item_skip recurse s r item σ h :
  s ≠ r →
  hash_value (files σ !! (s ++ [item])) = Some h →
  hash_value (files σ !! (r ++ [item])) = Some h →
  sync_item recurse s r item σ =
    Returns () (State (files σ) (log σ ++ [(INFO, Hash_match item)]) (clock σ)).
Proof.
  intros Hne Hs Hr.
  assert (is_dir (files σ !! (s ++ [item])) = false) as Hnd.
  { destruct (files σ !! (s ++ [item])) as [[? ? ?|?]|]; [done|by compute in Hs|done]. }
  destruct (sync_item_file_spec recurse s r item σ Hne Hnd)
    as (σ' & new & Hrun & Hck & Hlog & _ & _ & Hskip & _).
  rewrite Hrun. f_equal.
  destruct Hskip as [Hfs Hnew].
  { unfold skips. rewrite Hs, Hr. rewrite !bool_decide_eq_true_2; [done..|].
    destruct (files σ !! (r ++ [item])); [by eexists|by compute in Hr]. }
  assert (∀ p o, hash_value o = Some h → hash_errors p o = []) as Hnone.
  { intros p o. unfold hash_value, hash_errors. by destruct (hash_result o). }
  rewrite !Hnone in Hnew by done. simpl in Hnew.
  destruct σ' as [f l c]. simpl in *. by subst.
Qed.

(** A copy whose read fails has emptied the replica file. *)
Lemma copy_file_failed_read sp rp σ ms data k mr old_data old_fault :
  sp ≠ rp →
  files σ !! sp = Some (File ms data (Some k)) → readable ms = true →
  k < length data →
  files σ !! rp = Some (File mr old_data old_fault) → writable mr = true →
  copy_file sp rp σ =
    Raises (OSError EIO)
      (State (<[rp := File mr [] None]> (files σ)) (log σ) (clock σ)).
Proof.
  intros Hne Hsp Hrs Hk Hrp Hw.
  unfold copy_file, bind, open_rb, open_wb. rewrite Hsp, Hrs, Hrp, Hw. simpl.
  unfold file_read_all, bind, file_read_gen. simpl.
  rewrite lookup_insert_ne, Hsp by done. unfold read_from. rewrite drop_0.
  unfold hits_fault. by rewrite bool_decide_eq_true_2 by lia.
Qed.

Lemma sync_item_failed_read recurse s r item σ ms data k mr old_data :
  s ≠ r →
  files σ !! (s ++ [item]) = Some (File ms data (Some k)) → readable ms = true →
  k < length data →
  files σ !! (r ++ [item]) = Some (File mr old_data None) →
  readable mr = true → writable mr = true →
  sync_item recurse s r item σ =
    Returns ()
      (State (<[r ++ [item] := File mr [] None]> (files σ))
             (log σ ++ failed_copy_records s r item) (clock σ)).
Proof.
  intros Hne Hsp Hrs Hk Hrp Hrr Hw.
  assert (s ++ [item] ≠ r ++ [item]) as Hne'.
  { intros Heq. by apply app_inv_tail in Heq. }
  destruct σ as [fs lg ck]. simpl in *.
  unfold sync_item, os_path_join.
  erewrite bind_Returns by (unfold os_path_isdir; simpl; reflexivity).
  rewrite Hsp. simpl. unfold try_except.
  erewrite bind_Returns by (unfold os_path_exists; simpl; reflexivity).
  rewrite Hrp. rewrite bool_decide_eq_true_2 by (by eexists).
  unfold bind at 1 2 3. rewrite !calculate_file_hash_State, Hsp, Hrp.
  unfold hash_value, hash_errors, hash_result. rewrite Hrs, Hrr. simpl.
  rewrite !(bool_decide_eq_true_2 (0 ≤ k < length data)) by lia.
  rewrite bool_decide_eq_false_2 by done. simpl.
  erewrite copy_file_failed_read; [|done|exact Hsp|done|done|exact Hrp|done].
  simpl. unfold logger_error. simpl. unfold failed_copy_records.
  by rewrite app_nil_r, <-!(assoc_L (++)).
Qed.

End MorePass.

(** X8.  Let source and replica be folders neither of which lies inside
    the other, with every directory under them listable.  Then a pass
    returns, and it changes nothing outside the replica tree: the source is
    only read.  Under the replica, an entry appears only where the replica
    or the source had one.  The pass only adds to the log and does not
    sleep.  This holds whatever fails for single items, and whether the
    pass returns true or false. *)
Theorem pass_confined_to_replica depth s r σ :
  runnable (files σ) s r depth →
  ∃ b σ' new,
    synchronize_folders depth s r σ = Returns b σ' ∧
    (∀ p, ¬ r `prefix_of` p → files σ' !! p = files σ !! p) ∧
    (∀ q, is_Some (files σ' !! (r ++ q)) →
          is_Some (files σ !! (r ++ q)) ∨ is_Some (files σ !! (s ++ q))) ∧
    clock σ' = clock σ ∧
    log σ' = log σ ++ new.
Proof.
  intros Hrun.
  destruct (runnable_spec _ s r depth σ eq_refl Hrun) as (σ' & Heq & Hpost).
  destruct Hpost as (_ & Hfr & _ & Heff & [Hck (new & Hnew & _)] & _).
  exists (root_ok (files σ) s r), σ', new. split_and!; [done..| |done|done].
  intros q. by destruct (Heff q) as [H _].
Qed.

Lemma pass_confined_to_replica_witness :
  ∃ b σ' new,
    synchronize_folders 5 ["src"] ["rep"] (initial troubled_fs) = Returns b σ' ∧
    (∀ p, ¬ ["rep"] `prefix_of` p → files σ' !! p = troubled_fs !! p) ∧
    (∀ q, is_Some (files σ' !! (["rep"] ++ q)) →
          is_Some (troubled_fs !! (["rep"] ++ q)) ∨
          is_Some (troubled_fs !! (["src"] ++ q))) ∧
    clock σ' = 0%Z ∧
    log σ' = [] ++ new.
Proof.
  apply (pass_confined_to_replica 5 ["src"] ["rep"] (initial troubled_fs)).
  apply check_runnable_sound. vm_compute. reflexivity.
Defined.

(** X9.  The checks at the entry of [synchronize_folders], when they fail
    with nothing created: a missing source, a replica path that is a file,
    and a replica folder that cannot be created each make the call return
    false with one error logged and the filesystem as it was. *)
Theorem failed_check_changes_nothing depth s r σ :
  (files σ !! s = None →
   synchronize_folders (S depth) s r σ =
     Returns false
       (State (files σ) (log σ ++ [(ERROR, Source_folder_does_not_exist)]) (clock σ))) ∧
  (is_dir (files σ !! s) = true → is_file (files σ !! r) = true →
   synchronize_folders (S depth) s r σ =
     Returns false
       (State (files σ) (log σ ++ [(ERROR, Replica_is_not_a_folder)]) (clock σ))) ∧
  (∀ err, is_Some (files σ !! s) → files σ !! r = None →
   check_parent (files σ) (dirname r) = Some err →
   synchronize_folders (S depth) s r σ =
     Returns false
       (State (files σ) (log σ ++ [(ERROR, Failed_to_create_replica_folder err)])
              (clock σ))).
Proof.
  split_and!.
  - intros Hs. simpl. unfold bind at 1, os_path_exists. rewrite Hs.
    by rewrite bool_decide_eq_false_2 by (by intros [??]).
  - intros Hs Hr. simpl.
    assert (is_Some (files σ !! s)) as Hs'
      by (destruct (files σ !! s); [by eexists|done]).
    assert (is_Some (files σ !! r)) as Hr'
      by (destruct (files σ !! r); [by eexists|done]).
    assert (is_dir (files σ !! r) = false) as Hrd
      by (by destruct (files σ !! r) as [[? ? ?|?]|]).
    erewrite bind_Returns by reflexivity.
    rewrite (bool_decide_eq_true_2 _ Hs'). simpl.
    erewrite bind_Returns by reflexivity.
    rewrite (bool_decide_eq_true_2 _ Hr'). simpl.
    erewrite bind_Returns by reflexivity. simpl.
    erewrite bind_Returns by reflexivity. rewrite Hs. simpl.
    erewrite bind_Returns by reflexivity. rewrite Hrd. simpl.
    reflexivity.
  - intros err Hs Hr Hpar. simpl.
    erewrite bind_Returns by reflexivity.
    rewrite (bool_decide_eq_true_2 _ Hs). simpl.
    erewrite bind_Returns by reflexivity.
    rewrite bool_decide_eq_false_2 by (rewrite Hr; by intros [??]). simpl.
    unfold try_except, os_mkdir.
    erewrite bind_Returns.
    2:{ erewrite bind_Raises by (by rewrite Hr, Hpar). simpl. reflexivity. }
    reflexivity.
Qed.

Lemma failed_check_changes_nothing_witness :
  synchronize_folders 1 ["nowhere"] ["rep"] (initial mirror_fs) =
    Returns false (State mirror_fs [(ERROR, Source_folder_does_not_exist)] 0) ∧
  synchronize_folders 1 ["src"] ["rep"; "a.txt"] (initial mirror_fs) =
    Returns false (State mirror_fs [(ERROR, Replica_is_not_a_folder)] 0) ∧
  synchronize_folders 1 ["src"] ["backups"; "rep"] (initial mirror_fs) =
    Returns false
      (State mirror_fs [(ERROR, Failed_to_create_replica_folder ENOENT)] 0).
Proof.
  split_and!.
  - apply (proj1 (failed_check_changes_nothing 0 ["nowhere"] ["rep"] (initial mirror_fs))).
    reflexivity.
  - apply (proj1 (proj2 (failed_check_changes_nothing 0 ["src"] ["rep"; "a.txt"]
                           (initial mirror_fs))));
      vm_compute; reflexivity.
  - apply (proj2 (proj2 (failed_check_changes_nothing 0 ["src"] ["backups"; "rep"]
                           (initial mirror_fs))) ENOENT).
    + vm_compute. by eexists.
    + reflexivity.
    + reflexivity.
Defined.

(** X10.  A file whose hash equals the hash of its replica counterpart is
    left alone: the body of the first loop logs the match and changes
    nothing, and after the pass the replica entry is what it was, mode and
    bytes. *)
Theorem unchanged_file_is_skipped depth s r item σ h :
  runnable (files σ) s r depth → root_ok (files σ) s r = true →
  hash_value (files σ !! (s ++ [item])) = Some h →
  hash_value (files σ !! (r ++ [item])) = Some h →
  (∀ recurse,
     sync_item recurse s r item σ =
       Returns () (State (files σ) (log σ ++ [(INFO, Hash_match item)]) (clock σ))) ∧
  ∃ σ' before after,
    synchronize_folders depth s r σ = Returns true σ' ∧
    files σ' !! (r ++ [item]) = files σ !! (r ++ [item]) ∧
    log σ' = log σ ++ before ++ [(INFO, Hash_match item)] ++ after.
Proof.
  intros Hrun Hroot Hs Hr.
  assert (apart s r) as Ha by apply Hrun.
  split.
  { intros recurse. apply (sync_item_skip recurse s r item σ h); [by apply apart_ne|done..]. }
  destruct (runnable_spec _ s r depth σ eq_refl Hrun) as (σ' & Heq & Hpost).
  rewrite Hroot in Heq, Hpost.
  destruct (top_file_ran depth s r σ σ' item Ha Hpost)
    as (σa & σb & new & A1 & A2 & _ & Hrun' & Hfin & Hnew & bef & aft & Hlog).
  { destruct (files σ !! (s ++ [item])); [by eexists|by compute in Hs]. }
  rewrite (sync_item_skip _ s r item σa h) in Hrun';
    [|by apply apart_ne|by rewrite A1|by rewrite A2].
  injection Hrun' as <-. simpl in *. apply app_inv_head in Hnew. subst new.
  exists σ', bef, aft. split_and!; [done|congruence|done].
Qed.

Lemma unchanged_file_is_skipped_witness :
  (∀ recurse,
     sync_item recurse ["src"] ["rep"] "a.txt" (initial mirror_fs) =
       Returns () (State mirror_fs ([] ++ [(INFO, Hash_match "a.txt")]) 0)) ∧
  ∃ σ' before after,
    synchronize_folders 5 ["src"] ["rep"] (initial mirror_fs) = Returns true σ' ∧
    files σ' !! (["rep"] ++ ["a.txt"]) = mirror_fs !! (["rep"] ++ ["a.txt"]) ∧
    log σ' = [] ++ before ++ [(INFO, Hash_match "a.txt")] ++ after.
Proof.
  apply (unchanged_file_is_skipped 5 ["src"] ["rep"] "a.txt" (initial mirror_fs)
           (md5 "hi")).
  - apply check_runnable_sound. vm_compute. reflexivity.
  - vm_compute. reflexivity.
  - vm_compute. reflexivity.
  - vm_compute. reflexivity.
Defined.

(** X11.  A copy is not atomic.  When the source file can be opened and
    its read fails, and the replica holds an older copy that can be read
    and written, the replica file has been truncated by the time the read
    fails: after the pass it is empty, the old bytes are gone, and the log
    has the two failures.  The pass returns true. *)
Theorem failed_copy_empties_replica depth s r item σ ms data k mr old_data :
  runnable (files σ) s r depth → root_ok (files σ) s r = true →
  files σ !! (s ++ [item]) = Some (File ms data (Some k)) → readable ms = true →
  k < length data →
  files σ !! (r ++ [item]) = Some (File mr old_data None) →
  readable mr = true → writable mr = true →
  (∀ recurse,
     sync_item recurse s r item σ =
       Returns ()
         (State (<[r ++ [item] := File mr [] None]> (files σ))
                (log σ ++ failed_copy_records s r item) (clock σ))) ∧
  ∃ σ' before after,
    synchronize_folders depth s r σ = Returns true σ' ∧
    files σ' !! (r ++ [item]) = Some (File mr [] None) ∧
    log σ' = log σ ++ before ++ failed_copy_records s r item ++ after.
Proof.
  intros Hrun Hroot Hs Hrs Hk Hr Hrr Hw.
  assert (apart s r) as Ha by apply Hrun.
  split.
  { intros recurse.
    apply (sync_item_failed_read recurse s r item σ ms data k mr old_data);
      [by apply apart_ne|done..]. }
  destruct (runnable_spec _ s r depth σ eq_refl Hrun) as (σ' & Heq & Hpost).
  rewrite Hroot in Heq, Hpost.
  destruct (top_file_ran depth s r σ σ' item Ha Hpost)
    as (σa & σb & new & A1 & A2 & _ & Hrun' & Hfin & Hnew & bef & aft & Hlog).
  { by rewrite Hs. }
  rewrite (sync_item_failed_read _ s r item σa ms data k mr old_data) in Hrun';
    [|by apply apart_ne|by rewrite A1|done|done|by rewrite A2|done|done].
  injection Hrun' as <-. simpl in *. apply app_inv_head in Hnew. subst new.
  exists σ', bef, aft. split_and!; [done| |done].
  by rewrite Hfin, lookup_insert_eq.
Qed.

Lemma failed_copy_empties_replica_witness :
  (∀ recurse,
     sync_item recurse ["src"] ["rep"] "data" (initial faulty_source_fs) =
       Returns ()
         (State (<[["rep"] ++ ["data"] := File rw [] None]> faulty_source_fs)
                ([] ++ failed_copy_records ["src"] ["rep"] "data") 0)) ∧
  ∃ σ' before after,
    synchronize_folders 5 ["src"] ["rep"] (initial faulty_source_fs) = Returns true σ' ∧
    files σ' !! (["rep"] ++ ["data"]) = Some (File rw [] None) ∧
    log σ' = [] ++ before ++ failed_copy_records ["src"] ["rep"] "data" ++ after.
Proof.
  apply (failed_copy_empties_replica 5 ["src"] ["rep"] "data" (initial faulty_source_fs)
           rw (bytes_of_string "new content") 1 rw (bytes_of_string "old content")).
  - apply check_runnable_sound. vm_compute. reflexivity.
  - vm_compute. reflexivity.
  - reflexivity.
  - reflexivity.
  - vm_compute. lia.
  - reflexivity.
  - reflexivity.
  - reflexivity.
Defined.

(** X12.  A pass over a replica that is already in sync (every entry of
    the source has its counterpart with the same hash, and the replica
    holds nothing else) writes nothing and deletes nothing: it returns
    true, the filesystem is exactly as it was, and the log gains one hash
    match for every file of the source and nothing else. *)
Theorem noop_on_settled depth s r σ :
  apart s r → settled (files σ) s r → wf_under (files σ) s →
  shallower (files σ) s depth → is_dir (files σ !! s) = true →
  ∃ σ' new,
    synchronize_folders depth s r σ = Returns true σ' ∧
    files σ' = files σ ∧ clock σ' = clock σ ∧
    log σ' = log σ ++ new ∧
    Forall is_hash_match new ∧
    (∀ q item, is_file (files σ !! (s ++ q ++ [item])) = true →
               (INFO, Hash_match item) ∈ new).
Proof.
  intros Ha Hset Hwf Hsh Hdir.
  pose proof (synchronize_folders_settled depth s r σ Ha Hset Hwf Hsh Hdir) as H.
  apply wp_returns in H as (b & σ' & Hrun & -> & Hfs & Hck & new & Hnew & Hall & Hin).
  by exists σ', new.
Qed.

Lemma noop_on_settled_witness :
  ∃ σ' new,
    synchronize_folders 5 ["src"] ["rep"] (initial mirror_fs) = Returns true σ' ∧
    files σ' = mirror_fs ∧ clock σ' = 0%Z ∧
    log σ' = [] ++ new ∧
    Forall is_hash_match new ∧
    (∀ q item, is_file (mirror_fs !! (["src"] ++ q ++ [item])) = true →
               (INFO, Hash_match item) ∈ new).
Proof.
  apply (noop_on_settled 5 ["src"] ["rep"] (initial mirror_fs)).
  - split; refine (bool_decide_eq_true_1 _ _); vm_compute; reflexivity.
  - apply check_settled_sound. vm_compute. reflexivity.
  - apply check_wf_under_sound. vm_compute. reflexivity.
  - apply shallower_check. vm_compute. reflexivity.
  - reflexivity.
Defined.

(** X13.  The folders of the source are mirrored whether or not its files
    can be copied.  When the kinds agree and the replica's directories
    accept changes, after the pass every directory of the source is a
    directory of the replica, created if it was missing, and it holds no
    entry that the source directory lacks: an empty folder is mirrored as
    an empty folder. *)
Theorem folders_are_mirrored depth s r σ :
  runnable (files σ) s r depth → structure_ok (files σ) s r →
  ∃ σ',
    synchronize_folders depth s r σ = Returns true σ' ∧
    ∀ q, is_dir (files σ !! (s ++ q)) = true →
         is_dir (files σ' !! (r ++ q)) = true ∧
         ∀ item, is_Some (files σ' !! (r ++ q ++ [item])) →
                 is_Some (files σ !! (s ++ q ++ [item])).
Proof.
  intros Hrun Hok.
  destruct (runnable_spec _ s r depth σ eq_refl Hrun) as (σ' & Heq & Hpost).
  assert (root_ok (files σ) s r = true) as Hroot by apply Hok.
  rewrite Hroot in Heq, Hpost. exists σ'. split; [done|].
  destruct Hpost as (_ & _ & _ & _ & _ & _ & _ & Hm).
  intros q Hdir. split.
  - specialize (Hm Hok q). unfold mirrored in Hm.
    by destruct (files σ !! (s ++ q)) as [[? ? ?|?]|].
  - intros item Hsome. specialize (Hm Hok (q ++ [item])). unfold mirrored in Hm.
    destruct (files σ !! (s ++ q ++ [item])); [by eexists|].
    rewrite Hm in Hsome. by destruct Hsome.
Qed.

Lemma folders_are_mirrored_witness :
  ∃ σ',
    synchronize_folders 5 ["src"] ["rep"] (initial empty_folder_fs) = Returns true σ' ∧
    ∀ q, is_dir (empty_folder_fs !! (["src"] ++ q)) = true →
         is_dir (files σ' !! (["rep"] ++ q)) = true ∧
         ∀ item, is_Some (files σ' !! (["rep"] ++ q ++ [item])) →
                 is_Some (empty_folder_fs !! (["src"] ++ q ++ [item])).
Proof.
  apply (folders_are_mirrored 5 ["src"] ["rep"] (initial empty_folder_fs)).
  - apply check_runnable_sound. vm_compute. reflexivity.
  - apply check_structure_sound. vm_compute. reflexivity.
Defined.

(** The pass over that source: the empty folder is created, the file that
    cannot be read is reported and not copied. *)
Example empty_folder_pass :
  ∃ σ',
    synchronize_folders 5 ["src"] ["rep"] (initial empty_folder_fs) = Returns true σ' ∧
    files σ' = <[["rep"; "empty"] := Dir rw]> empty_folder_fs ∧
    (ERROR, Failed_to_synchronize ["src"; "secret"] ["rep"; "secret"] EACCES) ∈ log σ'.
Proof.
  eexists. split; [vm_compute; reflexivity|].
  split; refine (bool_decide_eq_true_1 _ _); vm_compute; reflexivity.
Qed.

(** X14.  The listing of the source folder is not guarded.  When the
    checks at the entry succeed and the source folder cannot be listed,
    [synchronize_folders] raises [OSError] instead of returning, after
    creating the replica folder if it was missing; and the loop of
    [start_sync] ends with that exception at its first pass. *)
Theorem unlistable_source_raises world ticks depth seconds s r σ m :
  root_ok (files σ) s r = true →
  files σ !! s = Some (Dir m) → readable m = false →
  synchronize_folders (S depth) s r σ = Raises (OSError EACCES) (after_checks r σ) ∧
  sync_loop world (S ticks) (S depth) seconds s r σ =
    Raises (OSError EACCES) (after_checks r (tick_started s r σ)).
Proof.
  intros Hroot Hs Hm.
  assert (∀ σ0, files σ0 = files σ →
            synchronize_folders (S depth) s r σ0 =
              Raises (OSError EACCES) (after_checks r σ0)) as Hpass.
  { intros σ0 H0. rewrite synchronize_folders_root_pass by (by rewrite H0).
    unfold sync_loops. apply bind_Raises. unfold os_listdir.
    assert (files (after_checks r σ0) !! s = Some (Dir m)) as ->; [|by rewrite Hm].
    unfold after_checks. rewrite H0.
    destruct (is_dir (files σ !! r)) eqn:Hr; [by rewrite H0|]. simpl.
    rewrite lookup_insert_ne; [done|]. intros <-. by rewrite Hs in Hr. }
  split; [by apply Hpass|].
  simpl. unfold bind at 1, logger_info. fold (tick_started s r σ).
  by erewrite bind_Raises by (by apply Hpass).
Qed.

Lemma unlistable_source_raises_witness :
  synchronize_folders 1 ["src"] ["rep"] (initial unlistable_fs) =
    Raises (OSError EACCES) (after_checks ["rep"] (initial unlistable_fs)) ∧
  sync_loop source_vanishes 1 1 60 ["src"] ["rep"] (initial unlistable_fs) =
    Raises (OSError EACCES)
      (after_checks ["rep"] (tick_started ["src"] ["rep"] (initial unlistable_fs))).
Proof.
  apply (unlistable_source_raises source_vanishes 0 0 60 ["src"] ["rep"]
           (initial unlistable_fs) (Mode false true)).
  - vm_compute. reflexivity.
  - reflexivity.
  - reflexivity.
Defined.

(** ** read_commands and start_sync together *)

Section Accepted.

Lemma unit_letter_cases u :
  is_unit_letter u = true → u ∈ lower_units ∨ u ∈ upper_units.
Proof.
  unfold is_unit_letter, lower_units, upper_units.
  intros Hu%bool_decide_eq_true. simpl in Hu. set_unfold in Hu. set_unfold.
  destruct Hu as [->|[->|[->|[->|[->|[->|[->|[->|[]]]]]]]]]; auto 10.
Qed.

Lemma uppercase_unit_key_error world ticks depth digits u s r σ :
  digits ≠ [] → forallb is_digit digits = true → u ∈ upper_units →
  start_sync world ticks depth (interval_string digits u) s r σ
    = Raises (KeyError (String u EmptyString)) σ.
Proof.
  intros Hne Hd Hu. unfold start_sync.
  erewrite bind_Returns by apply last_char_interval_string.
  rewrite but_last_interval_string.
  erewrite bind_Returns by (by apply int_digits).
  unfold upper_units in Hu. set_unfold in Hu.
  destruct Hu as [->|[->|[->|[->|[]]]]]; reflexivity.
Qed.

End Accepted.

(** X15.  What [start_sync] does with an interval that [read_commands]
    accepts.  The interval is never empty, so taking its last character
    never fails; and exactly one of three things happens: with a lowercase
    unit the loop is entered with the seconds the interval denotes; with an
    uppercase unit the lookup of the unit's name raises [KeyError]; with a
    final newline [int] raises [ValueError].  In the last two cases nothing
    has been logged. *)
Theorem accepted_interval_outcomes world ticks depth sync_interval s r σ :
  sync_interval_pattern sync_interval = true →
  String.length sync_interval ≤ int_max_str_digits →
  (∃ digits u,
     sync_interval = interval_string digits u ∧ u ∈ lower_units ∧
     start_sync world ticks depth sync_interval s r σ =
       sync_loop world ticks depth (decimal digits * unit_seconds u) s r
         (State (files σ)
                (log σ ++ [(INFO, Sync_interval_set (decimal digits) (unit_name u))])
                (clock σ))) ∨
  (∃ digits u,
     sync_interval = interval_string digits u ∧ u ∈ upper_units ∧
     start_sync world ticks depth sync_interval s r σ
       = Raises (KeyError (String u EmptyString)) σ) ∨
  (∃ digits u,
     sync_interval = string_of_list_ascii (digits ++ [u; newline]) ∧
     start_sync world ticks depth sync_interval s r σ = Raises ValueError σ).
Proof.
  intros Hpat _. pose proof Hpat as Hshape.
  apply sync_interval_pattern_shape in Hshape
    as (digits & u & Hne & Hd & Hu & Hcs).
  assert (∀ cs, list_ascii_of_string sync_interval = cs →
                sync_interval = string_of_list_ascii cs) as Hstr.
  { intros cs <-. by rewrite string_of_list_ascii_of_string. }
  destruct Hcs as [Hcs%Hstr|Hcs%Hstr].
  - fold (interval_string digits u) in Hcs.
    destruct (unit_letter_cases u Hu) as [Hlow|Hup].
    + left. exists digits, u. split_and!; [done..|]. rewrite Hcs.
      unfold start_sync.
      erewrite bind_Returns by apply last_char_interval_string.
      rewrite but_last_interval_string.
      erewrite bind_Returns by (by apply int_digits).
      unfold lower_units in Hlow. set_unfold in Hlow.
      destruct Hlow as [->|[->|[->|[->|[]]]]]; reflexivity.
    + right. left. exists digits, u. split_and!; [done..|]. rewrite Hcs.
      by apply uppercase_unit_key_error.
  - right. right. exists digits, u. split; [done|]. rewrite Hcs.
    change (digits ++ [u; newline]) with (digits ++ [u] ++ [newline]).
    rewrite (assoc_L (++)). fold (interval_string (digits ++ [u]) newline).
    unfold start_sync.
    erewrite bind_Returns by apply last_char_interval_string.
    rewrite but_last_interval_string.
    by erewrite bind_Raises by (by apply int_not_digits).
Qed.

Lemma accepted_interval_outcomes_witness :
  (∃ digits u,
     "12h" = interval_string digits u ∧ u ∈ lower_units ∧
     start_sync source_vanishes 3 5 "12h" ["src"] ["rep"] (initial empty_pair_fs) =
       sync_loop source_vanishes 3 5 (decimal digits * unit_seconds u) ["src"] ["rep"]
         (State empty_pair_fs
                ([] ++ [(INFO, Sync_interval_set (decimal digits) (unit_name u))])
                0)) ∨
  (∃ digits u,
     "12h" = interval_string digits u ∧ u ∈ upper_units ∧
     start_sync source_vanishes 3 5 "12h" ["src"] ["rep"] (initial empty_pair_fs)
       = Raises (KeyError (String u EmptyString)) (initial empty_pair_fs)) ∨
  (∃ digits u,
     "12h" = string_of_list_ascii (digits ++ [u; newline]) ∧
     start_sync source_vanishes 3 5 "12h" ["src"] ["rep"] (initial empty_pair_fs)
       = Raises ValueError (initial empty_pair_fs)).
Proof.
  apply (accepted_interval_outcomes source_vanishes 3 5 "12h" ["src"] ["rep"]
           (initial empty_pair_fs)).
  - reflexivity.
  - unfold int_max_str_digits. simpl. lia.
Defined.

(** ** delete_item: the listing is not guarded *)

(** X16.  [delete_item] lists a path that is not a file without a guard:
    on a path that does not exist, and on a directory that cannot be
    listed, it raises [OSError] instead of logging a failure, with nothing
    changed and nothing logged. *)
Theorem delete_item_raises_unguarded depth p σ :
  (files σ !! p = None →
   delete_item (S depth) p σ = Raises (OSError ENOENT) σ) ∧
  (∀ m, files σ !! p = Some (Dir m) → readable m = false →
   delete_item (S depth) p σ = Raises (OSError EACCES) σ).
Proof.
  split.
  - intros Hp. simpl. unfold bind at 1, os_path_isfile. rewrite Hp. simpl.
    apply bind_Raises. unfold os_listdir. by rewrite Hp.
  - intros m Hp Hm. simpl. unfold bind at 1, os_path_isfile. rewrite Hp. simpl.
    apply bind_Raises. unfold os_listdir. by rewrite Hp, Hm.
Qed.

Lemma delete_item_raises_unguarded_witness :
  delete_item 1 ["nowhere"] (initial unlistable_fs)
    = Raises (OSError ENOENT) (initial unlistable_fs) ∧
  delete_item 1 ["src"] (initial unlistable_fs)
    = Raises (OSError EACCES) (initial unlistable_fs).
Proof.
  split.
  - apply (proj1 (delete_item_raises_unguarded 0 ["nowhere"] (initial unlistable_fs))).
    reflexivity.
  - apply (proj2 (delete_item_raises_unguarded 0 ["src"] (initial unlistable_fs))
             (Mode false true)); reflexivity.
Defined.
(** ** calculate_file_hash only reads *)

(** X17.  [calculate_file_hash] returns for every path and every state:
    it never raises, never changes the filesystem and does not sleep.  When
    it returns a digest it has logged nothing; when it returns [None] it has
    logged exactly one error, which names the path. *)
Theorem hash_is_read_only p σ :
  ∃ res σ',
    calculate_file_hash p σ = Returns res σ' ∧
    files σ' = files σ ∧ clock σ' = clock σ ∧
    (is_Some res → log σ' = log σ) ∧
    (res = None → ∃ err, log σ' = log σ ++ [(ERROR, Failed_to_open_file p err)]).
Proof.
  rewrite calculate_file_hash_spec.
  destruct (hash_result (files σ !! p)) as [h|err].
  - exists (Some h), σ. split_and!; [done..|]. done.
  - eexists None, _. split_and!; [done|done|done| |].
    + by intros [??].
    + intros _. by exists err.
Qed.

